(** * OpenRCT2 paint core: a shallow embedding of [src/openrct2/paint/Paint.cpp]

    The paint session is a frame-scoped arena of paint entries threaded into
    intrusive singly-linked lists.  Pointers into the arena are modelled as
    indices, the session is an explicit state, and every function of
    [Paint.cpp] that mutates it is written in a small state-and-failure monad.
    A failure of the monad stands for behaviour the C++ leaves undefined
    (dereferencing a dangling pointer, indexing an array out of range) or, in
    a loop, for running out of fuel. *)

From Stdlib Require Import ZArith Lia.
From stdpp Require Import base numbers option list sets.

Open Scope Z_scope.

(** ** Fixed-width integers *)

Definition uint8 (v : Z) : Z := v mod 2 ^ 8.
Definition uint16 (v : Z) : Z := v mod 2 ^ 16.
Definition uint32 (v : Z) : Z := v mod 2 ^ 32.
Definition int8 (v : Z) : Z := (v + 2 ^ 7) mod 2 ^ 8 - 2 ^ 7.
Definition int16 (v : Z) : Z := (v + 2 ^ 15) mod 2 ^ 16 - 2 ^ 15.
Definition UINT32_MAX : Z := 2 ^ 32 - 1.

(** ** Coordinates *)

Record CoordsXY := { xy_x : Z; xy_y : Z }.
Record CoordsXYZ := { xyz_x : Z; xyz_y : Z; xyz_z : Z }.
Record ScreenCoordsXY := { scr_x : Z; scr_y : Z }.

Definition xyz_xy (c : CoordsXYZ) : CoordsXY :=
  {| xy_x := xyz_x c; xy_y := xyz_y c |}.
Definition xy_with_z (c : CoordsXY) (z : Z) : CoordsXYZ :=
  {| xyz_x := xy_x c; xyz_y := xy_y c; xyz_z := z |}.

(** Modelled from the spec: [CoordsXY::Rotate] ([Location.hpp] is not among
    the sources).  The spec speaks of a "90°-quantized rotation" of a point by
    a rotation index 0..3; the point is turned about the origin by
    [direction & 3] quarter turns. *)
Definition Rotate (c : CoordsXY) (direction : Z) : CoordsXY :=
  match Z.land direction 3 with
  | 1 => {| xy_x := xy_y c; xy_y := - xy_x c |}
  | 2 => {| xy_x := - xy_x c; xy_y := - xy_y c |}
  | 3 => {| xy_x := - xy_y c; xy_y := xy_x c |}
  | _ => c
  end.

(** Modelled from the spec: [translate_3d_to_2d_with_z] ([Viewport.cpp] is not
    among the sources): "project the resulting 3D point to 2D screen space
    using the camera rotation".  The isometric projection of the rotated
    point. *)
Definition translate_3d_to_2d_with_z (rotation : Z) (pos : CoordsXYZ) : ScreenCoordsXY :=
  let rotated := Rotate (xyz_xy pos) rotation in
  {| scr_x := xy_y rotated - xy_x rotated;
     scr_y := Z.shiftr (xy_x rotated + xy_y rotated) 1 - xyz_z pos |}.

(** Modelled from the spec: [floor2] (a macro of [common.h], not among the
    sources): "floor-align both coordinates to 2^zoom granularity".  For a
    power of two [n] it clears the low bits of [v]. *)
Definition floor2 (v n : Z) : Z := Z.land v (Z.lnot (n - 1)).

(** ** Paint structures *)

Record paint_struct_bound_box := {
  bb_x : Z;
  bb_y : Z;
  bb_z : Z;
  bb_x_end : Z;
  bb_y_end : Z;
  bb_z_end : Z;
}.

(** The interaction items, in the order of the [BoundBoxDebugColours] table. *)
Inductive ViewportInteractionItem :=
| VIEWPORT_INTERACTION_ITEM_NONE
| VIEWPORT_INTERACTION_ITEM_TERRAIN
| VIEWPORT_INTERACTION_ITEM_SPRITE
| VIEWPORT_INTERACTION_ITEM_RIDE
| VIEWPORT_INTERACTION_ITEM_WATER
| VIEWPORT_INTERACTION_ITEM_SCENERY
| VIEWPORT_INTERACTION_ITEM_FOOTPATH
| VIEWPORT_INTERACTION_ITEM_FOOTPATH_ITEM
| VIEWPORT_INTERACTION_ITEM_PARK
| VIEWPORT_INTERACTION_ITEM_WALL
| VIEWPORT_INTERACTION_ITEM_LARGE_SCENERY
| VIEWPORT_INTERACTION_ITEM_LABEL
| VIEWPORT_INTERACTION_ITEM_BANNER.

Global Instance ViewportInteractionItem_eq_dec : EqDecision ViewportInteractionItem.
Proof. solve_decision. Defined.

Definition BoundBoxDebugColours (t : ViewportInteractionItem) : Z :=
  match t with
  | VIEWPORT_INTERACTION_ITEM_NONE => 0
  | VIEWPORT_INTERACTION_ITEM_TERRAIN => 102
  | VIEWPORT_INTERACTION_ITEM_SPRITE => 114
  | VIEWPORT_INTERACTION_ITEM_RIDE => 229
  | VIEWPORT_INTERACTION_ITEM_WATER => 126
  | VIEWPORT_INTERACTION_ITEM_SCENERY => 138
  | VIEWPORT_INTERACTION_ITEM_FOOTPATH => 150
  | VIEWPORT_INTERACTION_ITEM_FOOTPATH_ITEM => 162
  | VIEWPORT_INTERACTION_ITEM_PARK => 174
  | VIEWPORT_INTERACTION_ITEM_WALL => 186
  | VIEWPORT_INTERACTION_ITEM_LARGE_SCENERY => 198
  | VIEWPORT_INTERACTION_ITEM_LABEL => 210
  | VIEWPORT_INTERACTION_ITEM_BANNER => 222
  end.

(** A [paint_struct*]: the session's own [PaintHead], or a slot of the
    [PaintStructs] pool. *)
Inductive paint_struct_ptr :=
| PaintHeadPtr
| PaintEntryPtr (i : nat).

Global Instance paint_struct_ptr_eq_dec : EqDecision paint_struct_ptr.
Proof. solve_decision. Defined.

Record attached_paint_struct := {
  att_image_id : Z;
  (** [tertiary_colour] and [colour_image_id] share storage *)
  att_colour_image_id : Z;
  att_x : Z;
  att_y : Z;
  att_flags : Z;
  (** an [attached_paint_struct*] is a slot of the pool *)
  att_next : option nat;
}.

Record paint_struct := {
  image_id : Z;
  (** [tertiary_colour] and [colour_image_id] share storage *)
  colour_image_id : Z;
  bounds : paint_struct_bound_box;
  ps_x : Z;
  ps_y : Z;
  quadrant_index : Z;
  flags : Z;
  quadrant_flags : Z;
  attached_ps : option nat;
  children : option paint_struct_ptr;
  next_quadrant_ps : option paint_struct_ptr;
  sprite_type : ViewportInteractionItem;
  var_29 : Z;
  map_x : Z;
  map_y : Z;
  tileElement : Z;
}.

Definition set_next_quadrant_ps (v : option paint_struct_ptr) (ps : paint_struct) : paint_struct :=
  {| image_id := image_id ps; colour_image_id := colour_image_id ps; bounds := bounds ps;
     ps_x := ps_x ps; ps_y := ps_y ps; quadrant_index := quadrant_index ps;
     flags := flags ps; quadrant_flags := quadrant_flags ps;
     attached_ps := attached_ps ps; children := children ps;
     next_quadrant_ps := v;
     sprite_type := sprite_type ps; var_29 := var_29 ps; map_x := map_x ps;
     map_y := map_y ps; tileElement := tileElement ps |}.

Definition set_quadrant_flags (v : Z) (ps : paint_struct) : paint_struct :=
  {| image_id := image_id ps; colour_image_id := colour_image_id ps; bounds := bounds ps;
     ps_x := ps_x ps; ps_y := ps_y ps; quadrant_index := quadrant_index ps;
     flags := flags ps; quadrant_flags := v;
     attached_ps := attached_ps ps; children := children ps;
     next_quadrant_ps := next_quadrant_ps ps;
     sprite_type := sprite_type ps; var_29 := var_29 ps; map_x := map_x ps;
     map_y := map_y ps; tileElement := tileElement ps |}.

Definition set_quadrant_index (v : Z) (ps : paint_struct) : paint_struct :=
  {| image_id := image_id ps; colour_image_id := colour_image_id ps; bounds := bounds ps;
     ps_x := ps_x ps; ps_y := ps_y ps; quadrant_index := v;
     flags := flags ps; quadrant_flags := quadrant_flags ps;
     attached_ps := attached_ps ps; children := children ps;
     next_quadrant_ps := next_quadrant_ps ps;
     sprite_type := sprite_type ps; var_29 := var_29 ps; map_x := map_x ps;
     map_y := map_y ps; tileElement := tileElement ps |}.

Definition set_children (v : option paint_struct_ptr) (ps : paint_struct) : paint_struct :=
  {| image_id := image_id ps; colour_image_id := colour_image_id ps; bounds := bounds ps;
     ps_x := ps_x ps; ps_y := ps_y ps; quadrant_index := quadrant_index ps;
     flags := flags ps; quadrant_flags := quadrant_flags ps;
     attached_ps := attached_ps ps; children := v;
     next_quadrant_ps := next_quadrant_ps ps;
     sprite_type := sprite_type ps; var_29 := var_29 ps; map_x := map_x ps;
     map_y := map_y ps; tileElement := tileElement ps |}.

Definition set_attached_ps (v : option nat) (ps : paint_struct) : paint_struct :=
  {| image_id := image_id ps; colour_image_id := colour_image_id ps; bounds := bounds ps;
     ps_x := ps_x ps; ps_y := ps_y ps; quadrant_index := quadrant_index ps;
     flags := flags ps; quadrant_flags := quadrant_flags ps;
     attached_ps := v; children := children ps;
     next_quadrant_ps := next_quadrant_ps ps;
     sprite_type := sprite_type ps; var_29 := var_29 ps; map_x := map_x ps;
     map_y := map_y ps; tileElement := tileElement ps |}.

Definition set_att_next (v : option nat) (a : attached_paint_struct) : attached_paint_struct :=
  {| att_image_id := att_image_id a; att_colour_image_id := att_colour_image_id a;
     att_x := att_x a; att_y := att_y a; att_flags := att_flags a; att_next := v |}.

(** ** Declarations that [Paint.cpp] takes from headers outside the sources

    [Paint.h], [Viewport.h] and [Drawing.h] are not part of the sources at
    hand; the constants they declare are parameters of the development.  The
    only facts assumed about them are the ones [std::clamp] and the
    [uint16_t quadrant_index] field need. *)

Record rct_g1_element := {
  g1_width : Z;
  g1_height : Z;
  g1_x_offset : Z;
  g1_y_offset : Z;
}.

Class PaintHeaders := {
  MAX_PAINT_QUADRANTS : Z;
  (** capacity of the [PaintStructs] pool *)
  MaxPaintEntries : nat;
  PAINT_QUADRANT_FLAG_IDENTICAL : Z;
  PAINT_QUADRANT_FLAG_BIGGER : Z;
  PAINT_QUADRANT_FLAG_NEXT : Z;
  PAINT_STRUCT_FLAG_IS_MASKED : Z;
  VIEWPORT_FLAG_UNDERGROUND_INSIDE : Z;
  VIEWPORT_FLAG_SEETHROUGH_RIDES : Z;
  VIEWPORT_FLAG_SEETHROUGH_SCENERY : Z;
  VIEWPORT_FLAG_SEETHROUGH_PATHS : Z;
  IMAGE_TYPE_TRANSPARENT : Z;
  COLOUR_BRIGHT_YELLOW : Z;
  COLOUR_GREY : Z;
  (** the image table behind [gfx_get_g1_element]; [None] is [nullptr] *)
  gfx_get_g1_element : Z → option rct_g1_element;
  (** the narrowing conversions into the fields of [paint_struct_bound_box]
      and into [paint_struct::x] and [paint_struct::y], whose types [Paint.h]
      declares *)
  bound_box_cast : Z → Z;
  screen_cast : Z → Z;
  (** the contents of a local [paint_struct] or [attached_paint_struct] that
      was declared without an initialiser *)
  indeterminate_paint_struct : paint_struct;
  indeterminate_attached_paint_struct : attached_paint_struct;
  MAX_PAINT_QUADRANTS_range : 0 < MAX_PAINT_QUADRANTS ≤ 2 ^ 16;
}.

(** A slot of the pool holds one of the two kinds of entry this development
    allocates (the union [paint_entry]). *)
Inductive paint_entry :=
| EntryBasic (ps : paint_struct)
| EntryAttached (a : attached_paint_struct).

Record rct_drawpixelinfo := {
  dpi_x : Z;
  dpi_y : Z;
  dpi_width : Z;
  dpi_height : Z;
  dpi_zoom_level : Z;
}.

Record paint_session := {
  DPI : rct_drawpixelinfo;
  PaintStructs : list paint_entry;
  Quadrants : list (option paint_struct_ptr);
  LastPS : option paint_struct_ptr;
  LastAttachedPS : option nat;
  PaintHead : paint_struct;
  ViewFlags : Z;
  QuadrantBackIndex : Z;
  QuadrantFrontIndex : Z;
  CurrentlyDrawnItem : Z;
  SpritePosition : CoordsXY;
  InteractionType : ViewportInteractionItem;
  CurrentRotation : Z;
  MapPosition : CoordsXY;
}.

Definition set_PaintStructs (v : list paint_entry) (s : paint_session) : paint_session :=
  {| DPI := DPI s; PaintStructs := v; Quadrants := Quadrants s; LastPS := LastPS s;
     LastAttachedPS := LastAttachedPS s; PaintHead := PaintHead s; ViewFlags := ViewFlags s;
     QuadrantBackIndex := QuadrantBackIndex s; QuadrantFrontIndex := QuadrantFrontIndex s;
     CurrentlyDrawnItem := CurrentlyDrawnItem s; SpritePosition := SpritePosition s;
     InteractionType := InteractionType s; CurrentRotation := CurrentRotation s;
     MapPosition := MapPosition s |}.

Definition set_Quadrants (v : list (option paint_struct_ptr)) (s : paint_session) : paint_session :=
  {| DPI := DPI s; PaintStructs := PaintStructs s; Quadrants := v; LastPS := LastPS s;
     LastAttachedPS := LastAttachedPS s; PaintHead := PaintHead s; ViewFlags := ViewFlags s;
     QuadrantBackIndex := QuadrantBackIndex s; QuadrantFrontIndex := QuadrantFrontIndex s;
     CurrentlyDrawnItem := CurrentlyDrawnItem s; SpritePosition := SpritePosition s;
     InteractionType := InteractionType s; CurrentRotation := CurrentRotation s;
     MapPosition := MapPosition s |}.

Definition set_LastPS (v : option paint_struct_ptr) (s : paint_session) : paint_session :=
  {| DPI := DPI s; PaintStructs := PaintStructs s; Quadrants := Quadrants s; LastPS := v;
     LastAttachedPS := LastAttachedPS s; PaintHead := PaintHead s; ViewFlags := ViewFlags s;
     QuadrantBackIndex := QuadrantBackIndex s; QuadrantFrontIndex := QuadrantFrontIndex s;
     CurrentlyDrawnItem := CurrentlyDrawnItem s; SpritePosition := SpritePosition s;
     InteractionType := InteractionType s; CurrentRotation := CurrentRotation s;
     MapPosition := MapPosition s |}.

Definition set_LastAttachedPS (v : option nat) (s : paint_session) : paint_session :=
  {| DPI := DPI s; PaintStructs := PaintStructs s; Quadrants := Quadrants s; LastPS := LastPS s;
     LastAttachedPS := v; PaintHead := PaintHead s; ViewFlags := ViewFlags s;
     QuadrantBackIndex := QuadrantBackIndex s; QuadrantFrontIndex := QuadrantFrontIndex s;
     CurrentlyDrawnItem := CurrentlyDrawnItem s; SpritePosition := SpritePosition s;
     InteractionType := InteractionType s; CurrentRotation := CurrentRotation s;
     MapPosition := MapPosition s |}.

Definition set_PaintHead (v : paint_struct) (s : paint_session) : paint_session :=
  {| DPI := DPI s; PaintStructs := PaintStructs s; Quadrants := Quadrants s; LastPS := LastPS s;
     LastAttachedPS := LastAttachedPS s; PaintHead := v; ViewFlags := ViewFlags s;
     QuadrantBackIndex := QuadrantBackIndex s; QuadrantFrontIndex := QuadrantFrontIndex s;
     CurrentlyDrawnItem := CurrentlyDrawnItem s; SpritePosition := SpritePosition s;
     InteractionType := InteractionType s; CurrentRotation := CurrentRotation s;
     MapPosition := MapPosition s |}.

Definition set_QuadrantBackIndex (v : Z) (s : paint_session) : paint_session :=
  {| DPI := DPI s; PaintStructs := PaintStructs s; Quadrants := Quadrants s; LastPS := LastPS s;
     LastAttachedPS := LastAttachedPS s; PaintHead := PaintHead s; ViewFlags := ViewFlags s;
     QuadrantBackIndex := v; QuadrantFrontIndex := QuadrantFrontIndex s;
     CurrentlyDrawnItem := CurrentlyDrawnItem s; SpritePosition := SpritePosition s;
     InteractionType := InteractionType s; CurrentRotation := CurrentRotation s;
     MapPosition := MapPosition s |}.

Definition set_QuadrantFrontIndex (v : Z) (s : paint_session) : paint_session :=
  {| DPI := DPI s; PaintStructs := PaintStructs s; Quadrants := Quadrants s; LastPS := LastPS s;
     LastAttachedPS := LastAttachedPS s; PaintHead := PaintHead s; ViewFlags := ViewFlags s;
     QuadrantBackIndex := QuadrantBackIndex s; QuadrantFrontIndex := v;
     CurrentlyDrawnItem := CurrentlyDrawnItem s; SpritePosition := SpritePosition s;
     InteractionType := InteractionType s; CurrentRotation := CurrentRotation s;
     MapPosition := MapPosition s |}.

(** ** The session as a state: a state-and-failure monad *)

Definition M (A : Type) : Type := paint_session → option (A * paint_session).

Global Instance M_ret : MRet M := λ A a s, Some (a, s).
Global Instance M_bind : MBind M :=
  λ A B k m s, match m s with Some (a, s') => k a s' | None => None end.

Definition fail {A} : M A := λ _, None.
Definition get : M paint_session := λ s, Some (s, s).
Definition modify (f : paint_session → paint_session) : M unit := λ s, Some (tt, f s).
Definition liftO {A} (o : option A) : M A :=
  λ s, match o with Some a => Some (a, s) | None => None end.

(** Dereferencing a [paint_struct*]. *)
Definition read_ps (s : paint_session) (p : paint_struct_ptr) : option paint_struct :=
  match p with
  | PaintHeadPtr => Some (PaintHead s)
  | PaintEntryPtr i =>
      match PaintStructs s !! i with
      | Some (EntryBasic ps) => Some ps
      | _ => None
      end
  end.

Definition write_ps (p : paint_struct_ptr) (v : paint_struct) (s : paint_session) : paint_session :=
  match p with
  | PaintHeadPtr => set_PaintHead v s
  | PaintEntryPtr i => set_PaintStructs (<[i := EntryBasic v]> (PaintStructs s)) s
  end.

(** Dereferencing an [attached_paint_struct*]. *)
Definition read_attached (s : paint_session) (i : nat) : option attached_paint_struct :=
  match PaintStructs s !! i with
  | Some (EntryAttached a) => Some a
  | _ => None
  end.

Definition write_attached (i : nat) (a : attached_paint_struct) (s : paint_session) : paint_session :=
  set_PaintStructs (<[i := EntryAttached a]> (PaintStructs s)) s.

(** [load p] is a read through [p]; [store p f] is the assignment
    [p->field = ...] with [f] the field update. *)
Definition load (p : paint_struct_ptr) : M paint_struct :=
  λ s, match read_ps s p with Some v => Some (v, s) | None => None end.

Definition store (p : paint_struct_ptr) (f : paint_struct → paint_struct) : M unit :=
  λ s, match read_ps s p with Some v => Some (tt, write_ps p (f v) s) | None => None end.

Definition load_attached (i : nat) : M attached_paint_struct :=
  λ s, match read_attached s i with Some v => Some (v, s) | None => None end.

Definition store_attached (i : nat) (f : attached_paint_struct → attached_paint_struct) : M unit :=
  λ s, match read_attached s i with
       | Some v => Some (tt, write_attached i (f v) s)
       | None => None
       end.

(** Indexing a C array by an integer; out of range is a failure. *)
Definition array_get {A} (l : list A) (i : Z) : option A :=
  if i <? 0 then None else l !! Z.to_nat i.

(** [(v & flag) != 0] *)
Definition has_flag (v flag : Z) : bool := negb (Z.land v flag =? 0).

(** [std::clamp] *)
Definition clamp (v lo hi : Z) : Z :=
  if v <? lo then lo else if hi <? v then hi else v.

(** ** The depth-order tests ([CheckBoundingBox<_TRotation>]) *)

Definition CheckBoundingBox (rotation : Z) (initialBBox currentBBox : paint_struct_bound_box) : bool :=
  match rotation with
  | 0 =>
      (bb_z_end initialBBox >=? bb_z currentBBox)
      && (bb_y_end initialBBox >=? bb_y currentBBox)
      && (bb_x_end initialBBox >=? bb_x currentBBox)
      && negb ((bb_z initialBBox <? bb_z_end currentBBox)
               && (bb_y initialBBox <? bb_y_end currentBBox)
               && (bb_x initialBBox <? bb_x_end currentBBox))
  | 1 =>
      (bb_z_end initialBBox >=? bb_z currentBBox)
      && (bb_y_end initialBBox >=? bb_y currentBBox)
      && (bb_x_end initialBBox <? bb_x currentBBox)
      && negb ((bb_z initialBBox <? bb_z_end currentBBox)
               && (bb_y initialBBox <? bb_y_end currentBBox)
               && (bb_x initialBBox >=? bb_x_end currentBBox))
  | 2 =>
      (bb_z_end initialBBox >=? bb_z currentBBox)
      && (bb_y_end initialBBox <? bb_y currentBBox)
      && (bb_x_end initialBBox <? bb_x currentBBox)
      && negb ((bb_z initialBBox <? bb_z_end currentBBox)
               && (bb_y initialBBox >=? bb_y_end currentBBox)
               && (bb_x initialBBox >=? bb_x_end currentBBox))
  | 3 =>
      (bb_z_end initialBBox >=? bb_z currentBBox)
      && (bb_y_end initialBBox <? bb_y currentBBox)
      && (bb_x_end initialBBox >=? bb_x currentBBox)
      && negb ((bb_z initialBBox <? bb_z_end currentBBox)
               && (bb_y initialBBox >=? bb_y_end currentBBox)
               && (bb_x initialBBox <? bb_x_end currentBBox))
  | _ => false
  end.

(** ** Projection and culling *)

Definition ImageWithinDPI (imagePos : ScreenCoordsXY) (g1 : rct_g1_element) (dpi : rct_drawpixelinfo) : bool :=
  let left := scr_x imagePos + g1_x_offset g1 in
  let bottom := scr_y imagePos + g1_y_offset g1 in
  let right := left + g1_width g1 in
  let top := bottom + g1_height g1 in
  if right <=? dpi_x dpi then false
  else if top <=? dpi_y dpi then false
  else if left >=? dpi_x dpi + dpi_width dpi then false
  else if bottom >=? dpi_y dpi + dpi_height dpi then false
  else true.

Definition RotateBoundBoxSize (bbSize : CoordsXYZ) (rotation : Z) : CoordsXYZ :=
  let output := bbSize in
  match rotation with
  | 0 =>
      let output := {| xyz_x := xyz_x output - 1; xyz_y := xyz_y output; xyz_z := xyz_z output |} in
      let output := {| xyz_x := xyz_x output; xyz_y := xyz_y output - 1; xyz_z := xyz_z output |} in
      xy_with_z (Rotate (xyz_xy output) 0) (xyz_z output)
  | 1 =>
      let output := {| xyz_x := xyz_x output - 1; xyz_y := xyz_y output; xyz_z := xyz_z output |} in
      xy_with_z (Rotate (xyz_xy output) 3) (xyz_z output)
  | 2 =>
      xy_with_z (Rotate (xyz_xy output) 2) (xyz_z output)
  | 3 =>
      let output := {| xyz_x := xyz_x output; xyz_y := xyz_y output - 1; xyz_z := xyz_z output |} in
      xy_with_z (Rotate (xyz_xy output) 1) (xyz_z output)
  | _ => output
  end.

Section Paint.
Context `{PaintHeaders}.

(** ** The pool *)

(** Modelled from the spec: [paint_session::NoPaintStructsAvailable]
    ([Paint.h] is not among the sources).  "pools are fixed-capacity"; "after
    exactly [capacity] successful additions, the next addition attempt returns
    a failure result": the pool is exhausted when it holds [capacity]
    entries. *)
Definition NoPaintStructsAvailable (s : paint_session) : bool :=
  bool_decide (MaxPaintEntries ≤ length (PaintStructs s))%nat.

(** Modelled from the spec: [paint_session::AllocateRootPaintEntry]
    ([Paint.h] is not among the sources).  The entry takes the next free slot
    of the pool and becomes the "last primitive" cursor; no attachment exists
    for it yet. *)
Definition AllocateRootPaintEntry (entry : paint_struct) : M paint_struct_ptr :=
  λ s, let i := length (PaintStructs s) in
       Some (PaintEntryPtr i,
             set_LastAttachedPS None
               (set_LastPS (Some (PaintEntryPtr i))
                  (set_PaintStructs (PaintStructs s ++ [EntryBasic entry]) s))).

(** Modelled from the spec: [paint_session::AllocateAttachedPaintEntry]
    ([Paint.h] is not among the sources).  The entry takes the next free slot
    of the pool and becomes the "last attached primitive" cursor. *)
Definition AllocateAttachedPaintEntry (entry : attached_paint_struct) : M nat :=
  λ s, let i := length (PaintStructs s) in
       Some (i,
             set_LastAttachedPS (Some i)
               (set_PaintStructs (PaintStructs s ++ [EntryAttached entry]) s)).

(** ** The quadrant bucketer *)

Definition CalculatePositionHash (ps : paint_struct) (rotation : Z) : Z :=
  let pos := Rotate {| xy_x := int16 (bb_x (bounds ps)); xy_y := int16 (bb_y (bounds ps)) |} rotation in
  let pos :=
    match rotation with
    | 1 | 3 => {| xy_x := xy_x pos + 0x2000; xy_y := xy_y pos |}
    | 2 => {| xy_x := xy_x pos + 0x4000; xy_y := xy_y pos |}
    | _ => pos
    end in
  xy_x pos + xy_y pos.

Definition PaintSessionAddPSToQuadrant (ps : paint_struct_ptr) : M unit :=
  s ← get;
  v ← load ps;
  let positionHash := CalculatePositionHash v (CurrentRotation s) in
  let paintQuadrantIndex := uint32 (clamp (positionHash ÷ 32) 0 (MAX_PAINT_QUADRANTS - 1)) in
  _ ← store ps (set_quadrant_index (uint16 paintQuadrantIndex));
  q ← liftO (array_get (Quadrants s) paintQuadrantIndex);
  _ ← store ps (set_next_quadrant_ps q);
  _ ← modify (λ s, set_Quadrants (<[Z.to_nat paintQuadrantIndex := Some ps]> (Quadrants s)) s);
  _ ← modify (λ s, set_QuadrantBackIndex (QuadrantBackIndex s `min` paintQuadrantIndex) s);
  modify (λ s, set_QuadrantFrontIndex (QuadrantFrontIndex s `max` paintQuadrantIndex) s).

(** ** The bounding-box builder *)

(** The screen position [sub_9819_c] computes for the image. *)
Definition sub_9819_c_imagePos (s : paint_session) (offset : CoordsXYZ) : ScreenCoordsXY :=
  let swappedRotation := uint8 ((CurrentRotation s * 3) `mod` 4) in
  let swappedRotCoord := xy_with_z (Rotate (xyz_xy offset) swappedRotation) (xyz_z offset) in
  let swappedRotCoord :=
    {| xyz_x := xyz_x swappedRotCoord + xy_x (SpritePosition s);
       xyz_y := xyz_y swappedRotCoord + xy_y (SpritePosition s);
       xyz_z := xyz_z swappedRotCoord |} in
  translate_3d_to_2d_with_z (CurrentRotation s) swappedRotCoord.

Definition sub_9819_c (s : paint_session) (image_id : Z)
    (offset boundBoxSize boundBoxOffset : CoordsXYZ) : option paint_struct :=
  if NoPaintStructsAvailable s then None
  else
    match gfx_get_g1_element (Z.land image_id 0x7FFFF) with
    | None => None
    | Some g1 =>
        let swappedRotation := uint8 ((CurrentRotation s * 3) `mod` 4) in
        let imagePos := sub_9819_c_imagePos s offset in
        if negb (ImageWithinDPI imagePos g1 (DPI s)) then None
        else
          let rotBoundBoxOffset :=
            xy_with_z (Rotate (xyz_xy boundBoxOffset) swappedRotation) (xyz_z boundBoxOffset) in
          let rotBoundBoxSize := RotateBoundBoxSize boundBoxSize (CurrentRotation s) in
          let ps := indeterminate_paint_struct in
          Some
            {| image_id := image_id;
               colour_image_id := colour_image_id ps;
               ps_x := screen_cast (scr_x imagePos);
               ps_y := screen_cast (scr_y imagePos);
               bounds :=
                 {| bb_x_end := bound_box_cast
                      (xyz_x rotBoundBoxSize + xyz_x rotBoundBoxOffset + xy_x (SpritePosition s));
                    bb_y_end := bound_box_cast
                      (xyz_y rotBoundBoxSize + xyz_y rotBoundBoxOffset + xy_y (SpritePosition s));
                    bb_z_end := bound_box_cast (xyz_z rotBoundBoxSize + xyz_z rotBoundBoxOffset);
                    bb_x := bound_box_cast (xyz_x rotBoundBoxOffset + xy_x (SpritePosition s));
                    bb_y := bound_box_cast (xyz_y rotBoundBoxOffset + xy_y (SpritePosition s));
                    bb_z := bound_box_cast (xyz_z rotBoundBoxOffset) |};
               quadrant_index := quadrant_index ps;
               flags := 0;
               quadrant_flags := quadrant_flags ps;
               attached_ps := None;
               children := None;
               next_quadrant_ps := next_quadrant_ps ps;
               sprite_type := InteractionType s;
               var_29 := 0;
               map_x := xy_x (MapPosition s);
               map_y := xy_y (MapPosition s);
               tileElement := CurrentlyDrawnItem s |}
    end.

(** ** The depth-order arranger *)

(** The loops of [PaintArrangeStructsHelperRotation], in the order of the
    source.  Each takes [fuel] and fails when it runs out. *)

(** [do { ps = ps_next; ps_next = ps_next->next_quadrant_ps;
         if (ps_next == nullptr) return ps;
       } while (quadrantIndex > ps_next->quadrant_index);]
    The result is [(ps, ps_next)]; [ps_next = None] is the early return. *)
Fixpoint arrange_skip (fuel : nat) (quadrantIndex : Z) (ps_next : paint_struct_ptr)
    : M (paint_struct_ptr * option paint_struct_ptr) :=
  match fuel with
  | O => fail
  | S fuel =>
      let ps := ps_next in
      v ← load ps_next;
      match next_quadrant_ps v with
      | None => mret (ps, None)
      | Some ps_next =>
          n ← load ps_next;
          if quadrantIndex >? quadrant_index n
          then arrange_skip fuel quadrantIndex ps_next
          else mret (ps, Some ps_next)
      end
  end.

(** The tagging loop: every entry of the window gets its flags. *)
Fixpoint arrange_tag (fuel : nat) (quadrantIndex flag : Z) (ps : paint_struct_ptr) : M unit :=
  match fuel with
  | O => fail
  | S fuel =>
      v ← load ps;
      match next_quadrant_ps v with
      | None => mret tt
      | Some ps =>
          n ← load ps;
          _ ← (if quadrant_index n >? quadrantIndex + 1
               then store ps (set_quadrant_flags (uint8 PAINT_QUADRANT_FLAG_BIGGER))
               else if quadrant_index n =? quadrantIndex + 1
               then store ps (set_quadrant_flags
                      (uint8 (Z.lor PAINT_QUADRANT_FLAG_NEXT PAINT_QUADRANT_FLAG_IDENTICAL)))
               else if quadrant_index n =? quadrantIndex
               then store ps (set_quadrant_flags
                      (uint8 (Z.lor flag PAINT_QUADRANT_FLAG_IDENTICAL)))
               else mret tt);
          if quadrant_index n <=? quadrantIndex + 1
          then arrange_tag fuel quadrantIndex flag ps
          else mret tt
      end
  end.

(** The first inner loop of the main loop: the next entry that still carries
    [PAINT_QUADRANT_FLAG_IDENTICAL].  [None] is [return ps_cache]; [Some (ps,
    ps_next)] is the [break]. *)
Fixpoint arrange_find (fuel : nat) (ps : paint_struct_ptr)
    : M (option (paint_struct_ptr * paint_struct_ptr)) :=
  match fuel with
  | O => fail
  | S fuel =>
      v ← load ps;
      match next_quadrant_ps v with
      | None => mret None
      | Some ps_next =>
          n ← load ps_next;
          if has_flag (quadrant_flags n) PAINT_QUADRANT_FLAG_BIGGER then mret None
          else if has_flag (quadrant_flags n) PAINT_QUADRANT_FLAG_IDENTICAL
          then mret (Some (ps, ps_next))
          else arrange_find fuel ps_next
      end
  end.

(** How one turn of the second inner loop ends: [break], or the next turn
    with the given [ps_next]. *)
Inductive scan_next :=
| ScanBreak
| ScanContinue (ps_next : paint_struct_ptr).

(** One turn of the second inner loop.  [initial] is the entry whose
    [bounds] the reference [initialBBox] is bound to, [ps_temp] its
    predecessor when the loop was entered. *)
Definition arrange_scan_body (rotation : Z) (ps_temp initial ps_next : paint_struct_ptr)
    : M scan_next :=
  let ps := ps_next in
  v ← load ps_next;
  match next_quadrant_ps v with
  | None => mret ScanBreak
  | Some ps_next =>
      n ← load ps_next;
      if has_flag (quadrant_flags n) PAINT_QUADRANT_FLAG_BIGGER then mret ScanBreak
      else if negb (has_flag (quadrant_flags n) PAINT_QUADRANT_FLAG_NEXT)
      then mret (ScanContinue ps_next)
      else
        i ← load initial;
        let initialBBox := bounds i in
        let currentBBox := bounds n in
        let compareResult := CheckBoundingBox rotation initialBBox currentBBox in
        if compareResult then
          _ ← store ps (set_next_quadrant_ps (next_quadrant_ps n));
          t ← load ps_temp;
          let ps_temp2 := next_quadrant_ps t in
          _ ← store ps_temp (set_next_quadrant_ps (Some ps_next));
          _ ← store ps_next (set_next_quadrant_ps ps_temp2);
          mret (ScanContinue ps)
        else mret (ScanContinue ps_next)
  end.

Fixpoint arrange_scan (fuel : nat) (rotation : Z) (ps_temp initial ps_next : paint_struct_ptr)
    : M unit :=
  match fuel with
  | O => fail
  | S fuel =>
      r ← arrange_scan_body rotation ps_temp initial ps_next;
      match r with
      | ScanBreak => mret tt
      | ScanContinue ps_next => arrange_scan fuel rotation ps_temp initial ps_next
      end
  end.

(** The main loop. *)
Fixpoint arrange_main (fuel : nat) (rotation : Z) (ps_cache ps : paint_struct_ptr)
    : M paint_struct_ptr :=
  match fuel with
  | O => fail
  | S fuel =>
      r ← arrange_find fuel ps;
      match r with
      | None => mret ps_cache
      | Some (ps, ps_next) =>
          _ ← store ps_next
                (λ v, set_quadrant_flags
                        (uint8 (Z.land (quadrant_flags v) (Z.lnot PAINT_QUADRANT_FLAG_IDENTICAL))) v);
          let ps_temp := ps in
          _ ← arrange_scan fuel rotation ps_temp ps_next ps_next;
          arrange_main fuel rotation ps_cache ps_temp
      end
  end.

Definition PaintArrangeStructsHelperRotation (fuel : nat) (rotation : Z)
    (ps_next : paint_struct_ptr) (quadrantIndex flag : Z) : M paint_struct_ptr :=
  r ← arrange_skip fuel quadrantIndex ps_next;
  match r with
  | (ps, None) => mret ps
  | (ps, Some _) =>
      let ps_cache := ps in
      _ ← arrange_tag fuel quadrantIndex flag ps;
      arrange_main fuel rotation ps_cache ps
  end.

(** [nullptr] for a rotation outside 0..3. *)
Definition PaintArrangeStructsHelper (fuel : nat) (ps_next : paint_struct_ptr)
    (quadrantIndex flag rotation : Z) : M (option paint_struct_ptr) :=
  match rotation with
  | 0 | 1 | 2 | 3 =>
      r ← PaintArrangeStructsHelperRotation fuel rotation ps_next quadrantIndex flag;
      mret (Some r)
  | _ => mret None
  end.

(** [do { ps = ps_next; ps_next = ps_next->next_quadrant_ps; } while (ps_next != nullptr);]
    The result is the last [ps]. *)
Fixpoint arrange_walk (fuel : nat) (ps_next : paint_struct_ptr) : M paint_struct_ptr :=
  match fuel with
  | O => fail
  | S fuel =>
      let ps := ps_next in
      v ← load ps_next;
      match next_quadrant_ps v with
      | Some ps_next => arrange_walk fuel ps_next
      | None => mret ps
      end
  end.

(** The merge of the buckets [quadrantIndex .. QuadrantFrontIndex] onto the
    chain that ends at [ps]. *)
Fixpoint arrange_merge (fuel : nat) (quadrantIndex : Z) (ps : paint_struct_ptr) : M unit :=
  match fuel with
  | O => fail
  | S fuel =>
      s ← get;
      ps_next ← liftO (array_get (Quadrants s) quadrantIndex);
      ps ← match ps_next with
           | Some ps_next =>
               _ ← store ps (set_next_quadrant_ps (Some ps_next));
               arrange_walk fuel ps_next
           | None => mret ps
           end;
      let quadrantIndex := uint32 (quadrantIndex + 1) in
      if quadrantIndex <=? QuadrantFrontIndex s
      then arrange_merge fuel quadrantIndex ps
      else mret tt
  end.

(** [while (++quadrantIndex < session->QuadrantFrontIndex) ps_cache = ...] *)
Fixpoint arrange_windows (fuel : nat) (quadrantIndex : Z) (ps_cache : option paint_struct_ptr)
    : M unit :=
  match fuel with
  | O => fail
  | S fuel =>
      s ← get;
      let quadrantIndex := uint32 (quadrantIndex + 1) in
      if quadrantIndex <? QuadrantFrontIndex s then
        p ← liftO ps_cache;
        ps_cache ← PaintArrangeStructsHelper fuel p (Z.land quadrantIndex 0xFFFF) 0
                     (CurrentRotation s);
        arrange_windows fuel quadrantIndex ps_cache
      else mret tt
  end.

Definition PaintSessionArrange (fuel : nat) : M unit :=
  let psHead := PaintHeadPtr in
  let ps := psHead in
  _ ← store ps (set_next_quadrant_ps None);
  s ← get;
  let quadrantIndex := QuadrantBackIndex s in
  if negb (quadrantIndex =? UINT32_MAX) then
    _ ← arrange_merge fuel quadrantIndex ps;
    ps_cache ← PaintArrangeStructsHelper fuel psHead (Z.land (QuadrantBackIndex s) 0xFFFF)
                 PAINT_QUADRANT_FLAG_NEXT (CurrentRotation s);
    arrange_windows fuel (QuadrantBackIndex s) ps_cache
  else mret tt.

(** ** The draw dispatcher *)

(** The calls into the rasteriser, in the order they are made. *)
Inductive draw_call :=
| gfx_draw_sprite (imageId : Z) (coords : ScreenCoordsXY) (tertiary_colour : Z)
| gfx_draw_sprite_raw_masked (coords : ScreenCoordsXY) (imageId : Z) (colour_image_id : Z)
| gfx_draw_line (a b : ScreenCoordsXY) (colour : Z).

Definition PaintPSColourifyImage (imageId : Z) (spriteType : ViewportInteractionItem)
    (viewFlags : Z) : Z :=
  let primaryColour := COLOUR_BRIGHT_YELLOW in
  let secondaryColour := COLOUR_GREY in
  let seeThoughFlags :=
    uint32 (Z.lor (Z.lor IMAGE_TYPE_TRANSPARENT (Z.shiftl primaryColour 19))
                  (Z.shiftl secondaryColour 24)) in
  let seeThrough (imageId : Z) := Z.lor (Z.land imageId 0x7FFFF) seeThoughFlags in
  let imageId :=
    if has_flag viewFlags VIEWPORT_FLAG_SEETHROUGH_RIDES then
      match spriteType with
      | VIEWPORT_INTERACTION_ITEM_RIDE => seeThrough imageId
      | _ => imageId
      end
    else imageId in
  let imageId :=
    if has_flag viewFlags VIEWPORT_FLAG_UNDERGROUND_INSIDE then
      match spriteType with
      | VIEWPORT_INTERACTION_ITEM_WALL => seeThrough imageId
      | _ => imageId
      end
    else imageId in
  let imageId :=
    if has_flag viewFlags VIEWPORT_FLAG_SEETHROUGH_PATHS then
      match spriteType with
      | VIEWPORT_INTERACTION_ITEM_FOOTPATH
      | VIEWPORT_INTERACTION_ITEM_FOOTPATH_ITEM
      | VIEWPORT_INTERACTION_ITEM_BANNER => seeThrough imageId
      | _ => imageId
      end
    else imageId in
  let imageId :=
    if has_flag viewFlags VIEWPORT_FLAG_SEETHROUGH_SCENERY then
      match spriteType with
      | VIEWPORT_INTERACTION_ITEM_SCENERY
      | VIEWPORT_INTERACTION_ITEM_LARGE_SCENERY
      | VIEWPORT_INTERACTION_ITEM_WALL => seeThrough imageId
      | _ => imageId
      end
    else imageId in
  imageId.

Definition PaintPSImage (ps : paint_struct) (imageId x y : Z) : list draw_call :=
  if has_flag (flags ps) PAINT_STRUCT_FLAG_IS_MASKED
  then [gfx_draw_sprite_raw_masked {| scr_x := x; scr_y := y |} imageId (colour_image_id ps)]
  else [gfx_draw_sprite imageId {| scr_x := x; scr_y := y |} (colour_image_id ps)].

(** [get_current_rotation()] is the argument [rotation]. *)
Definition PaintPSImageWithBoundingBoxes (rotation : Z) (ps : paint_struct) (imageId x y : Z)
    : list draw_call :=
  let colour := BoundBoxDebugColours (sprite_type ps) in
  let corner (cx cy cz : Z) :=
    translate_3d_to_2d_with_z rotation {| xyz_x := cx; xyz_y := cy; xyz_z := cz |} in
  let b := bounds ps in
  let screenCoordFrontTop := corner (bb_x_end b) (bb_y_end b) (bb_z_end b) in
  let screenCoordFrontBottom := corner (bb_x_end b) (bb_y_end b) (bb_z b) in
  let screenCoordLeftTop := corner (bb_x b) (bb_y_end b) (bb_z_end b) in
  let screenCoordLeftBottom := corner (bb_x b) (bb_y_end b) (bb_z b) in
  let screenCoordRightTop := corner (bb_x_end b) (bb_y b) (bb_z_end b) in
  let screenCoordRightBottom := corner (bb_x_end b) (bb_y b) (bb_z b) in
  let screenCoordBackTop := corner (bb_x b) (bb_y b) (bb_z_end b) in
  let screenCoordBackBottom := corner (bb_x b) (bb_y b) (bb_z b) in
  [ gfx_draw_line screenCoordFrontBottom screenCoordLeftBottom colour;
    gfx_draw_line screenCoordBackBottom screenCoordLeftBottom colour;
    gfx_draw_line screenCoordBackBottom screenCoordRightBottom colour;
    gfx_draw_line screenCoordFrontBottom screenCoordRightBottom colour;
    gfx_draw_line screenCoordBackTop screenCoordBackBottom colour;
    gfx_draw_line screenCoordLeftTop screenCoordLeftBottom colour;
    gfx_draw_line screenCoordRightTop screenCoordRightBottom colour;
    gfx_draw_line screenCoordBackTop screenCoordLeftTop colour;
    gfx_draw_line screenCoordBackTop screenCoordRightTop colour ]
  ++ PaintPSImage ps imageId x y
  ++ [ gfx_draw_line screenCoordFrontTop screenCoordFrontBottom colour;
       gfx_draw_line screenCoordFrontTop screenCoordLeftTop colour;
       gfx_draw_line screenCoordFrontTop screenCoordRightTop colour ].

(** The walk of [PaintAttachedPS] from the attachment [attached_ps] on. *)
Fixpoint PaintAttachedPS_from (fuel : nat) (s : paint_session) (ps : paint_struct)
    (viewFlags : Z) (attached_ps : option nat) : option (list draw_call) :=
  match attached_ps with
  | None => Some []
  | Some a =>
      match fuel with
      | O => None
      | S fuel =>
          att ← read_attached s a;
          let screenCoords :=
            {| scr_x := att_x att + ps_x ps; scr_y := att_y att + ps_y ps |} in
          let imageId := PaintPSColourifyImage (att_image_id att) (sprite_type ps) viewFlags in
          let call :=
            if has_flag (att_flags att) PAINT_STRUCT_FLAG_IS_MASKED
            then gfx_draw_sprite_raw_masked screenCoords imageId (att_colour_image_id att)
            else gfx_draw_sprite imageId screenCoords (colour_image_id ps) in
          rest ← PaintAttachedPS_from fuel s ps viewFlags (att_next att);
          Some (call :: rest)
      end
  end.

Definition PaintAttachedPS (fuel : nat) (s : paint_session) (ps : paint_struct)
    (viewFlags : Z) : option (list draw_call) :=
  PaintAttachedPS_from fuel s ps viewFlags (attached_ps ps).

(** The screen position [PaintDrawStruct] draws [ps] at. *)
Definition PaintDrawStruct_position (dpi : rct_drawpixelinfo) (ps : paint_struct) : Z * Z :=
  let x := int16 (ps_x ps) in
  let y := int16 (ps_y ps) in
  if decide (sprite_type ps = VIEWPORT_INTERACTION_ITEM_SPRITE) then
    if dpi_zoom_level dpi >=? 1 then
      let x := int16 (floor2 x 2) in
      let y := int16 (floor2 y 2) in
      if dpi_zoom_level dpi >=? 2 then
        let x := int16 (floor2 x 4) in
        let y := int16 (floor2 y 4) in
        (x, y)
      else (x, y)
    else (x, y)
  else (x, y).

(** [gPaintBoundingBoxes] and [get_current_rotation()] are the arguments
    [gPaintBoundingBoxes] and [rotation]. *)
Fixpoint PaintDrawStruct (fuel : nat) (gPaintBoundingBoxes : bool) (rotation : Z)
    (s : paint_session) (p : paint_struct_ptr) : option (list draw_call) :=
  match fuel with
  | O => None
  | S fuel =>
      ps ← read_ps s p;
      let dpi := DPI s in
      let '(x, y) := PaintDrawStruct_position dpi ps in
      let imageId := PaintPSColourifyImage (image_id ps) (sprite_type ps) (ViewFlags s) in
      let own :=
        if gPaintBoundingBoxes && (dpi_zoom_level dpi =? 0)
        then PaintPSImageWithBoundingBoxes rotation ps imageId x y
        else PaintPSImage ps imageId x y in
      rest ← match children ps with
             | Some c => PaintDrawStruct fuel gPaintBoundingBoxes rotation s c
             | None => PaintAttachedPS fuel s ps (ViewFlags s)
             end;
      Some (own ++ rest)
  end.

(** The walk of [PaintDrawStructs] from [ps] on. *)
Fixpoint PaintDrawStructs_from (fuel : nat) (gPaintBoundingBoxes : bool) (rotation : Z)
    (s : paint_session) (ps : option paint_struct_ptr) : option (list draw_call) :=
  match ps with
  | None => Some []
  | Some p =>
      match fuel with
      | O => None
      | S fuel =>
          calls ← PaintDrawStruct fuel gPaintBoundingBoxes rotation s p;
          v ← read_ps s p;
          rest ← PaintDrawStructs_from fuel gPaintBoundingBoxes rotation s (next_quadrant_ps v);
          Some (calls ++ rest)
      end
  end.

Definition PaintDrawStructs (fuel : nat) (gPaintBoundingBoxes : bool) (rotation : Z)
    (s : paint_session) : option (list draw_call) :=
  PaintDrawStructs_from fuel gPaintBoundingBoxes rotation s (next_quadrant_ps (PaintHead s)).

(** ** Creating primitives *)

Definition PaintAddImageAsParent (image_id x_offset y_offset bound_box_length_x
    bound_box_length_y bound_box_length_z z_offset bound_box_offset_x bound_box_offset_y
    bound_box_offset_z : Z) : M (option paint_struct_ptr) :=
  _ ← modify (set_LastPS None);
  _ ← modify (set_LastAttachedPS None);
  let offset :=
    {| xyz_x := int8 x_offset; xyz_y := int8 y_offset; xyz_z := int16 z_offset |} in
  let boundBoxSize :=
    {| xyz_x := int16 bound_box_length_x; xyz_y := int16 bound_box_length_y;
       xyz_z := int8 bound_box_length_z |} in
  let boundBoxOffset :=
    {| xyz_x := int16 bound_box_offset_x; xyz_y := int16 bound_box_offset_y;
       xyz_z := int16 bound_box_offset_z |} in
  s ← get;
  match sub_9819_c s image_id offset boundBoxSize boundBoxOffset with
  | None => mret None
  | Some newPS =>
      ps ← AllocateRootPaintEntry newPS;
      _ ← PaintSessionAddPSToQuadrant ps;
      mret (Some ps)
  end.

Definition PaintAddImageAsOrphan (image_id x_offset y_offset bound_box_length_x
    bound_box_length_y bound_box_length_z z_offset bound_box_offset_x bound_box_offset_y
    bound_box_offset_z : Z) : M (option paint_struct_ptr) :=
  _ ← modify (set_LastPS None);
  _ ← modify (set_LastAttachedPS None);
  let offset :=
    {| xyz_x := int8 x_offset; xyz_y := int8 y_offset; xyz_z := int16 z_offset |} in
  let boundBoxSize :=
    {| xyz_x := int16 bound_box_length_x; xyz_y := int16 bound_box_length_y;
       xyz_z := int8 bound_box_length_z |} in
  let boundBoxOffset :=
    {| xyz_x := int16 bound_box_offset_x; xyz_y := int16 bound_box_offset_y;
       xyz_z := int16 bound_box_offset_z |} in
  s ← get;
  match sub_9819_c s image_id offset boundBoxSize boundBoxOffset with
  | None => mret None
  | Some ps => p ← AllocateRootPaintEntry ps; mret (Some p)
  end.

Definition PaintAddImageAsChild (image_id : Z) (offset boundBoxLength boundBoxOffset : CoordsXYZ)
    : M (option paint_struct_ptr) :=
  s ← get;
  match LastPS s with
  | None =>
      PaintAddImageAsParent image_id (xyz_x offset) (xyz_y offset) (xyz_x boundBoxLength)
        (xyz_y boundBoxLength) (xyz_z boundBoxLength) (xyz_z offset) (xyz_x boundBoxOffset)
        (xyz_y boundBoxOffset) (xyz_z boundBoxOffset)
  | Some parentPS =>
      match sub_9819_c s image_id offset boundBoxLength boundBoxOffset with
      | None => mret None
      | Some newPS =>
          ps ← AllocateRootPaintEntry newPS;
          _ ← store parentPS (set_children (Some ps));
          mret (Some ps)
      end
  end.

Definition PaintAttachToPreviousPS (image_id x y : Z) : M bool :=
  s ← get;
  if NoPaintStructsAvailable s then mret false
  else
    let ps := indeterminate_attached_paint_struct in
    let ps :=
      {| att_image_id := image_id; att_colour_image_id := att_colour_image_id ps;
         att_x := int16 x; att_y := int16 y; att_flags := 0; att_next := att_next ps |} in
    match LastPS s with
    | None => mret false
    | Some masterPs =>
        psPtr ← AllocateAttachedPaintEntry ps;
        m ← load masterPs;
        let oldFirstAttached := attached_ps m in
        _ ← store masterPs (set_attached_ps (Some psPtr));
        _ ← store_attached psPtr (set_att_next oldFirstAttached);
        mret true
    end.

Definition PaintAttachToPreviousAttach (image_id x y : Z) : M bool :=
  s ← get;
  match LastAttachedPS s with
  | None => PaintAttachToPreviousPS image_id x y
  | Some previousAttachedPS =>
      if NoPaintStructsAvailable s then mret false
      else
        let ps := indeterminate_attached_paint_struct in
        let ps :=
          {| att_image_id := image_id; att_colour_image_id := att_colour_image_id ps;
             att_x := int16 x; att_y := int16 y; att_flags := 0; att_next := None |} in
        new ← AllocateAttachedPaintEntry ps;
        _ ← store_attached previousAttachedPS (set_att_next (Some new));
        mret true
  end.

End Paint.

(** ** The wording of the specification, for comparison with the code *)

(** One axis of a dominance test, in the direction of rotation 0 or with the
    comparison reversed: the far corner of [a] against the near corner of
    [b], and the near corner of [a] against the far corner of [b]. *)
Definition axis_far_near (flip : bool) (a_end b_start : Z) : bool :=
  if flip then a_end <? b_start else a_end >=? b_start.
Definition axis_near_far (flip : bool) (a_start b_end : Z) : bool :=
  if flip then a_start >=? b_end else a_start <? b_end.

(** The test of rotation 0 with the comparisons of the chosen axes
    reversed. *)
Definition CheckBoundingBox_flipped (flip_x flip_y flip_z : bool)
    (a b : paint_struct_bound_box) : bool :=
  axis_far_near flip_z (bb_z_end a) (bb_z b)
  && axis_far_near flip_y (bb_y_end a) (bb_y b)
  && axis_far_near flip_x (bb_x_end a) (bb_x b)
  && negb (axis_near_far flip_z (bb_z a) (bb_z_end b)
           && axis_near_far flip_y (bb_y a) (bb_y_end b)
           && axis_near_far flip_x (bb_x a) (bb_x_end b)).

Definition count_axes (on_x on_y on_z : bool) : nat :=
  (Nat.b2n on_x + Nat.b2n on_y + Nat.b2n on_z)%nat.

(** The axes whose comparisons [CheckBoundingBox<rotation>] reverses. *)
Definition rotation_flips_x (rotation : Z) : bool := (rotation =? 1) || (rotation =? 2).
Definition rotation_flips_y (rotation : Z) : bool := (rotation =? 2) || (rotation =? 3).

(** "Subtract 1 on the chosen axes, then rotate by [k] quarter turns". *)
Definition decrement_then_rotate (dec_x dec_y dec_z : bool) (k : Z) (bb : CoordsXYZ) : CoordsXYZ :=
  let p := Rotate {| xy_x := xyz_x bb - Z.b2z dec_x; xy_y := xyz_y bb - Z.b2z dec_y |} k in
  {| xyz_x := xy_x p; xyz_y := xy_y p; xyz_z := xyz_z bb - Z.b2z dec_z |}.

(** The axes [RotateBoundBoxSize] decrements. *)
Definition rotation_decrements_x (rotation : Z) : bool := (rotation =? 0) || (rotation =? 1).
Definition rotation_decrements_y (rotation : Z) : bool := (rotation =? 0) || (rotation =? 3).

(** The four half-plane conditions of the culling test, on the footprint of
    an image drawn at [imagePos]. *)
Definition footprint_outside (imagePos : ScreenCoordsXY) (g1 : rct_g1_element)
    (dpi : rct_drawpixelinfo) : Prop :=
  let left := scr_x imagePos + g1_x_offset g1 in
  let bottom := scr_y imagePos + g1_y_offset g1 in
  let right := left + g1_width g1 in
  let top := bottom + g1_height g1 in
  right ≤ dpi_x dpi ∨ top ≤ dpi_y dpi
  ∨ left >= dpi_x dpi + dpi_width dpi ∨ bottom >= dpi_y dpi + dpi_height dpi.

(** Flooring to a grid of 2 pixels from zoom level 1 and of 4 pixels from
    zoom level 2. *)
Definition zoom_snap (zoom_level v : Z) : Z :=
  if zoom_level >=? 2 then 4 * (v `div` 4)
  else if zoom_level >=? 1 then 2 * (v `div` 2)
  else v.

(** The statement of C3 as the specification words it: each of the rotations
    1..3 is the test of rotation 0 with the comparisons of exactly two axes
    reversed. *)
Definition two_axes_flipped_claim : Prop :=
  ∀ rotation, 1 ≤ rotation ≤ 3 →
    ∃ flip_x flip_y flip_z, count_axes flip_x flip_y flip_z = 2%nat ∧
      ∀ a b, CheckBoundingBox rotation a b = CheckBoundingBox_flipped flip_x flip_y flip_z a b.

(** The statement of C4 as the specification words it: at every rotation 1 is
    subtracted on two of the three axes before the rotation. *)
Definition two_axes_decremented_claim : Prop :=
  ∀ rotation, 0 ≤ rotation ≤ 3 →
    ∃ dec_x dec_y dec_z k, count_axes dec_x dec_y dec_z = 2%nat ∧
      ∀ bb, RotateBoundBoxSize bb rotation = decrement_then_rotate dec_x dec_y dec_z k bb.

(** ** Chains of primitives in the session *)

(** The [next_quadrant_ps] of the entry [p] points to; [None] when [p] does
    not point to a [paint_struct]. *)
Definition next_of (s : paint_session) (p : paint_struct_ptr) : option (option paint_struct_ptr) :=
  next_quadrant_ps <$> read_ps s p.

(** [lseg s p l q]: following [next_quadrant_ps] from the pointer [p] visits
    the entries [l], in this order, and arrives at [q]. *)
Fixpoint lseg (s : paint_session) (p : option paint_struct_ptr) (l : list paint_struct_ptr)
    (q : option paint_struct_ptr) : Prop :=
  match l with
  | [] => p = q
  | a :: l => p = Some a ∧ ∃ n, next_of s a = Some n ∧ lseg s n l q
  end.

(** The session with a field of every [paint_struct] overwritten by [f]: two
    sessions with the same erasure differ in that field at most. *)
Definition erase_entry (f : paint_struct → paint_struct) (e : paint_entry) : paint_entry :=
  match e with
  | EntryBasic ps => EntryBasic (f ps)
  | EntryAttached a => EntryAttached a
  end.

Definition erase_session (f : paint_struct → paint_struct) (s : paint_session) : paint_session :=
  set_PaintHead (f (PaintHead s)) (set_PaintStructs (erase_entry f <$> PaintStructs s) s).

Definition erase_links (ps : paint_struct) : paint_struct :=
  set_next_quadrant_ps None (set_quadrant_flags 0 ps).

(** [s'] is [s] but for the [next_quadrant_ps] of its entries; but for their
    [quadrant_flags]; but for both. *)
Definition nexts_only (s s' : paint_session) : Prop :=
  erase_session (set_next_quadrant_ps None) s' = erase_session (set_next_quadrant_ps None) s.
Definition flags_only (s s' : paint_session) : Prop :=
  erase_session (set_quadrant_flags 0) s' = erase_session (set_quadrant_flags 0) s.
Definition links_only (s s' : paint_session) : Prop :=
  erase_session erase_links s' = erase_session erase_links s.

(** The buckets [quadrantIndex], [quadrantIndex + 1], ... of the table hold
    the lists [bs]. *)
Fixpoint buckets_at (s : paint_session) (quadrantIndex : Z)
    (bs : list (list paint_struct_ptr)) : Prop :=
  match bs with
  | [] => True
  | b :: bs =>
      (∃ h, array_get (Quadrants s) quadrantIndex = Some h ∧ lseg s h b None)
      ∧ buckets_at s (quadrantIndex + 1) bs
  end.

(** The bounding box [S] reaches as far as the near corner of [T] on all three
    axes, and [T] does not reach beyond the near corner of [S] on all
    three. *)
Definition dominates (S T : paint_struct_bound_box) : Prop :=
  (bb_z_end S >= bb_z T ∧ bb_y_end S >= bb_y T ∧ bb_x_end S >= bb_x T)
  ∧ ¬ (bb_z S < bb_z_end T ∧ bb_y S < bb_y_end T ∧ bb_x S < bb_x_end T).

(** The calls the emitters make into the paint core during the generation
    phase. *)
Definition set_paint_context (spritePosition : CoordsXY) (interactionType : ViewportInteractionItem)
    (mapPosition : CoordsXY) (currentlyDrawnItem : Z) (s : paint_session) : paint_session :=
  {| DPI := DPI s; PaintStructs := PaintStructs s; Quadrants := Quadrants s; LastPS := LastPS s;
     LastAttachedPS := LastAttachedPS s; PaintHead := PaintHead s; ViewFlags := ViewFlags s;
     QuadrantBackIndex := QuadrantBackIndex s; QuadrantFrontIndex := QuadrantFrontIndex s;
     CurrentlyDrawnItem := currentlyDrawnItem; SpritePosition := spritePosition;
     InteractionType := interactionType; CurrentRotation := CurrentRotation s;
     MapPosition := mapPosition |}.

(** [paint_call_context] is the emitters' own writing of the anchor position
    and of the back-reference data of the primitives to come; the other calls
    are the creation functions of [Paint.cpp]. *)
Inductive paint_call :=
| paint_call_context (spritePosition : CoordsXY) (interactionType : ViewportInteractionItem)
    (mapPosition : CoordsXY) (currentlyDrawnItem : Z)
| paint_call_parent (image_id x_offset y_offset bound_box_length_x bound_box_length_y
    bound_box_length_z z_offset bound_box_offset_x bound_box_offset_y bound_box_offset_z : Z)
| paint_call_orphan (image_id x_offset y_offset bound_box_length_x bound_box_length_y
    bound_box_length_z z_offset bound_box_offset_x bound_box_offset_y bound_box_offset_z : Z)
| paint_call_child (image_id : Z) (offset boundBoxLength boundBoxOffset : CoordsXYZ)
| paint_call_attach_ps (image_id x y : Z)
| paint_call_attach_attach (image_id x y : Z).

Section Generation.
Context `{PaintHeaders}.

(** The entries that still carry [PAINT_QUADRANT_FLAG_IDENTICAL]: the measure
    of the main loop of the arranger. *)
Definition is_identical (s : paint_session) (p : paint_struct_ptr) : bool :=
  match read_ps s p with
  | Some v => has_flag (quadrant_flags v) PAINT_QUADRANT_FLAG_IDENTICAL
  | None => false
  end.

Definition count_identical (s : paint_session) (l : list paint_struct_ptr) : nat :=
  length (List.filter (is_identical s) l).

(** What [PaintSessionArrange] expects of a session.  [bs] lists the
    primitives of the buckets [QuadrantBackIndex .. QuadrantFrontIndex]: each
    bucket is a chain that ends in [nullptr], no primitive is in two places,
    and the camera rotation is one of 0..3.  Nothing is asked of the bounding
    boxes, of the [quadrant_index] or of the [quadrant_flags] of the
    primitives. *)
Definition arrange_ready (s : paint_session) (bs : list (list paint_struct_ptr)) : Prop :=
  0 ≤ CurrentRotation s ≤ 3
  ∧ NoDup (PaintHeadPtr :: concat bs)
  ∧ ((QuadrantBackIndex s = UINT32_MAX ∧ concat bs = [])
     ∨ (0 ≤ QuadrantBackIndex s
        ∧ QuadrantBackIndex s + Z.of_nat (length bs) = QuadrantFrontIndex s + 1
        ∧ QuadrantFrontIndex s < MAX_PAINT_QUADRANTS
        ∧ bs ≠ []
        ∧ buckets_at s (QuadrantBackIndex s) bs)).

Definition run_paint_call (c : paint_call) : M unit :=
  match c with
  | paint_call_context sp it mp cdi => modify (set_paint_context sp it mp cdi)
  | paint_call_parent i xo yo lx ly lz zo ox oy oz =>
      _ ← PaintAddImageAsParent i xo yo lx ly lz zo ox oy oz; mret tt
  | paint_call_orphan i xo yo lx ly lz zo ox oy oz =>
      _ ← PaintAddImageAsOrphan i xo yo lx ly lz zo ox oy oz; mret tt
  | paint_call_child i o l bo => _ ← PaintAddImageAsChild i o l bo; mret tt
  | paint_call_attach_ps i x y => _ ← PaintAttachToPreviousPS i x y; mret tt
  | paint_call_attach_attach i x y => _ ← PaintAttachToPreviousAttach i x y; mret tt
  end.

(** The generation phase: a sequence of such calls. *)
Fixpoint generate (calls : list paint_call) : M unit :=
  match calls with
  | [] => mret tt
  | c :: calls => _ ← run_paint_call c; generate calls
  end.

(** Modelled from the spec: the session as it is acquired ([Painter.cpp] is
    not among the sources).  "The session's pools and bucket table are reset
    to empty at the start of each frame's generation phase"; the occupied
    range is at its sentinel, the back index at the [UINT32_MAX] that
    [PaintSessionArrange] tests for; the camera rotation is one of 0..3. *)
Definition session_fresh (s : paint_session) : Prop :=
  PaintStructs s = []
  ∧ Quadrants s = replicate (Z.to_nat MAX_PAINT_QUADRANTS) None
  ∧ LastPS s = None
  ∧ LastAttachedPS s = None
  ∧ QuadrantBackIndex s = UINT32_MAX
  ∧ QuadrantFrontIndex s = 0
  ∧ 0 ≤ CurrentRotation s ≤ 3.

(** The invariant of the generation phase.  [bs] lists, bucket by bucket, the
    primitives threaded into the bucket table. *)
Record session_inv (s : paint_session) (bs : list (list paint_struct_ptr)) : Prop := {
  inv_buckets_length : length bs = Z.to_nat MAX_PAINT_QUADRANTS;
  inv_buckets : ∀ (q : nat) b, bs !! q = Some b →
    ∃ h, Quadrants s !! q = Some h ∧ lseg s h b None;
  inv_nodup : NoDup (concat bs);
  inv_entries : ∀ (q : nat) b p, bs !! q = Some b → p ∈ b →
    p ≠ PaintHeadPtr
    ∧ ∃ v, read_ps s p = Some v
      ∧ quadrant_index v = Z.of_nat q
      ∧ QuadrantBackIndex s ≤ Z.of_nat q ≤ QuadrantFrontIndex s;
  inv_range : 0 ≤ QuadrantFrontIndex s < MAX_PAINT_QUADRANTS
    ∧ (QuadrantBackIndex s = UINT32_MAX ∨ 0 ≤ QuadrantBackIndex s ≤ QuadrantFrontIndex s);
  inv_rotation : 0 ≤ CurrentRotation s ≤ 3;
  inv_last_ps : ∀ p, LastPS s = Some p → is_Some (read_ps s p);
  inv_last_attached : ∀ i, LastAttachedPS s = Some i → is_Some (read_attached s i);
}.

(** What the creation of primitives leaves of a session: the entries that
    were there keep their place in the buckets. *)
Record session_extends (s s' : paint_session) : Prop := {
  ext_read : ∀ p v, read_ps s p = Some v →
    ∃ v', read_ps s' p = Some v'
      ∧ next_quadrant_ps v' = next_quadrant_ps v
      ∧ quadrant_index v' = quadrant_index v;
  ext_attached : ∀ i, is_Some (read_attached s i) → is_Some (read_attached s' i);
  ext_Quadrants : Quadrants s' = Quadrants s;
  ext_Back : QuadrantBackIndex s' = QuadrantBackIndex s;
  ext_Front : QuadrantFrontIndex s' = QuadrantFrontIndex s;
  ext_Rotation : CurrentRotation s' = CurrentRotation s;
}.

Definition cursors_valid (s : paint_session) : Prop :=
  (∀ p, LastPS s = Some p → is_Some (read_ps s p))
  ∧ (∀ i, LastAttachedPS s = Some i → is_Some (read_attached s i)).

End Generation.

(** ** Example sessions *)

Definition example_paint_struct : paint_struct :=
  {| image_id := 0; colour_image_id := 0;
     bounds := {| bb_x := 0; bb_y := 0; bb_z := 0; bb_x_end := 0; bb_y_end := 0; bb_z_end := 0 |};
     ps_x := 0; ps_y := 0; quadrant_index := 0; flags := 0; quadrant_flags := 0;
     attached_ps := None; children := None; next_quadrant_ps := None;
     sprite_type := VIEWPORT_INTERACTION_ITEM_NONE; var_29 := 0; map_x := 0; map_y := 0;
     tileElement := 0 |}.

Definition example_attached_paint_struct : attached_paint_struct :=
  {| att_image_id := 0; att_colour_image_id := 0; att_x := 0; att_y := 0; att_flags := 0;
     att_next := None |}.

Definition example_quadrants_range : 0 < 16 ≤ 2 ^ 16 :=
  ltac:(lia).

(** A small configuration: the flag values of the game, a bucket table of 16
    buckets, a pool of three entries, and an image table in which every image
    is 64 by 64 pixels with its origin at its centre. *)
Definition example_headers : PaintHeaders :=
  {| MAX_PAINT_QUADRANTS := 16;
     MaxPaintEntries := 3;
     PAINT_QUADRANT_FLAG_IDENTICAL := 1;
     PAINT_QUADRANT_FLAG_BIGGER := 128;
     PAINT_QUADRANT_FLAG_NEXT := 2;
     PAINT_STRUCT_FLAG_IS_MASKED := 1;
     VIEWPORT_FLAG_UNDERGROUND_INSIDE := 1;
     VIEWPORT_FLAG_SEETHROUGH_RIDES := 2;
     VIEWPORT_FLAG_SEETHROUGH_SCENERY := 4;
     VIEWPORT_FLAG_SEETHROUGH_PATHS := 65536;
     IMAGE_TYPE_TRANSPARENT := 2 ^ 30;
     COLOUR_BRIGHT_YELLOW := 18;
     COLOUR_GREY := 1;
     gfx_get_g1_element := λ _,
       Some {| g1_width := 64; g1_height := 64; g1_x_offset := -32; g1_y_offset := -32 |};
     bound_box_cast := uint16;
     screen_cast := int16;
     indeterminate_paint_struct := example_paint_struct;
     indeterminate_attached_paint_struct := example_attached_paint_struct;
     MAX_PAINT_QUADRANTS_range := example_quadrants_range |}.

Definition example_dpi (zoom_level : Z) : rct_drawpixelinfo :=
  {| dpi_x := 0; dpi_y := 0; dpi_width := 640; dpi_height := 480; dpi_zoom_level := zoom_level |}.

(** A freshly acquired session: empty pool, empty buckets, the occupied range
    at its sentinel. *)
Definition example_session (zoom_level : Z) : paint_session :=
  {| DPI := example_dpi zoom_level;
     PaintStructs := [];
     Quadrants := replicate 16 None;
     LastPS := None;
     LastAttachedPS := None;
     PaintHead := example_paint_struct;
     ViewFlags := 0;
     QuadrantBackIndex := UINT32_MAX;
     QuadrantFrontIndex := 0;
     CurrentlyDrawnItem := 0;
     SpritePosition := {| xy_x := 0; xy_y := 0 |};
     InteractionType := VIEWPORT_INTERACTION_ITEM_TERRAIN;
     CurrentRotation := 0;
     MapPosition := {| xy_x := 0; xy_y := 0 |} |}.

(** The session a generation phase leaves. *)
Definition example_generate (calls : list paint_call) (s : paint_session) : paint_session :=
  match generate (H := example_headers) calls s with
  | Some (_, s') => s'
  | None => s
  end.

(** Three primitives in the buckets 0, 1 and 2: a small box at the origin; a
    box S high up, x in 32..100, y in 0..100, z in 50..60; and a box T on the
    ground, x in 64..70, y in 0..10, z in 0..10, which lies within the
    footprint of S and below it. *)
Definition example_calls_three : list paint_call :=
  [ paint_call_parent 1 0 0 6 6 5 0 0 0 0;
    paint_call_parent 2 0 0 69 101 10 0 32 0 50;
    paint_call_parent 3 0 0 7 11 10 0 64 0 0 ].

Definition example_three : paint_session :=
  example_generate example_calls_three (example_session 0).

(** Two primitives with the same bounding box, of extent 1 on every axis, in
    bucket 0, and a third in bucket 1. *)
Definition example_calls_identical : list paint_call :=
  [ paint_call_parent 1 0 0 1 1 0 0 0 0 0;
    paint_call_parent 2 0 0 1 1 0 0 0 0 0;
    paint_call_parent 3 0 0 1 1 0 0 32 0 0 ].

Definition example_identical : paint_session :=
  example_generate example_calls_identical (example_session 0).

(** [example_three] in the middle of the second window of the arrangement:
    the chain is head, 0, 1, 2; entry 1 (the box S) is being scanned from,
    and entry 2 (the box T) carries [PAINT_QUADRANT_FLAG_NEXT]. *)
Definition example_scanning_S : paint_struct :=
  {| image_id := 2; colour_image_id := 0;
     bounds := {| bb_x := 32; bb_y := 0; bb_z := 50; bb_x_end := 100; bb_y_end := 100;
                  bb_z_end := 60 |};
     ps_x := 0; ps_y := 0; quadrant_index := 1; flags := 0; quadrant_flags := 0;
     attached_ps := None; children := None; next_quadrant_ps := Some (PaintEntryPtr 2);
     sprite_type := VIEWPORT_INTERACTION_ITEM_TERRAIN; var_29 := 0; map_x := 0; map_y := 0;
     tileElement := 0 |}.

Definition example_scanning_T : paint_struct :=
  {| image_id := 3; colour_image_id := 0;
     bounds := {| bb_x := 64; bb_y := 0; bb_z := 0; bb_x_end := 70; bb_y_end := 10;
                  bb_z_end := 10 |};
     ps_x := 0; ps_y := 0; quadrant_index := 2; flags := 0; quadrant_flags := 3;
     attached_ps := None; children := None; next_quadrant_ps := None;
     sprite_type := VIEWPORT_INTERACTION_ITEM_TERRAIN; var_29 := 0; map_x := 0; map_y := 0;
     tileElement := 0 |}.

Definition example_scanning : paint_session :=
  write_ps (PaintEntryPtr 2) example_scanning_T
    (write_ps (PaintEntryPtr 1) example_scanning_S
       (write_ps (PaintEntryPtr 0)
          {| image_id := 1; colour_image_id := 0;
             bounds := {| bb_x := 0; bb_y := 0; bb_z := 0; bb_x_end := 5; bb_y_end := 5;
                          bb_z_end := 5 |};
             ps_x := 0; ps_y := 0; quadrant_index := 0; flags := 0; quadrant_flags := 2;
             attached_ps := None; children := None; next_quadrant_ps := Some (PaintEntryPtr 1);
             sprite_type := VIEWPORT_INTERACTION_ITEM_TERRAIN; var_29 := 0; map_x := 0;
             map_y := 0; tileElement := 0 |}
          (write_ps PaintHeadPtr
             (set_next_quadrant_ps (Some (PaintEntryPtr 0)) example_paint_struct)
             example_three))).

(** A session in which a primitive has just been allocated and is not yet in
    a bucket. *)
Definition example_allocated : paint_session :=
  match AllocateRootPaintEntry example_scanning_S (example_session 0) with
  | Some (_, s) => s
  | None => example_session 0
  end.

(** One primitive whose image lands at the screen position (13,7), in a
    session at zoom level 2: a piece of terrain, and a free-standing
    entity. *)
Definition example_terrain_13_7 : paint_session :=
  example_generate [paint_call_parent 5 0 13 32 32 10 (-1) 0 0 0] (example_session 2).

Definition example_sprite_13_7 : paint_session :=
  example_generate
    [ paint_call_context {| xy_x := 0; xy_y := 0 |} VIEWPORT_INTERACTION_ITEM_SPRITE
        {| xy_x := 0; xy_y := 0 |} 0;
      paint_call_parent 5 0 13 32 32 10 (-1) 0 0 0 ]
    (example_session 2).

(** The primitive of these two sessions. *)
Definition example_struct_13_7 (t : ViewportInteractionItem) : paint_struct :=
  {| image_id := 5; colour_image_id := 0;
     bounds := {| bb_x := 0; bb_y := 0; bb_z := 0; bb_x_end := 31; bb_y_end := 31;
                  bb_z_end := 10 |};
     ps_x := 13; ps_y := 7; quadrant_index := 0; flags := 0; quadrant_flags := 0;
     attached_ps := None; children := None; next_quadrant_ps := None;
     sprite_type := t; var_29 := 0; map_x := 0; map_y := 0; tileElement := 0 |}.

(** ** Further notions the properties below are stated with *)



(** The pixel [(px, py)] lies in the footprint of an image drawn at
    [imagePos], and in the clip rectangle. *)
Definition pixel_in_footprint (imagePos : ScreenCoordsXY) (g1 : rct_g1_element) (px py : Z) : Prop :=
  scr_x imagePos + g1_x_offset g1 ≤ px < scr_x imagePos + g1_x_offset g1 + g1_width g1
  ∧ scr_y imagePos + g1_y_offset g1 ≤ py < scr_y imagePos + g1_y_offset g1 + g1_height g1.

Definition pixel_in_clip (dpi : rct_drawpixelinfo) (px py : Z) : Prop :=
  dpi_x dpi ≤ px < dpi_x dpi + dpi_width dpi
  ∧ dpi_y dpi ≤ py < dpi_y dpi + dpi_height dpi.

Section SeeThrough.
Context `{PaintHeaders}.

(** The flags [PaintPSColourifyImage] puts on a see-through image. *)
Definition seeThoughFlags : Z :=
  uint32 (Z.lor (Z.lor IMAGE_TYPE_TRANSPARENT (Z.shiftl COLOUR_BRIGHT_YELLOW 19))
                (Z.shiftl COLOUR_GREY 24)).

(** The classifications a set of view flags makes see-through. *)
Definition drawn_see_through (spriteType : ViewportInteractionItem) (viewFlags : Z) : bool :=
  match spriteType with
  | VIEWPORT_INTERACTION_ITEM_RIDE => has_flag viewFlags VIEWPORT_FLAG_SEETHROUGH_RIDES
  | VIEWPORT_INTERACTION_ITEM_WALL =>
      has_flag viewFlags VIEWPORT_FLAG_UNDERGROUND_INSIDE
      || has_flag viewFlags VIEWPORT_FLAG_SEETHROUGH_SCENERY
  | VIEWPORT_INTERACTION_ITEM_FOOTPATH
  | VIEWPORT_INTERACTION_ITEM_FOOTPATH_ITEM
  | VIEWPORT_INTERACTION_ITEM_BANNER => has_flag viewFlags VIEWPORT_FLAG_SEETHROUGH_PATHS
  | VIEWPORT_INTERACTION_ITEM_SCENERY
  | VIEWPORT_INTERACTION_ITEM_LARGE_SCENERY => has_flag viewFlags VIEWPORT_FLAG_SEETHROUGH_SCENERY
  | _ => false
  end.

End SeeThrough.

(** ** Chains of children and of attachments *)

(** [attached_chain s o l]: following [next] from the attachment pointer
    [o] visits the slots [l.*1], which hold the attachments [l.*2], and ends
    in [nullptr]. *)
Fixpoint attached_chain (s : paint_session) (o : option nat)
    (l : list (nat * attached_paint_struct)) : Prop :=
  match l with
  | [] => o = None
  | (a, v) :: l => o = Some a ∧ read_attached s a = Some v ∧ attached_chain s (att_next v) l
  end.

(** [children_chain s o l]: following [children] from the pointer [o]
    visits the primitives [l] and ends in [nullptr]. *)
Fixpoint children_chain (s : paint_session) (o : option paint_struct_ptr)
    (l : list (paint_struct_ptr * paint_struct)) : Prop :=
  match l with
  | [] => o = None
  | (p, v) :: l => o = Some p ∧ read_ps s p = Some v ∧ children_chain s (children v) l
  end.

Definition is_line (c : draw_call) : bool :=
  match c with
  | gfx_draw_line _ _ _ => true
  | _ => false
  end.

Section DrawCalls.
Context `{PaintHeaders}.

(** The calls [PaintDrawStruct] makes for the primitive [ps] itself. *)
Definition own_calls (gPaintBoundingBoxes : bool) (rotation : Z) (s : paint_session)
    (ps : paint_struct) : list draw_call :=
  let pos := PaintDrawStruct_position (DPI s) ps in
  let imageId := PaintPSColourifyImage (image_id ps) (sprite_type ps) (ViewFlags s) in
  if gPaintBoundingBoxes && (dpi_zoom_level (DPI s) =? 0)
  then PaintPSImageWithBoundingBoxes rotation ps imageId pos.1 pos.2
  else PaintPSImage ps imageId pos.1 pos.2.

(** The call [PaintAttachedPS] makes for the attachment [att] of [ps]. *)
Definition attached_call (ps : paint_struct) (viewFlags : Z) (att : attached_paint_struct)
    : draw_call :=
  let screenCoords := {| scr_x := att_x att + ps_x ps; scr_y := att_y att + ps_y ps |} in
  let imageId := PaintPSColourifyImage (att_image_id att) (sprite_type ps) viewFlags in
  if has_flag (att_flags att) PAINT_STRUCT_FLAG_IS_MASKED
  then gfx_draw_sprite_raw_masked screenCoords imageId (att_colour_image_id att)
  else gfx_draw_sprite imageId screenCoords (colour_image_id ps).

End DrawCalls.

Section PoolInvariant.
Context `{PaintHeaders}.

(** The two cursors point into the pool, to a primitive and to an
    attachment. *)
Definition cursors_in_pool (s : paint_session) : Prop :=
  (∀ p, LastPS s = Some p → p ≠ PaintHeadPtr ∧ is_Some (read_ps s p))
  ∧ (∀ a, LastAttachedPS s = Some a → is_Some (read_attached s a)).

(** What the creation functions keep of the pool: it stays within its
    capacity; the child of a primitive is a primitive allocated after it; the
    first attachment of a primitive is an attachment; from every attachment
    the [next] pointers lead to [nullptr] in no more steps than the pool has
    slots; and the cursors point into the pool. *)
Record pool_inv (s : paint_session) : Prop := {
  pool_capacity : (length (PaintStructs s) ≤ MaxPaintEntries)%nat;
  pool_children : ∀ (i : nat) v c,
    read_ps s (PaintEntryPtr i) = Some v → children v = Some c →
    ∃ j : nat, c = PaintEntryPtr j ∧ (i < j)%nat ∧ is_Some (read_ps s c);
  pool_attached_ps : ∀ (i : nat) v a,
    read_ps s (PaintEntryPtr i) = Some v → attached_ps v = Some a →
    is_Some (read_attached s a);
  pool_attached : ∀ (i : nat) a,
    read_attached s i = Some a →
    ∃ l, attached_chain s (Some i) l ∧ (length l ≤ length (PaintStructs s))%nat;
  pool_cursors : cursors_in_pool s;
}.

End PoolInvariant.

(** ** The generation phase driver ([PaintSessionGenerate]) *)

(** [LocationXY16]: a pair of [int16_t]. *)
Record LocationXY16 := { loc_x : Z; loc_y : Z }.

Definition set_CurrentRotation (v : Z) (s : paint_session) : paint_session :=
  {| DPI := DPI s; PaintStructs := PaintStructs s; Quadrants := Quadrants s; LastPS := LastPS s;
     LastAttachedPS := LastAttachedPS s; PaintHead := PaintHead s; ViewFlags := ViewFlags s;
     QuadrantBackIndex := QuadrantBackIndex s; QuadrantFrontIndex := QuadrantFrontIndex s;
     CurrentlyDrawnItem := CurrentlyDrawnItem s; SpritePosition := SpritePosition s;
     InteractionType := InteractionType s; CurrentRotation := v;
     MapPosition := MapPosition s |}.

(** The calls of [PaintSessionGenerate] into the painters of tile elements
    and of sprites, with the values of their coordinate arguments. *)
Inductive paint_setup_call :=
| call_tile_element_paint_setup (x y : Z)
| call_sprite_paint_setup (x y : Z).

Section Generate.

(** [tile_element_paint_setup] and [sprite_paint_setup] are defined in
    [Paint.TileElement.cpp] and [Paint.Sprite.cpp], outside the sources at
    hand: they are parameters here, functions of the coordinates on the
    session. *)
Variable tile_element_paint_setup : Z → Z → M unit.
Variable sprite_paint_setup : Z → Z → M unit.

(** The four [for (; num_vertical_quadrants > 0; --num_vertical_quadrants)]
    loops, one for each rotation; [mapTile] holds [int16_t] coordinates. *)
Fixpoint PaintSessionGenerate_loop_0 (num_vertical_quadrants : nat) (mapTile : LocationXY16)
    : M unit :=
  match num_vertical_quadrants with
  | O => mret tt
  | S num_vertical_quadrants =>
      let x := loc_x mapTile in
      let y := loc_y mapTile in
      _ ← tile_element_paint_setup x y;
      _ ← sprite_paint_setup x y;
      _ ← sprite_paint_setup (x - 32) (y + 32);
      _ ← tile_element_paint_setup x (y + 32);
      _ ← sprite_paint_setup x (y + 32);
      let x := int16 (x + 32) in
      _ ← sprite_paint_setup x y;
      let y := int16 (y + 32) in
      PaintSessionGenerate_loop_0 num_vertical_quadrants {| loc_x := x; loc_y := y |}
  end.

Fixpoint PaintSessionGenerate_loop_1 (num_vertical_quadrants : nat) (mapTile : LocationXY16)
    : M unit :=
  match num_vertical_quadrants with
  | O => mret tt
  | S num_vertical_quadrants =>
      let x := loc_x mapTile in
      let y := loc_y mapTile in
      _ ← tile_element_paint_setup x y;
      _ ← sprite_paint_setup x y;
      _ ← sprite_paint_setup (x - 32) (y - 32);
      _ ← tile_element_paint_setup (x - 32) y;
      _ ← sprite_paint_setup (x - 32) y;
      let y := int16 (y + 32) in
      _ ← sprite_paint_setup x y;
      let x := int16 (x - 32) in
      PaintSessionGenerate_loop_1 num_vertical_quadrants {| loc_x := x; loc_y := y |}
  end.

Fixpoint PaintSessionGenerate_loop_2 (num_vertical_quadrants : nat) (mapTile : LocationXY16)
    : M unit :=
  match num_vertical_quadrants with
  | O => mret tt
  | S num_vertical_quadrants =>
      let x := loc_x mapTile in
      let y := loc_y mapTile in
      _ ← tile_element_paint_setup x y;
      _ ← sprite_paint_setup x y;
      _ ← sprite_paint_setup (x + 32) (y - 32);
      _ ← tile_element_paint_setup x (y - 32);
      _ ← sprite_paint_setup x (y - 32);
      let x := int16 (x - 32) in
      _ ← sprite_paint_setup x y;
      let y := int16 (y - 32) in
      PaintSessionGenerate_loop_2 num_vertical_quadrants {| loc_x := x; loc_y := y |}
  end.

Fixpoint PaintSessionGenerate_loop_3 (num_vertical_quadrants : nat) (mapTile : LocationXY16)
    : M unit :=
  match num_vertical_quadrants with
  | O => mret tt
  | S num_vertical_quadrants =>
      let x := loc_x mapTile in
      let y := loc_y mapTile in
      _ ← tile_element_paint_setup x y;
      _ ← sprite_paint_setup x y;
      _ ← sprite_paint_setup (x + 32) (y + 32);
      _ ← tile_element_paint_setup (x + 32) y;
      _ ← sprite_paint_setup (x + 32) y;
      let y := int16 (y - 32) in
      _ ← sprite_paint_setup x y;
      let x := int16 (x + 32) in
      PaintSessionGenerate_loop_3 num_vertical_quadrants {| loc_x := x; loc_y := y |}
  end.

(** [get_current_rotation()] is the argument [current_rotation]. *)
Definition PaintSessionGenerate (current_rotation : Z) : M unit :=
  s ← get;
  let dpi := DPI s in
  let mapTile :=
    {| loc_x := int16 (Z.land (dpi_x dpi) 0xFFE0);
       loc_y := int16 (Z.land (dpi_y dpi - 16) 0xFFE0) |} in
  let half_x := int16 (Z.shiftr (loc_x mapTile) 1) in
  let num_vertical_quadrants := uint16 (Z.shiftr (dpi_height dpi + 2128) 5) in
  _ ← modify (set_CurrentRotation (uint8 current_rotation));
  match uint8 current_rotation with
  | 0 =>
      let x := int16 (loc_y mapTile - half_x) in
      let y := int16 (loc_y mapTile + half_x) in
      let x := int16 (Z.land x 0xFFE0) in
      let y := int16 (Z.land y 0xFFE0) in
      PaintSessionGenerate_loop_0 (Z.to_nat num_vertical_quadrants) {| loc_x := x; loc_y := y |}
  | 1 =>
      let x := int16 (- loc_y mapTile - half_x) in
      let y := int16 (loc_y mapTile - half_x - 16) in
      let x := int16 (Z.land x 0xFFE0) in
      let y := int16 (Z.land y 0xFFE0) in
      PaintSessionGenerate_loop_1 (Z.to_nat num_vertical_quadrants) {| loc_x := x; loc_y := y |}
  | 2 =>
      let x := int16 (- loc_y mapTile + half_x) in
      let y := int16 (- loc_y mapTile - half_x) in
      let x := int16 (Z.land x 0xFFE0) in
      let y := int16 (Z.land y 0xFFE0) in
      PaintSessionGenerate_loop_2 (Z.to_nat num_vertical_quadrants) {| loc_x := x; loc_y := y |}
  | 3 =>
      let x := int16 (loc_y mapTile + half_x) in
      let y := int16 (- loc_y mapTile + half_x - 16) in
      let x := int16 (Z.land x 0xFFE0) in
      let y := int16 (Z.land y 0xFFE0) in
      PaintSessionGenerate_loop_3 (Z.to_nat num_vertical_quadrants) {| loc_x := x; loc_y := y |}
  | _ => mret tt
  end.

(** A sequence of calls into the two painters. *)
Definition run_paint_setup_call (c : paint_setup_call) : M unit :=
  match c with
  | call_tile_element_paint_setup x y => tile_element_paint_setup x y
  | call_sprite_paint_setup x y => sprite_paint_setup x y
  end.

Fixpoint run_paint_setup_calls (l : list paint_setup_call) : M unit :=
  match l with
  | [] => mret tt
  | c :: l => _ ← run_paint_setup_call c; run_paint_setup_calls l
  end.

End Generate.

(** The map position [PaintSessionGenerate] starts from, and the step it
    moves by from one turn of its loop to the next. *)
Definition generate_start (rotation : Z) (dpi : rct_drawpixelinfo) : LocationXY16 :=
  let tile_x := int16 (Z.land (dpi_x dpi) 0xFFE0) in
  let tile_y := int16 (Z.land (dpi_y dpi - 16) 0xFFE0) in
  let half_x := int16 (Z.shiftr tile_x 1) in
  let '(x, y) :=
    match rotation with
    | 0 => (tile_y - half_x, tile_y + half_x)
    | 1 => (- tile_y - half_x, tile_y - half_x - 16)
    | 2 => (- tile_y + half_x, - tile_y - half_x)
    | _ => (tile_y + half_x, - tile_y + half_x - 16)
    end in
  {| loc_x := int16 (Z.land (int16 x) 0xFFE0); loc_y := int16 (Z.land (int16 y) 0xFFE0) |}.

Definition generate_step (rotation : Z) : Z * Z :=
  match rotation with
  | 0 => (32, 32)
  | 1 => (-32, 32)
  | 2 => (-32, -32)
  | _ => (32, -32)
  end.

(** The six calls of turn [k] of the loop, for a loop that started at
    [(x0, y0)]: the tile at the current position and its neighbour in the
    same screen column, and the sprites on these tiles and on the neighbours
    to either side. *)
Definition generate_visit (rotation : Z) (x0 y0 : Z) (k : nat) : list paint_setup_call :=
  let x := int16 (x0 + (generate_step rotation).1 * Z.of_nat k) in
  let y := int16 (y0 + (generate_step rotation).2 * Z.of_nat k) in
  match rotation with
  | 0 =>
      [ call_tile_element_paint_setup x y; call_sprite_paint_setup x y;
        call_sprite_paint_setup (x - 32) (y + 32);
        call_tile_element_paint_setup x (y + 32); call_sprite_paint_setup x (y + 32);
        call_sprite_paint_setup (int16 (x + 32)) y ]
  | 1 =>
      [ call_tile_element_paint_setup x y; call_sprite_paint_setup x y;
        call_sprite_paint_setup (x - 32) (y - 32);
        call_tile_element_paint_setup (x - 32) y; call_sprite_paint_setup (x - 32) y;
        call_sprite_paint_setup x (int16 (y + 32)) ]
  | 2 =>
      [ call_tile_element_paint_setup x y; call_sprite_paint_setup x y;
        call_sprite_paint_setup (x + 32) (y - 32);
        call_tile_element_paint_setup x (y - 32); call_sprite_paint_setup x (y - 32);
        call_sprite_paint_setup (int16 (x - 32)) y ]
  | _ =>
      [ call_tile_element_paint_setup x y; call_sprite_paint_setup x y;
        call_sprite_paint_setup (x + 32) (y + 32);
        call_tile_element_paint_setup (x + 32) y; call_sprite_paint_setup (x + 32) y;
        call_sprite_paint_setup x (int16 (y - 32)) ]
  end.

(** All the calls of [PaintSessionGenerate], in order. *)
Definition generate_visits (rotation : Z) (dpi : rct_drawpixelinfo) : list paint_setup_call :=
  let start := generate_start rotation dpi in
  let num_vertical_quadrants := uint16 (Z.shiftr (dpi_height dpi + 2128) 5) in
  flat_map (generate_visit rotation (loc_x start) (loc_y start))
    (seq 0 (Z.to_nat num_vertical_quadrants)).

Definition setup_call_coords (c : paint_setup_call) : Z * Z :=
  match c with
  | call_tile_element_paint_setup x y => (x, y)
  | call_sprite_paint_setup x y => (x, y)
  end.

Section GoodSessions.
Context `{PaintHeaders}.

(** A session in the state the creation functions keep it in. *)
Definition session_good (s : paint_session) : Prop :=
  (∃ bs, session_inv s bs) ∧ pool_inv s.

(** A painter that returns on every such session and leaves such a
    session. *)
Definition painter_good (painter : Z → Z → M unit) : Prop :=
  ∀ x y s, session_good s → ∃ s', painter x y s = Some (tt, s') ∧ session_good s'.

End GoodSessions.

(** ** The other overloads of the creation functions *)

Section Overloads.
Context `{PaintHeaders}.

(** [PaintAddImageAsParent(session, image_id, offset, boundBoxSize)] on
    [CoordsXYZ]: it passes the coordinates on to the parameters of the main
    overload, which are [int8_t] and [int16_t], and no bounding box
    offset. *)
Definition PaintAddImageAsParent_xyz (image_id : Z) (offset boundBoxSize : CoordsXYZ)
    : M (option paint_struct_ptr) :=
  PaintAddImageAsParent image_id (xyz_x offset) (xyz_y offset) (xyz_x boundBoxSize)
    (xyz_y boundBoxSize) (xyz_z boundBoxSize) (xyz_z offset) 0 0 0.

(** [PaintAddImageAsParent] without a bounding box offset, on [int8_t] and
    [int16_t] parameters. *)
Definition PaintAddImageAsParent_short (image_id x_offset y_offset bound_box_length_x
    bound_box_length_y bound_box_length_z z_offset : Z) : M (option paint_struct_ptr) :=
  PaintAddImageAsParent_xyz image_id
    {| xyz_x := int8 x_offset; xyz_y := int8 y_offset; xyz_z := int16 z_offset |}
    {| xyz_x := int16 bound_box_length_x; xyz_y := int16 bound_box_length_y;
       xyz_z := int8 bound_box_length_z |}.


End Overloads.

(** ** Further example sessions *)

(** The small configuration with a pool of eight entries. *)
Definition example_headers_8 : PaintHeaders :=
  {| MAX_PAINT_QUADRANTS := 16;
     MaxPaintEntries := 8;
     PAINT_QUADRANT_FLAG_IDENTICAL := 1;
     PAINT_QUADRANT_FLAG_BIGGER := 128;
     PAINT_QUADRANT_FLAG_NEXT := 2;
     PAINT_STRUCT_FLAG_IS_MASKED := 1;
     VIEWPORT_FLAG_UNDERGROUND_INSIDE := 1;
     VIEWPORT_FLAG_SEETHROUGH_RIDES := 2;
     VIEWPORT_FLAG_SEETHROUGH_SCENERY := 4;
     VIEWPORT_FLAG_SEETHROUGH_PATHS := 65536;
     IMAGE_TYPE_TRANSPARENT := 2 ^ 30;
     COLOUR_BRIGHT_YELLOW := 18;
     COLOUR_GREY := 1;
     gfx_get_g1_element := λ _,
       Some {| g1_width := 64; g1_height := 64; g1_x_offset := -32; g1_y_offset := -32 |};
     bound_box_cast := uint16;
     screen_cast := int16;
     indeterminate_paint_struct := example_paint_struct;
     indeterminate_attached_paint_struct := example_attached_paint_struct;
     MAX_PAINT_QUADRANTS_range := example_quadrants_range |}.

Definition example_generate_8 (calls : list paint_call) (s : paint_session) : paint_session :=
  match generate (H := example_headers_8) calls s with
  | Some (_, s') => s'
  | None => s
  end.

(** One primitive; one primitive with an attachment; and a primitive with a
    child that has two attachments. *)
Definition example_calls_one : list paint_call :=
  [ paint_call_parent 1 0 0 6 6 5 0 0 0 0 ].

Definition example_one : paint_session :=
  example_generate_8 example_calls_one (example_session 0).

Definition example_calls_attached : list paint_call :=
  [ paint_call_parent 1 0 0 6 6 5 0 0 0 0;
    paint_call_attach_ps 3 1 2 ].

Definition example_attached : paint_session :=
  example_generate_8 example_calls_attached (example_session 0).

Definition example_calls_family : list paint_call :=
  [ paint_call_parent 1 0 0 6 6 5 0 0 0 0;
    paint_call_child 2 {| xyz_x := 0; xyz_y := 0; xyz_z := 0 |}
      {| xyz_x := 6; xyz_y := 6; xyz_z := 5 |} {| xyz_x := 0; xyz_y := 0; xyz_z := 0 |};
    paint_call_attach_ps 3 1 2;
    paint_call_attach_attach 4 3 4 ].

Definition example_family : paint_session :=
  example_generate_8 example_calls_family (example_session 0).

(** The primitive and the attachment in a slot of the pool. *)
Definition example_entry (s : paint_session) (i : nat) : paint_struct :=
  default example_paint_struct (read_ps s (PaintEntryPtr i)).

Definition example_attachment (s : paint_session) (i : nat) : attached_paint_struct :=
  default example_attached_paint_struct (read_attached s i).

(** [example_three] after its arrangement. *)
Definition example_arranged : paint_session :=
  match PaintSessionArrange (H := example_headers) 30 example_three with
  | Some (_, s) => s
  | None => example_three
  end.

(** Painters that emit one primitive for every position they are called
    at. *)
Definition example_tile_painter (x y : Z) : M unit :=
  generate (H := example_headers_8)
    [ paint_call_context {| xy_x := x; xy_y := y |} VIEWPORT_INTERACTION_ITEM_TERRAIN
        {| xy_x := x; xy_y := y |} 0;
      paint_call_parent 1 0 0 32 32 0 0 0 0 0 ].

Definition example_sprite_painter (x y : Z) : M unit :=
  generate (H := example_headers_8)
    [ paint_call_context {| xy_x := x; xy_y := y |} VIEWPORT_INTERACTION_ITEM_SPRITE
        {| xy_x := x; xy_y := y |} 0;
      paint_call_parent 2 0 0 8 8 16 0 0 0 0 ].

(** * Properties *)

Ltac munfold :=
  unfold mbind, M_bind, mret, M_ret, get, modify, liftO, load, store, load_attached,
    store_attached, fail in *.

Ltac solve_elem := repeat first [rewrite elem_of_app | rewrite elem_of_cons]; auto 10.

(** ** The dominance tests, the culling test and the snapping *)

Lemma CheckBoundingBox_0_spec (S T : paint_struct_bound_box) :
  CheckBoundingBox 0 S T = true ↔
    (bb_z_end S >= bb_z T ∧ bb_y_end S >= bb_y T ∧ bb_x_end S >= bb_x T)
    ∧ ¬ (bb_z S < bb_z_end T ∧ bb_y S < bb_y_end T ∧ bb_x S < bb_x_end T).
Proof.
  unfold CheckBoundingBox.
  rewrite !andb_true_iff, negb_true_iff, !Z.geb_le.
  rewrite <- not_true_iff_false, !andb_true_iff, !Z.ltb_lt. lia.
Qed.

Lemma Rotate_cases c k :
  Rotate c k = c
  ∨ Rotate c k = {| xy_x := xy_y c; xy_y := - xy_x c |}
  ∨ Rotate c k = {| xy_x := - xy_x c; xy_y := - xy_y c |}
  ∨ Rotate c k = {| xy_x := - xy_y c; xy_y := xy_x c |}.
Proof.
  unfold Rotate. destruct (Z.land k 3) as [|[[|[]|]|[]|]|]; auto.
Qed.

Lemma ImageWithinDPI_spec imagePos g1 dpi :
  ImageWithinDPI imagePos g1 dpi = false ↔ footprint_outside imagePos g1 dpi.
Proof.
  unfold ImageWithinDPI, footprint_outside.
  repeat match goal with
         | |- context [?a <=? ?b] => destruct (Z.leb_spec a b)
         | |- context [?a >=? ?b] => rewrite (Z.geb_leb a b)
         end; split; intros Hx; try done; try lia.
Qed.

Lemma floor2_2 v : floor2 v 2 = 2 * (v `div` 2).
Proof.
  unfold floor2. change (2 - 1) with (Z.ones 1). rewrite <- Z.ldiff_land, Z.ldiff_ones_r by lia.
  rewrite Z.shiftr_div_pow2, Z.shiftl_mul_pow2 by lia. change (2 ^ 1) with 2. lia.
Qed.

Lemma floor2_4 v : floor2 v 4 = 4 * (v `div` 4).
Proof.
  unfold floor2. change (4 - 1) with (Z.ones 2). rewrite <- Z.ldiff_land, Z.ldiff_ones_r by lia.
  rewrite Z.shiftr_div_pow2, Z.shiftl_mul_pow2 by lia. change (2 ^ 2) with 4. lia.
Qed.

Lemma int16_range v : - 2 ^ 15 ≤ int16 v < 2 ^ 15.
Proof. unfold int16. pose proof (Z.mod_pos_bound (v + 2 ^ 15) (2 ^ 16)). lia. Qed.

Lemma int16_id v : - 2 ^ 15 ≤ v < 2 ^ 15 → int16 v = v.
Proof. intros Hv. unfold int16. rewrite Z.mod_small; lia. Qed.

Lemma snap_2 v : - 2 ^ 15 ≤ v < 2 ^ 15 → int16 (floor2 v 2) = 2 * (v `div` 2).
Proof. intros Hv. rewrite floor2_2. apply int16_id. Z.div_mod_to_equations. lia. Qed.

Lemma snap_4 v :
  - 2 ^ 15 ≤ v < 2 ^ 15 → int16 (floor2 (2 * (v `div` 2)) 4) = 4 * (v `div` 4).
Proof.
  intros Hv. rewrite floor2_4.
  replace ((2 * (v `div` 2)) `div` 4) with (v `div` 4) by (Z.div_mod_to_equations; lia).
  apply int16_id. Z.div_mod_to_equations. lia.
Qed.

Lemma PaintDrawStruct_position_spec (dpi : rct_drawpixelinfo) (ps : paint_struct) :
  PaintDrawStruct_position dpi ps
  = if decide (sprite_type ps = VIEWPORT_INTERACTION_ITEM_SPRITE)
    then (zoom_snap (dpi_zoom_level dpi) (int16 (ps_x ps)),
          zoom_snap (dpi_zoom_level dpi) (int16 (ps_y ps)))
    else (int16 (ps_x ps), int16 (ps_y ps)).
Proof.
  unfold PaintDrawStruct_position, zoom_snap.
  destruct (decide _); [|done].
  pose proof (int16_range (ps_x ps)) as Hx. pose proof (int16_range (ps_y ps)) as Hy.
  destruct (Z.geb_spec (dpi_zoom_level dpi) 1) as [H1|H1];
    destruct (Z.geb_spec (dpi_zoom_level dpi) 2) as [H2|H2]; try lia; try done.
  - by rewrite !snap_2, !snap_4.
  - by rewrite !snap_2.
Qed.


(** ** Reading and writing entries *)

Lemma read_write_eq s p v0 v :
  read_ps s p = Some v0 → read_ps (write_ps p v s) p = Some v.
Proof.
  destruct p as [|i]; simpl; [done|].
  destruct (PaintStructs s !! i) as [[]|] eqn:Hi; try done. intros _.
  rewrite list_lookup_insert_eq; [done|]. by eapply lookup_lt_Some.
Qed.

Lemma read_write_ne s p q v :
  p ≠ q → read_ps (write_ps p v s) q = read_ps s q.
Proof.
  intros Hne. destruct p as [|i], q as [|j]; simpl; try done.
  rewrite list_lookup_insert_ne; [done|]. congruence.
Qed.

Lemma erase_session_write f s p v0 v :
  read_ps s p = Some v0 → f v = f v0 →
  erase_session f (write_ps p v s) = erase_session f s.
Proof.
  intros Hr Hf. destruct p as [|i]; simpl in *.
  - injection Hr as <-. unfold erase_session. simpl. by rewrite Hf.
  - destruct (PaintStructs s !! i) as [[]|] eqn:Hi; try done. injection Hr as ->.
    unfold erase_session. simpl. rewrite list_fmap_insert. simpl. rewrite Hf.
    rewrite list_insert_id; [done|]. by rewrite list_lookup_fmap, Hi.
Qed.

Lemma erase_session_read f s s' p :
  erase_session f s' = erase_session f s → f <$> read_ps s' p = f <$> read_ps s p.
Proof.
  intros He. destruct p as [|i]; simpl.
  - f_equal. by apply (f_equal PaintHead) in He.
  - apply (f_equal PaintStructs) in He. simpl in He.
    apply (f_equal (λ l, l !! i)) in He. rewrite !list_lookup_fmap in He.
    destruct (PaintStructs s' !! i) as [[]|], (PaintStructs s !! i) as [[]|]; simpl in *;
      congruence.
Qed.

Lemma erase_session_compose f g s :
  erase_session f (erase_session g s) = erase_session (f ∘ g) s.
Proof.
  unfold erase_session, set_PaintHead, set_PaintStructs. simpl. f_equal.
  rewrite <- list_fmap_compose. apply list_fmap_ext. by intros ? [] ?.
Qed.

Lemma erase_links_next : erase_links = set_quadrant_flags 0 ∘ set_next_quadrant_ps None.
Proof. reflexivity. Qed.
Lemma erase_links_flags : erase_links = set_next_quadrant_ps None ∘ set_quadrant_flags 0.
Proof. reflexivity. Qed.

Lemma nexts_only_links s s' : nexts_only s s' → links_only s s'.
Proof.
  unfold nexts_only, links_only. intros He. rewrite erase_links_next.
  rewrite <- !erase_session_compose. by rewrite He.
Qed.

Lemma flags_only_links s s' : flags_only s s' → links_only s s'.
Proof.
  unfold flags_only, links_only. intros He. rewrite erase_links_flags.
  rewrite <- !erase_session_compose. by rewrite He.
Qed.

Lemma links_only_trans s1 s2 s3 : links_only s1 s2 → links_only s2 s3 → links_only s1 s3.
Proof. unfold links_only. congruence. Qed.
Lemma nexts_only_trans s1 s2 s3 : nexts_only s1 s2 → nexts_only s2 s3 → nexts_only s1 s3.
Proof. unfold nexts_only. congruence. Qed.
Lemma flags_only_trans s1 s2 s3 : flags_only s1 s2 → flags_only s2 s3 → flags_only s1 s3.
Proof. unfold flags_only. congruence. Qed.

Lemma flags_only_next s s' p : flags_only s s' → next_of s' p = next_of s p.
Proof.
  intros He. apply (erase_session_read _ _ _ p) in He. unfold next_of.
  destruct (read_ps s' p), (read_ps s p); simpl in *; try done.
  by apply (f_equal (fmap next_quadrant_ps)) in He.
Qed.

Lemma nexts_only_field {A} (g : paint_struct → A) s s' p :
  (∀ v n, g (set_next_quadrant_ps n v) = g v) →
  nexts_only s s' → g <$> read_ps s' p = g <$> read_ps s p.
Proof.
  intros Hg He. apply (erase_session_read _ _ _ p) in He.
  destruct (read_ps s' p) as [v'|], (read_ps s p) as [v|]; simpl in *; try done.
  apply (f_equal (fmap g)) in He. simpl in He. by rewrite !Hg in He.
Qed.

Lemma links_only_valid s s' p : links_only s s' → is_Some (read_ps s' p) ↔ is_Some (read_ps s p).
Proof.
  intros He. apply (erase_session_read _ _ _ p) in He.
  destruct (read_ps s' p), (read_ps s p); simpl in *; try done; split; intros []; done.
Qed.

(* store characterisations *)
Lemma store_next_spec s p n v :
  read_ps s p = Some v →
  ∃ s', store p (set_next_quadrant_ps n) s = Some (tt, s')
    ∧ nexts_only s s'
    ∧ next_of s' p = Some n
    ∧ (∀ q, q ≠ p → next_of s' q = next_of s q).
Proof.
  intros Hr. exists (write_ps p (set_next_quadrant_ps n v) s). unfold store. rewrite Hr.
  split; [done|]. split; [|split].
  - unfold nexts_only. by eapply erase_session_write.
  - unfold next_of. by erewrite read_write_eq.
  - intros q Hq. unfold next_of. by rewrite read_write_ne.
Qed.

Lemma store_flags_spec s p (g : paint_struct → Z) v :
  read_ps s p = Some v →
  ∃ s', store p (λ v, set_quadrant_flags (g v) v) s = Some (tt, s')
    ∧ flags_only s s'
    ∧ read_ps s' p = Some (set_quadrant_flags (g v) v)
    ∧ (∀ q, q ≠ p → read_ps s' q = read_ps s q).
Proof.
  intros Hr. exists (write_ps p (set_quadrant_flags (g v) v) s). unfold store. rewrite Hr.
  split; [done|]. split; [|split].
  - unfold flags_only. by eapply erase_session_write.
  - by erewrite read_write_eq.
  - intros q Hq. by rewrite read_write_ne.
Qed.

(* list segments *)
Lemma lseg_app s p l1 l2 q :
  lseg s p (l1 ++ l2) q ↔ ∃ m, lseg s p l1 m ∧ lseg s m l2 q.
Proof.
  revert p. induction l1 as [|a l1 IH]; intros p; simpl.
  - split; [intros Hl; eauto | intros (m & -> & Hl); done].
  - split.
    + intros (-> & n & Hn & Hl). apply IH in Hl as (m & H1 & H2). eauto 10.
    + intros (m & (-> & n & Hn & H1) & H2). split; [done|]. exists n. split; [done|].
      apply IH. eauto.
Qed.

Lemma lseg_ext s s' p l q :
  (∀ a, a ∈ l → next_of s' a = next_of s a) → lseg s p l q → lseg s' p l q.
Proof.
  revert p. induction l as [|a l IH]; intros p Hext; simpl; [done|].
  intros (-> & n & Hn & Hl). split; [done|]. exists n. split.
  - rewrite Hext; [done | left].
  - apply IH; [|done]. intros b Hb. apply Hext. by right.
Qed.

Lemma lseg_flags_only s s' p l q : flags_only s s' → lseg s p l q → lseg s' p l q.
Proof. intros He. apply lseg_ext. intros a _. by apply flags_only_next. Qed.

Lemma lseg_valid s p l q a : lseg s p l q → a ∈ l → is_Some (read_ps s a).
Proof.
  revert p. induction l as [|b l IH]; intros p; simpl; [by intros _ ?%elem_of_nil|].
  intros (-> & n & Hn & Hl) [->|Hin]%elem_of_cons; [|eauto].
  unfold next_of in Hn. destruct (read_ps s b); [eauto | done].
Qed.

Lemma lseg_snoc s p l a q :
  lseg s p (l ++ [a]) q ↔ lseg s p l (Some a) ∧ next_of s a = Some q.
Proof.
  rewrite lseg_app. simpl. split.
  - intros (m & H1 & -> & n & Hn & ->). done.
  - intros (H1 & Hn). exists (Some a). eauto.
Qed.


Section ArrangeProperties.
Context `{PaintHeaders}.

(** ** The loops of the arranger *)

Lemma next_of_read s p n : next_of s p = Some n → ∃ v, read_ps s p = Some v ∧ next_quadrant_ps v = n.
Proof. unfold next_of. destruct (read_ps s p) as [v|]; [|done]. intros [= <-]. eauto. Qed.

Lemma lseg_cons_inv s a l q :
  lseg s (Some a) (a :: l) q →
  ∃ v, read_ps s a = Some v ∧ lseg s (next_quadrant_ps v) l q.
Proof.
  simpl. intros (_ & n & Hn & Hl). apply next_of_read in Hn as (v & Hv & <-). eauto.
Qed.

Lemma lseg_Some_inv s a l q :
  lseg s (Some a) l q → q ≠ Some a → ∃ l', l = a :: l'.
Proof. destruct l as [|b l]; simpl; [congruence|]. intros ([= ->] & _) _. eauto. Qed.

Lemma lseg_None_inv s l : lseg s None l None → l = [].
Proof. destruct l; simpl; [done|]. by intros [? _]. Qed.

Lemma arrange_walk_spec (l : list paint_struct_ptr) :
  ∀ (fuel : nat) (s : paint_session) (p : paint_struct_ptr),
    lseg s (Some p) (p :: l) None → (length l < fuel)%nat →
    ∃ l1 x, p :: l = l1 ++ [x] ∧ arrange_walk fuel p s = Some (x, s).
Proof.
  induction l as [|a l IH]; intros fuel s p Hl Hf; destruct fuel as [|fuel]; try (simpl in Hf; lia).
  - apply lseg_cons_inv in Hl as (v & Hv & Hl). simpl in Hl.
    exists [], p. simpl. munfold. by rewrite Hv, Hl.
  - apply lseg_cons_inv in Hl as (v & Hv & Hl).
    destruct (next_quadrant_ps v) as [n|] eqn:Hn; [|by destruct Hl].
    assert (n = a) as -> by (by destruct Hl as [[= ->] _]).
    destruct (IH fuel s a Hl) as (l1 & x & Hdec & Hrun); [simpl in Hf; lia|].
    exists (p :: l1), x. split; [by rewrite Hdec|].
    cbn [arrange_walk]. munfold. by rewrite Hv, Hn.
Qed.

Lemma arrange_skip_spec (l : list paint_struct_ptr) :
  ∀ (fuel : nat) (qi : Z) (s : paint_session) (p : paint_struct_ptr),
    lseg s (Some p) (p :: l) None → (length l < fuel)%nat →
    ∃ ps nxt l1 l2, arrange_skip fuel qi p s = Some ((ps, nxt), s)
      ∧ p :: l = l1 ++ ps :: l2.
Proof.
  induction l as [|a l IH]; intros fuel qi s p Hl Hf; destruct fuel as [|fuel]; try (simpl in Hf; lia).
  - apply lseg_cons_inv in Hl as (v & Hv & Hl). simpl in Hl.
    exists p, None, [], []. simpl. munfold. by rewrite Hv, Hl.
  - apply lseg_cons_inv in Hl as (v & Hv & Hl).
    destruct (next_quadrant_ps v) as [n|] eqn:Hn; [|by destruct Hl].
    assert (n = a) as -> by (by destruct Hl as [[= ->] _]).
    destruct (lseg_cons_inv _ _ _ _ Hl) as (va & Hva & _).
    cbn [arrange_skip]. munfold. rewrite Hv, Hn, Hva.
    destruct (qi >? quadrant_index va).
    + destruct (IH fuel qi s a Hl) as (ps & nxt & l1 & l2 & Hrun & Hdec); [simpl in Hf; lia|].
      exists ps, nxt, (p :: l1), l2. split; [done|]. by rewrite Hdec.
    + exists p, (Some a), [], (a :: l). done.
Qed.

Lemma arrange_tag_spec (l : list paint_struct_ptr) :
  ∀ (fuel : nat) (qi flag : Z) (s : paint_session) (p : paint_struct_ptr),
    lseg s (Some p) (p :: l) None → (length l < fuel)%nat →
    ∃ s', arrange_tag fuel qi flag p s = Some (tt, s') ∧ flags_only s s'.
Proof.
  induction l as [|a l IH]; intros fuel qi flag s p Hl Hf; destruct fuel as [|fuel]; try (simpl in Hf; lia).
  - apply lseg_cons_inv in Hl as (v & Hv & Hl). simpl in Hl.
    exists s. simpl. munfold. by rewrite Hv, Hl.
  - apply lseg_cons_inv in Hl as (v & Hv & Hl).
    destruct (next_quadrant_ps v) as [n|] eqn:Hn; [|by destruct Hl].
    assert (n = a) as -> by (by destruct Hl as [[= ->] _]).
    destruct (lseg_cons_inv _ _ _ _ Hl) as (va & Hva & _).
    cbn [arrange_tag]. unfold mbind, M_bind, mret, M_ret, load. rewrite Hv, Hn, Hva.
    assert (∃ s1, (if quadrant_index va >? qi + 1
         then store a (set_quadrant_flags (uint8 PAINT_QUADRANT_FLAG_BIGGER))
         else if quadrant_index va =? qi + 1
         then store a (set_quadrant_flags
                (uint8 (Z.lor PAINT_QUADRANT_FLAG_NEXT PAINT_QUADRANT_FLAG_IDENTICAL)))
         else if quadrant_index va =? qi
         then store a (set_quadrant_flags (uint8 (Z.lor flag PAINT_QUADRANT_FLAG_IDENTICAL)))
         else (λ s, Some (tt, s))) s = Some (tt, s1) ∧ flags_only s s1) as (s1 & -> & Hs1).
    { repeat case_match;
        try (by exists s);
        match goal with
        | |- context [store a (set_quadrant_flags ?c)] =>
            destruct (store_flags_spec s a (λ _, c) va Hva) as (s1 & Hst & Hfo & _);
            exists s1; split; [exact Hst | done]
        end. }
    destruct (quadrant_index va <=? qi + 1).
    + destruct (IH fuel qi flag s1 a) as (s' & Hrun & Hs'); [by eapply lseg_flags_only | simpl in Hf; lia |].
      exists s'. split; [done|]. by eapply flags_only_trans.
    + by exists s1.
Qed.

Lemma arrange_find_spec (l : list paint_struct_ptr) :
  ∀ (fuel : nat) (s : paint_session) (p : paint_struct_ptr),
    lseg s (Some p) (p :: l) None → (length l < fuel)%nat →
    ∃ r, arrange_find fuel p s = Some (r, s)
      ∧ match r with
        | None => True
        | Some (ps, n) => ∃ l1 l2, p :: l = l1 ++ ps :: n :: l2 ∧ is_identical s n = true
        end.
Proof.
  induction l as [|a l IH]; intros fuel s p Hl Hf; destruct fuel as [|fuel]; try (simpl in Hf; lia).
  - apply lseg_cons_inv in Hl as (v & Hv & Hl). simpl in Hl.
    exists None. simpl. munfold. by rewrite Hv, Hl.
  - apply lseg_cons_inv in Hl as (v & Hv & Hl).
    destruct (next_quadrant_ps v) as [n|] eqn:Hn; [|by destruct Hl].
    assert (n = a) as -> by (by destruct Hl as [[= ->] _]).
    destruct (lseg_cons_inv _ _ _ _ Hl) as (va & Hva & _).
    cbn [arrange_find]. munfold. rewrite Hv, Hn, Hva.
    destruct (has_flag (quadrant_flags va) PAINT_QUADRANT_FLAG_BIGGER); [by exists None|].
    destruct (has_flag (quadrant_flags va) PAINT_QUADRANT_FLAG_IDENTICAL) eqn:Hid.
    + exists (Some (p, a)). split; [done|]. exists [], l. split; [done|].
      unfold is_identical. by rewrite Hva.
    + destruct (IH fuel s a Hl) as (r & Hrun & Hr); [simpl in Hf; lia|].
      exists r. split; [done|]. destruct r as [[ps n]|]; [|done].
      destruct Hr as (l1 & l2 & Hdec & Hidn). exists (p :: l1), l2. by rewrite Hdec.
Qed.

Lemma arrange_splice_spec s p0 A ps_temp B ps T C' vT :
  lseg s p0 (A ++ ps_temp :: B ++ ps :: T :: C') None →
  NoDup (A ++ ps_temp :: B ++ ps :: T :: C') →
  read_ps s T = Some vT →
  ∃ s',
    (_ ← store ps (set_next_quadrant_ps (next_quadrant_ps vT));
     t ← load ps_temp;
     _ ← store ps_temp (set_next_quadrant_ps (Some T));
     _ ← store T (set_next_quadrant_ps (next_quadrant_ps t));
     mret (ScanContinue ps)) s = Some (ScanContinue ps, s')
    ∧ nexts_only s s'
    ∧ lseg s' p0 (A ++ ps_temp :: T :: B ++ ps :: C') None.
Proof.
  intros Hl Hnd HvT.
  apply lseg_app in Hl as (m1 & HA & Hl). simpl in Hl. destruct Hl as (-> & n1 & Hn1 & Hl).
  apply lseg_app in Hl as (m2 & HB & Hl). simpl in Hl.
  destruct Hl as (-> & n2 & Hn2 & -> & n3 & Hn3 & HC).
  assert (next_quadrant_ps vT = n3) as Hn3'.
  { unfold next_of in Hn3. rewrite HvT in Hn3. by injection Hn3. }
  apply NoDup_app in Hnd as (HndA & HA_out & Hnd).
  apply NoDup_cons in Hnd as (Htemp_out & Hnd).
  apply NoDup_app in Hnd as (HndB & HB_out & Hnd).
  apply NoDup_cons in Hnd as (Hps_out & Hnd).
  apply NoDup_cons in Hnd as (HT_out & HndC).
  assert (ps ≠ ps_temp) as Hne1 by (intros ->; apply Htemp_out; solve_elem).
  assert (T ≠ ps_temp) as Hne2 by (intros ->; apply Htemp_out; solve_elem).
  assert (T ≠ ps) as Hne3 by (intros ->; apply Hps_out; solve_elem).
  destruct (next_of_read _ _ _ Hn2) as (vps & Hvps & _).
  destruct (store_next_spec s ps (next_quadrant_ps vT) vps Hvps) as (s1 & Hst1 & Hno1 & Hps1 & Hoth1).
  destruct (next_of_read s1 ps_temp n1) as (vt & Hvt & Hvtn); [by rewrite Hoth1|].
  destruct (store_next_spec s1 ps_temp (Some T) vt Hvt) as (s2 & Hst2 & Hno2 & Hps2 & Hoth2).
  destruct (next_of_read s2 T n3) as (vT2 & HvT2 & _); [by rewrite Hoth2, Hoth1|].
  destruct (store_next_spec s2 T (next_quadrant_ps vt) vT2 HvT2) as (s3 & Hst3 & Hno3 & Hps3 & Hoth3).
  exists s3. split; [|split].
  - unfold mbind, M_bind, mret, M_ret. rewrite Hst1. unfold load at 1. rewrite Hvt.
    rewrite Hst2, Hst3. done.
  - eauto using nexts_only_trans.
  - assert (∀ a, a ≠ ps → a ≠ ps_temp → a ≠ T → next_of s3 a = next_of s a) as Hoth.
    { intros a ? ? ?. by rewrite Hoth3, Hoth2, Hoth1. }
    apply lseg_app. exists (Some ps_temp). split.
    { eapply lseg_ext; [|exact HA]. intros a Ha. apply Hoth.
      - intros ->. apply (HA_out ps); [done | solve_elem].
      - intros ->. apply (HA_out ps_temp); [done | solve_elem].
      - intros ->. apply (HA_out T); [done | solve_elem]. }
    simpl. split; [done|]. exists (Some T). split; [by rewrite Hoth3, Hps2|].
    split; [done|]. exists n1. split; [by rewrite Hps3, Hvtn|].
    apply lseg_app. exists (Some ps). split.
    { eapply lseg_ext; [|exact HB]. intros a Ha. apply Hoth.
      - intros ->. apply (HB_out ps); [done | solve_elem].
      - intros ->. apply Htemp_out. solve_elem.
      - intros ->. apply (HB_out T); [done | solve_elem]. }
    simpl. split; [done|]. exists n3. split; [by rewrite Hoth3, Hoth2, Hps1, Hn3'|].
    eapply lseg_ext; [|exact HC]. intros a Ha. apply Hoth.
    + intros ->. apply Hps_out. solve_elem.
    + intros ->. apply Htemp_out. solve_elem.
    + intros ->. by apply HT_out.
Qed.

Lemma Permutation_splice (T : paint_struct_ptr) B ps C :
  T :: B ++ ps :: C ≡ₚ B ++ ps :: T :: C.
Proof.
  rewrite (Permutation_middle B (ps :: C) T). apply Permutation_app_head, perm_swap.
Qed.

(** One turn of the scan, case by case. *)
Lemma arrange_scan_body_end rotation s p0 F ps ps_temp initial :
  lseg s p0 (F ++ [ps]) None →
  arrange_scan_body rotation ps_temp initial ps s = Some (ScanBreak, s).
Proof.
  intros (_ & Hn)%lseg_snoc. apply next_of_read in Hn as (v & Hv & Hn).
  unfold arrange_scan_body. munfold. by rewrite Hv, Hn.
Qed.

Lemma arrange_scan_body_spec rotation s p0 A ps_temp B ps T C' initial vS vT :
  lseg s p0 (A ++ ps_temp :: B ++ ps :: T :: C') None →
  NoDup (A ++ ps_temp :: B ++ ps :: T :: C') →
  read_ps s initial = Some vS →
  read_ps s T = Some vT →
  ∃ r s', arrange_scan_body rotation ps_temp initial ps s = Some (r, s')
    ∧ nexts_only s s'
    ∧ if has_flag (quadrant_flags vT) PAINT_QUADRANT_FLAG_BIGGER then r = ScanBreak ∧ s' = s
      else if negb (has_flag (quadrant_flags vT) PAINT_QUADRANT_FLAG_NEXT)
      then r = ScanContinue T ∧ s' = s
      else if CheckBoundingBox rotation (bounds vS) (bounds vT)
      then r = ScanContinue ps ∧ lseg s' p0 (A ++ ps_temp :: T :: B ++ ps :: C') None
      else r = ScanContinue T ∧ s' = s.
Proof.
  intros Hl Hnd HvS HvT.
  assert (∃ vps, read_ps s ps = Some vps ∧ next_quadrant_ps vps = Some T) as (vps & Hvps & Hnps).
  { apply lseg_app in Hl as (m1 & _ & Hl). simpl in Hl. destruct Hl as (_ & n1 & _ & Hl).
    apply lseg_app in Hl as (m2 & _ & Hl). simpl in Hl.
    destruct Hl as (_ & n2 & Hn2 & -> & _). by apply next_of_read in Hn2. }
  unfold arrange_scan_body.
  unfold mbind at 1 2, M_bind at 1 2, load at 1 2. rewrite Hvps, Hnps, HvT.
  destruct (has_flag (quadrant_flags vT) PAINT_QUADRANT_FLAG_BIGGER).
  { exists ScanBreak, s. done. }
  destruct (negb (has_flag (quadrant_flags vT) PAINT_QUADRANT_FLAG_NEXT)).
  { exists (ScanContinue T), s. done. }
  unfold mbind at 1, M_bind at 1, load at 1. rewrite HvS.
  destruct (CheckBoundingBox rotation (bounds vS) (bounds vT)).
  - destruct (arrange_splice_spec s p0 A ps_temp B ps T C' vT Hl Hnd HvT) as (s' & Hrun & Hno & Hl').
    exists (ScanContinue ps), s'. done.
  - exists (ScanContinue T), s. done.
Qed.

Lemma arrange_scan_spec rotation p0 A ps_temp initial (C : list paint_struct_ptr) :
  ∀ (fuel : nat) (s : paint_session) B ps,
    lseg s p0 (A ++ ps_temp :: B ++ ps :: C) None →
    NoDup (A ++ ps_temp :: B ++ ps :: C) →
    is_Some (read_ps s initial) →
    (length C < fuel)%nat →
    ∃ s' R, arrange_scan fuel rotation ps_temp initial ps s = Some (tt, s')
      ∧ nexts_only s s'
      ∧ lseg s' p0 (A ++ ps_temp :: R) None
      ∧ R ≡ₚ B ++ ps :: C.
Proof.
  induction C as [|T C' IH]; intros fuel s B ps Hl Hnd [vS HvS] Hf;
    destruct fuel as [|fuel]; try (simpl in Hf; lia).
  - exists s, (B ++ [ps]). cbn [arrange_scan]. unfold mbind, M_bind.
    rewrite (arrange_scan_body_end rotation s p0 (A ++ ps_temp :: B)).
    + done.
    + by rewrite <- app_assoc.
  - assert (is_Some (read_ps s T)) as [vT HvT].
    { eapply lseg_valid; [exact Hl|]. solve_elem. }
    destruct (arrange_scan_body_spec rotation s p0 A ps_temp B ps T C' initial vS vT)
      as (r & s1 & Hrun & Hno & Hcase); try done.
    cbn [arrange_scan]. unfold mbind, M_bind. rewrite Hrun.
    assert (r = ScanBreak ∧ s1 = s
            ∨ r = ScanContinue T ∧ s1 = s
            ∨ r = ScanContinue ps ∧ lseg s1 p0 (A ++ ps_temp :: T :: B ++ ps :: C') None)
      as [[-> ->] | [[-> ->] | [-> Hl1]]].
    { destruct (has_flag _ PAINT_QUADRANT_FLAG_BIGGER); [auto|].
      destruct (negb _); [auto|]. destruct (CheckBoundingBox _ _ _); auto. }
    + exists s, (B ++ ps :: T :: C'). done.
    + destruct (IH fuel s (B ++ [ps]) T) as (s' & R & Hrun' & Hno' & Hl' & Hperm).
      * by rewrite <- app_assoc.
      * by rewrite <- app_assoc.
      * eauto.
      * simpl in Hf. lia.
      * exists s', R. split; [done|]. split; [done|]. split; [done|].
        by rewrite Hperm, <- app_assoc.
    + destruct (IH fuel s1 (T :: B) ps) as (s' & R & Hrun' & Hno' & Hl' & Hperm).
      * done.
      * eapply NoDup_Permutation_proper; [|exact Hnd].
        apply Permutation_app_head, perm_skip. apply Permutation_splice.
      * apply (links_only_valid s s1); [by apply nexts_only_links | eauto].
      * simpl in Hf. lia.
      * exists s', R. split; [done|]. split; [by eapply nexts_only_trans|]. split; [done|].
        rewrite Hperm. apply Permutation_splice.
Qed.

(** The measure of the main loop: the entries that still carry
    [PAINT_QUADRANT_FLAG_IDENTICAL]. *)
Lemma count_identical_le s l : (count_identical s l ≤ length l)%nat.
Proof. apply List.filter_length_le. Qed.

Lemma count_identical_ext s s' l :
  (∀ a, a ∈ l → is_identical s' a = is_identical s a) →
  count_identical s' l = count_identical s l.
Proof.
  unfold count_identical. induction l as [|a l IH]; intros Hext; [done|]. simpl.
  rewrite (Hext a) by left. destruct (is_identical s a); simpl; rewrite IH; try done;
    intros b Hb; apply Hext; by right.
Qed.

Lemma count_identical_perm s l l' : l ≡ₚ l' → count_identical s l = count_identical s l'.
Proof.
  unfold count_identical. induction 1 as [|a l l' _ IH|a b l|l1 l2 l3 _ IH1 _ IH2]; simpl.
  - done.
  - destruct (is_identical s a); simpl; by rewrite IH.
  - destruct (is_identical s a), (is_identical s b); done.
  - by rewrite IH1.
Qed.

Lemma count_identical_clear s s' l n :
  NoDup l → n ∈ l → is_identical s n = true → is_identical s' n = false →
  (∀ a, a ≠ n → is_identical s' a = is_identical s a) →
  S (count_identical s' l) = count_identical s l.
Proof.
  unfold count_identical. intros Hnd Hin Hn Hn' Hoth.
  induction l as [|a l IH]; [by apply elem_of_nil in Hin|].
  apply NoDup_cons in Hnd as [Ha Hnd]. simpl.
  destruct (decide (a = n)) as [->|Hne].
  - rewrite Hn, Hn'. simpl. f_equal. apply (count_identical_ext s s' l).
    intros b Hb. apply Hoth. by intros ->.
  - rewrite (Hoth a Hne). apply elem_of_cons in Hin as [->|Hin]; [done|].
    destruct (is_identical s a); simpl; by rewrite <- IH.
Qed.

Lemma has_flag_cleared f flag : has_flag (uint8 (Z.land f (Z.lnot flag))) flag = false.
Proof.
  unfold has_flag, uint8. apply negb_false_iff, Z.eqb_eq, Z.bits_inj'. intros n Hn.
  rewrite Z.land_spec, Z.bits_0.
  destruct (Z.testbit flag n) eqn:Hflag; [|by rewrite andb_false_r].
  rewrite andb_true_r.
  destruct (Z.lt_ge_cases n 8) as [Hlt|Hge].
  - rewrite Z.mod_pow2_bits_low, Z.land_spec, Z.lnot_spec, Hflag by lia. by rewrite andb_false_r.
  - by rewrite Z.mod_pow2_bits_high by lia.
Qed.

Lemma nexts_only_identical s s' a : nexts_only s s' → is_identical s' a = is_identical s a.
Proof.
  intros Hno. unfold is_identical.
  pose proof (nexts_only_field quadrant_flags s s' a (λ _ _, eq_refl) Hno) as Hq.
  destruct (read_ps s' a), (read_ps s a); simpl in Hq; try done. by injection Hq as ->.
Qed.

Lemma arrange_main_spec rotation p0 ps_cache (fuel : nat) :
  ∀ (s : paint_session) (F : list paint_struct_ptr) (ps : paint_struct_ptr),
    lseg s p0 F None → NoDup F → ps ∈ F →
    (count_identical s F + length F < fuel)%nat →
    ∃ s' F', arrange_main fuel rotation ps_cache ps s = Some (ps_cache, s')
      ∧ links_only s s' ∧ lseg s' p0 F' None ∧ F' ≡ₚ F.
Proof.
  induction fuel as [|fuel IH]; intros s F ps Hl Hnd Hin Hf; [lia|].
  apply list_elem_of_split in Hin as (A & R & ->).
  assert (lseg s (Some ps) (ps :: R) None) as Hsub.
  { apply lseg_app in Hl as (m & _ & Hl). destruct Hl as [-> Hl]. by split. }
  destruct (arrange_find_spec R fuel s ps Hsub) as (r & Hfind & Hr).
  { rewrite length_app in Hf. simpl in Hf. lia. }
  cbn [arrange_main]. unfold mbind at 1, M_bind at 1. rewrite Hfind.
  destruct r as [[ps' n]|]; [|by exists s, (A ++ ps :: R)].
  destruct Hr as (l1 & l2 & Hdec & Hid).
  assert (A ++ ps :: R = (A ++ l1) ++ ps' :: [] ++ n :: l2) as HF.
  { by rewrite Hdec, <- app_assoc. }
  rewrite HF in Hl, Hnd, Hf |- *. clear HF Hsub Hfind Hdec.
  set (F := (A ++ l1) ++ ps' :: [] ++ n :: l2) in *.
  assert (n ∈ F) as HnF by (subst F; solve_elem).
  destruct (lseg_valid _ _ _ _ n Hl HnF) as [vn Hvn].
  destruct (store_flags_spec s n
    (λ v, uint8 (Z.land (quadrant_flags v) (Z.lnot PAINT_QUADRANT_FLAG_IDENTICAL))) vn Hvn)
    as (s1 & Hst & Hfo & Hn1 & Hoth1).
  unfold mbind at 1, M_bind at 1. rewrite Hst.
  assert (S (count_identical s1 F) = count_identical s F) as Hcount.
  { apply (count_identical_clear s s1 F n); try done.
    - unfold is_identical. rewrite Hn1. simpl. apply has_flag_cleared.
    - intros a Ha. unfold is_identical. by rewrite Hoth1. }
  destruct (arrange_scan_spec rotation p0 (A ++ l1) ps' n l2 fuel s1 [] n)
    as (s2 & R2 & Hscan & Hno & Hl2 & Hperm).
  { by eapply lseg_flags_only. }
  { done. }
  { by rewrite Hn1. }
  { subst F. rewrite !length_app in Hf. simpl in Hf. lia. }
  unfold mbind at 1, M_bind at 1. rewrite Hscan.
  assert ((A ++ l1) ++ ps' :: R2 ≡ₚ F) as HpermF.
  { subst F. by rewrite Hperm. }
  destruct (IH s2 ((A ++ l1) ++ ps' :: R2) ps') as (s' & F' & Hrun & Hlo & Hl' & Hperm').
  { done. }
  { by rewrite HpermF. }
  { solve_elem. }
  { rewrite (count_identical_ext s1 s2) by (intros; by apply nexts_only_identical).
    rewrite (count_identical_perm s1 _ F HpermF), (Permutation_length HpermF). lia. }
  exists s', F'. split; [done|]. split; [|split; [done|]].
  - eapply links_only_trans; [by apply flags_only_links|].
    eapply links_only_trans; [by apply nexts_only_links|]. done.
  - by rewrite Hperm', HpermF.
Qed.

Lemma PaintArrangeStructsHelperRotation_spec rotation p0 (fuel : nat) (s : paint_session)
    (F : list paint_struct_ptr) (ps_next : paint_struct_ptr) (quadrantIndex flag : Z) :
  lseg s p0 F None → NoDup F → ps_next ∈ F →
  (2 * length F < fuel)%nat →
  ∃ r s' F', PaintArrangeStructsHelperRotation fuel rotation ps_next quadrantIndex flag s
             = Some (r, s')
    ∧ r ∈ F' ∧ links_only s s' ∧ lseg s' p0 F' None ∧ F' ≡ₚ F.
Proof.
  intros Hl Hnd Hin Hf.
  apply list_elem_of_split in Hin as (A & R & ->).
  assert (lseg s (Some ps_next) (ps_next :: R) None) as Hsub.
  { apply lseg_app in Hl as (m & _ & Hl). destruct Hl as [-> Hl]. by split. }
  rewrite length_app in Hf. simpl in Hf.
  destruct (arrange_skip_spec R fuel quadrantIndex s ps_next Hsub)
    as (ps & nxt & l1 & l2 & Hskip & Hdec); [lia|].
  unfold PaintArrangeStructsHelperRotation. unfold mbind at 1, M_bind at 1. rewrite Hskip.
  assert (ps ∈ A ++ ps_next :: R) as Hps by (rewrite Hdec; solve_elem).
  destruct nxt as [n|].
  2:{ exists ps, s, (A ++ ps_next :: R). done. }
  assert (lseg s (Some ps) (ps :: l2) None) as Hsub2.
  { rewrite Hdec in Hsub. apply lseg_app in Hsub as (m & _ & Hl2). destruct Hl2 as [-> Hl2].
    by split. }
  destruct (arrange_tag_spec l2 fuel quadrantIndex flag s ps Hsub2) as (s1 & Htag & Hfo).
  { apply (f_equal length) in Hdec. rewrite length_app in Hdec. simpl in Hdec. lia. }
  unfold mbind at 1, M_bind at 1. rewrite Htag.
  destruct (arrange_main_spec rotation p0 ps fuel s1 (A ++ ps_next :: R) ps)
    as (s' & F' & Hmain & Hlo & Hl' & Hperm); try done.
  { by eapply lseg_flags_only. }
  { pose proof (count_identical_le s1 (A ++ ps_next :: R)) as Hle.
    rewrite length_app in *. simpl in *. lia. }
  exists ps, s', F'. split; [done|]. split; [by rewrite Hperm|]. split; [|done].
  eapply links_only_trans; [by apply flags_only_links | done].
Qed.

Lemma erase_session_fields f s s' :
  erase_session f s' = erase_session f s →
  Quadrants s' = Quadrants s
  ∧ QuadrantBackIndex s' = QuadrantBackIndex s
  ∧ QuadrantFrontIndex s' = QuadrantFrontIndex s
  ∧ CurrentRotation s' = CurrentRotation s.
Proof.
  intros He. repeat split.
  - by apply (f_equal Quadrants) in He.
  - by apply (f_equal QuadrantBackIndex) in He.
  - by apply (f_equal QuadrantFrontIndex) in He.
  - by apply (f_equal CurrentRotation) in He.
Qed.

Lemma PaintArrangeStructsHelper_spec rotation p0 (fuel : nat) (s : paint_session)
    (F : list paint_struct_ptr) (ps_next : paint_struct_ptr) (quadrantIndex flag : Z) :
  0 ≤ rotation ≤ 3 →
  lseg s p0 F None → NoDup F → ps_next ∈ F →
  (2 * length F < fuel)%nat →
  ∃ r s' F', PaintArrangeStructsHelper fuel ps_next quadrantIndex flag rotation s
             = Some (Some r, s')
    ∧ r ∈ F' ∧ links_only s s' ∧ lseg s' p0 F' None ∧ F' ≡ₚ F.
Proof.
  intros Hrot Hl Hnd Hin Hf.
  destruct (PaintArrangeStructsHelperRotation_spec rotation p0 fuel s F ps_next quadrantIndex flag)
    as (r & s' & F' & Hrun & Hpost); try done.
  exists r, s', F'. split; [|done].
  unfold PaintArrangeStructsHelper.
  assert (rotation = 0 ∨ rotation = 1 ∨ rotation = 2 ∨ rotation = 3) as [-> | [-> | [-> | ->]]]
    by lia; unfold mbind, M_bind; by rewrite Hrun.
Qed.

Lemma uint32_small v : 0 ≤ v < 2 ^ 32 → uint32 v = v.
Proof. intros Hv. unfold uint32. by apply Z.mod_small. Qed.

Lemma arrange_windows_spec p0 (n : nat) :
  ∀ (fuel : nat) (s : paint_session) (F : list paint_struct_ptr) (quadrantIndex : Z)
    (p : paint_struct_ptr),
    0 ≤ CurrentRotation s ≤ 3 →
    lseg s p0 F None → NoDup F → p ∈ F →
    0 ≤ quadrantIndex ≤ QuadrantFrontIndex s → QuadrantFrontIndex s < 2 ^ 32 - 1 →
    QuadrantFrontIndex s - quadrantIndex ≤ Z.of_nat n →
    (n + 2 * length F < fuel)%nat →
    ∃ s' F', arrange_windows fuel quadrantIndex (Some p) s = Some (tt, s')
      ∧ links_only s s' ∧ lseg s' p0 F' None ∧ F' ≡ₚ F.
Proof.
  induction n as [|n IH]; intros fuel s F qi p Hrot Hl Hnd Hin Hqi Hfront Hn Hf;
    (destruct fuel as [|fuel]; [lia|]); cbn [arrange_windows]; unfold mbind at 1, M_bind at 1, get;
    rewrite uint32_small by lia.
  - destruct (Z.ltb_spec (qi + 1) (QuadrantFrontIndex s)); [lia|]. by exists s, F.
  - destruct (Z.ltb_spec (qi + 1) (QuadrantFrontIndex s)) as [Hlt|Hge]; [|by exists s, F].
    unfold mbind at 1, M_bind at 1, liftO.
    destruct (PaintArrangeStructsHelper_spec (CurrentRotation s) p0 fuel s F p
                (Z.land (qi + 1) 65535) 0) as (r & s1 & F1 & Hrun & Hr & Hlo & Hl1 & Hperm);
      try done; [lia|].
    unfold mbind at 1, M_bind at 1. rewrite Hrun.
    destruct (erase_session_fields _ _ _ Hlo) as (_ & _ & HF & HR).
    destruct (IH fuel s1 F1 (qi + 1) r) as (s' & F' & Hrun' & Hlo' & Hl' & Hperm').
    all: rewrite ?HF, ?HR; try done; try lia.
    + by rewrite Hperm.
    + rewrite (Permutation_length Hperm). lia.
    + exists s', F'. split; [done|]. split; [by eapply links_only_trans|]. split; [done|].
      by rewrite Hperm'.
Qed.

Lemma buckets_at_ext s s' quadrantIndex bs :
  Quadrants s' = Quadrants s →
  (∀ a, a ∈ concat bs → next_of s' a = next_of s a) →
  buckets_at s quadrantIndex bs → buckets_at s' quadrantIndex bs.
Proof.
  intros HQ. revert quadrantIndex. induction bs as [|b bs IH]; intros qi Hext; simpl; [done|].
  intros [(h & Hh & Hb) Hbs]. split.
  - exists h. rewrite HQ. split; [done|]. eapply lseg_ext; [|done].
    intros a Ha. apply Hext. simpl. solve_elem.
  - apply IH; [|done]. intros a Ha. apply Hext. simpl. solve_elem.
Qed.

Lemma arrange_merge_bucket p0 (s : paint_session) (Acc : list paint_struct_ptr)
    (ps : paint_struct_ptr) (h : option paint_struct_ptr) (b : list paint_struct_ptr)
    (fuel : nat) :
  lseg s p0 (Acc ++ [ps]) None →
  lseg s h b None →
  NoDup (Acc ++ [ps] ++ b) →
  (length b ≤ fuel)%nat →
  ∃ s1 Acc1 ps1,
    (match h with
     | Some ps_next =>
         _ ← store ps (set_next_quadrant_ps (Some ps_next)); arrange_walk fuel ps_next
     | None => mret ps
     end) s = Some (ps1, s1)
    ∧ nexts_only s s1
    ∧ (∀ a, a ≠ ps → next_of s1 a = next_of s a)
    ∧ lseg s1 p0 (Acc1 ++ [ps1]) None
    ∧ Acc1 ++ [ps1] = (Acc ++ [ps]) ++ b.
Proof.
  intros Hl Hb Hnd Hf. destruct h as [h0|].
  2:{ apply lseg_None_inv in Hb as ->. exists s, Acc, ps. by rewrite app_nil_r. }
  destruct (lseg_Some_inv _ _ _ _ Hb) as [b' ->]; [done|].
  apply NoDup_app in Hnd as (_ & HAcc_out & Hnd).
  apply NoDup_app in Hnd as (_ & Hps_out & _).
  pose proof Hl as Hl0.
  apply lseg_snoc in Hl as [HAcc Hps]. apply next_of_read in Hps as (vps & Hvps & _).
  destruct (store_next_spec s ps (Some h0) vps Hvps) as (s1 & Hst & Hno & Hps1 & Hoth).
  assert (lseg s1 (Some h0) (h0 :: b') None) as Hb1.
  { eapply lseg_ext; [|exact Hb]. intros a Ha. apply Hoth. intros ->.
    apply (Hps_out ps); [by left | done]. }
  assert (lseg s1 p0 ((Acc ++ [ps]) ++ h0 :: b') None) as Hl1.
  { apply lseg_app. exists (Some h0). split; [|done]. apply lseg_snoc. split; [|done].
    eapply lseg_ext; [|exact HAcc]. intros a Ha. apply Hoth. intros ->.
    apply (HAcc_out ps Ha). by left. }
  destruct (arrange_walk_spec b' fuel s1 h0 Hb1) as (l1 & x & Hdec & Hwalk);
    [simpl in Hf; lia|].
  exists s1, ((Acc ++ [ps]) ++ l1), x. unfold mbind, M_bind. rewrite Hst, Hwalk.
  split; [done|]. split; [done|]. split; [done|].
  rewrite Hdec in Hl1 |- *. rewrite <- !app_assoc in *. done.
Qed.

Lemma arrange_merge_spec p0 (bs : list (list paint_struct_ptr)) :
  ∀ (b : list paint_struct_ptr) (fuel : nat) (s : paint_session) (quadrantIndex : Z)
    (Acc : list paint_struct_ptr) (ps : paint_struct_ptr),
    lseg s p0 (Acc ++ [ps]) None →
    buckets_at s quadrantIndex (b :: bs) →
    NoDup ((Acc ++ [ps]) ++ concat (b :: bs)) →
    0 ≤ quadrantIndex →
    QuadrantFrontIndex s = quadrantIndex + Z.of_nat (length bs) →
    QuadrantFrontIndex s < 2 ^ 32 - 1 →
    (length (b :: bs) + length (concat (b :: bs)) < fuel)%nat →
    ∃ s', arrange_merge fuel quadrantIndex ps s = Some (tt, s')
      ∧ nexts_only s s'
      ∧ lseg s' p0 ((Acc ++ [ps]) ++ concat (b :: bs)) None.
Proof.
  induction bs as [|b2 bs IH]; intros b fuel s qi Acc ps Hl [(h & Hh & Hb) Hbs] Hnd Hqi HF Hfront Hf.
  - destruct fuel as [|fuel]; [simpl in Hf; lia|].
    rewrite concat_cons, concat_nil, app_nil_r in *.
    cbn [arrange_merge]. unfold mbind at 1 2, M_bind at 1 2, get, liftO. rewrite Hh.
    destruct (arrange_merge_bucket p0 s Acc ps h b fuel)
      as (s1 & Acc1 & ps1 & Hrun1 & Hno & Hoth & Hl1 & Hdec); try done.
    { by rewrite app_assoc. }
    { simpl in Hf. lia. }
    unfold mbind at 1, M_bind at 1. rewrite Hrun1.
    rewrite uint32_small by lia.
    destruct (Z.leb_spec (qi + 1) (QuadrantFrontIndex s)); [simpl in HF; lia|].
    exists s1. split; [done|]. split; [done|]. by rewrite <- Hdec.
  - destruct fuel as [|fuel]; [simpl in Hf; lia|].
    rewrite concat_cons in *.
    cbn [arrange_merge]. unfold mbind at 1 2, M_bind at 1 2, get, liftO. rewrite Hh.
    rewrite app_assoc in Hnd.
    destruct (arrange_merge_bucket p0 s Acc ps h b fuel)
      as (s1 & Acc1 & ps1 & Hrun1 & Hno & Hoth & Hl1 & Hdec); try done.
    { rewrite app_assoc. by apply NoDup_app in Hnd as (Hnd & _ & _). }
    { simpl in Hf. rewrite length_app in Hf. lia. }
    unfold mbind at 1, M_bind at 1. rewrite Hrun1.
    rewrite uint32_small by lia.
    destruct (Z.leb_spec (qi + 1) (QuadrantFrontIndex s)); [|simpl in HF; lia].
    destruct (erase_session_fields _ _ _ Hno) as (HQ & _ & HFr & _).
    destruct (IH b2 fuel s1 (qi + 1) Acc1 ps1) as (s' & Hrun & Hno' & Hl').
    + done.
    + eapply buckets_at_ext; [done| |exact Hbs]. intros a Ha. apply Hoth. intros ->.
      apply NoDup_app in Hnd as (_ & Hnd & _).
      apply (Hnd ps); [|done]. solve_elem.
    + by rewrite Hdec.
    + lia.
    + rewrite HFr, HF. simpl. lia.
    + by rewrite HFr.
    + simpl in *. rewrite ?length_app in *. lia.
    + exists s'. split; [done|]. split; [by eapply nexts_only_trans|].
      rewrite Hdec in Hl'. by rewrite app_assoc.
Qed.

Lemma PaintSessionArrange_spec (s : paint_session) (bs : list (list paint_struct_ptr))
    (fuel : nat) :
  arrange_ready s bs →
  (Z.to_nat MAX_PAINT_QUADRANTS + 2 * length (concat bs) + 2 < fuel)%nat →
  ∃ s' chain,
    PaintSessionArrange fuel s = Some (tt, s')
    ∧ lseg s' (Some PaintHeadPtr) (PaintHeadPtr :: chain) None
    ∧ chain ≡ₚ concat bs
    ∧ links_only s s'.
Proof.
  intros (Hrot & Hnd & Hcase) Hf.
  pose proof MAX_PAINT_QUADRANTS_range as HMAX.
  destruct (store_next_spec s PaintHeadPtr None (PaintHead s) eq_refl)
    as (s0 & Hst & Hno0 & Hhead & Hoth0).
  destruct (erase_session_fields _ _ _ Hno0) as (HQ0 & HB0 & HF0 & HR0).
  unfold PaintSessionArrange. cbv zeta. unfold mbind at 1 2, M_bind at 1 2, get. rewrite Hst.
  cbv beta iota zeta. rewrite !HB0, HR0.
  assert (lseg s0 (Some PaintHeadPtr) ([] ++ [PaintHeadPtr]) None) as Hl0.
  { simpl. split; [done|]. by exists None. }
  destruct Hcase as [[HB Hempty] | (HB & Hlen & HF & Hne & Hbs)].
  { rewrite HB. simpl. exists s0, []. rewrite Hempty.
    split; [done|]. split; [done|]. split; [done|]. by apply nexts_only_links. }
  assert ((QuadrantBackIndex s =? UINT32_MAX) = false) as -> by (apply Z.eqb_neq; unfold UINT32_MAX; lia).
  change (negb false) with true. cbv beta iota.
  destruct bs as [|b bs]; [done|]. clear Hne.
  destruct (arrange_merge_spec (Some PaintHeadPtr) bs b fuel s0 (QuadrantBackIndex s) []
              PaintHeadPtr) as (s1 & Hmerge & Hno1 & Hl1); try done.
  { eapply buckets_at_ext; [done| |exact Hbs]. intros a Ha. apply Hoth0. intros ->.
    apply NoDup_cons in Hnd as [Hnd _]. done. }
  { rewrite HF0. simpl in Hlen. lia. }
  { rewrite HF0. lia. }
  { assert (length (b :: bs) ≤ Z.to_nat MAX_PAINT_QUADRANTS)%nat by lia. lia. }
  unfold mbind at 1, M_bind at 1. rewrite Hmerge.
  destruct (erase_session_fields _ _ _ Hno1) as (HQ1 & HB1 & HF1 & HR1).
  set (F := ([] ++ [PaintHeadPtr]) ++ concat (b :: bs)) in *.
  assert (F = PaintHeadPtr :: concat (b :: bs)) as HFeq by done.
  clearbody F. subst F.
  destruct (PaintArrangeStructsHelper_spec (CurrentRotation s) (Some PaintHeadPtr) fuel s1
              (PaintHeadPtr :: concat (b :: bs))
              PaintHeadPtr (Z.land (QuadrantBackIndex s) 65535) PAINT_QUADRANT_FLAG_NEXT)
    as (r & s2 & F2 & Hhelper & Hr & Hlo2 & Hl2 & Hperm2);
    [done | done | done | by left | simpl; simpl in Hf; lia | ].
  unfold mbind at 1, M_bind at 1. rewrite Hhelper.
  destruct (erase_session_fields _ _ _ Hlo2) as (HQ2 & HB2 & HF2 & HR2).
  destruct (arrange_windows_spec (Some PaintHeadPtr) (length bs) fuel s2 F2
              (QuadrantBackIndex s) r) as (s3 & F3 & Hwin & Hlo3 & Hl3 & Hperm3).
  { rewrite HR2, HR1, HR0. done. }
  { done. }
  { by rewrite Hperm2. }
  { done. }
  { rewrite HF2, HF1, HF0. simpl in Hlen. lia. }
  { rewrite HF2, HF1, HF0. lia. }
  { rewrite HF2, HF1, HF0. simpl in Hlen. lia. }
  { rewrite (Permutation_length Hperm2). simpl in *.
    assert (length bs < Z.to_nat MAX_PAINT_QUADRANTS)%nat by lia. lia. }
  rewrite Hwin.
  assert (F3 ≡ₚ PaintHeadPtr :: concat (b :: bs)) as HpermF by (by rewrite Hperm3, Hperm2).
  destruct (lseg_Some_inv _ _ _ _ Hl3) as [chain ->]; [done|].
  exists s3, chain. split; [done|]. split; [done|]. split.
  - eapply Permutation_cons_inv. exact HpermF.
  - eapply links_only_trans; [by apply nexts_only_links|].
    eapply links_only_trans; [by apply nexts_only_links|].
    eapply links_only_trans; [exact Hlo2 | exact Hlo3].
Qed.


End ArrangeProperties.

Section GenerationProperties.
Context `{PaintHeaders}.

(** ** The generation phase *)

Lemma session_extends_refl s : session_extends s s.
Proof. split; eauto. Qed.

Lemma session_extends_trans s1 s2 s3 :
  session_extends s1 s2 → session_extends s2 s3 → session_extends s1 s3.
Proof.
  intros [R1 A1 Q1 B1 F1 C1] [R2 A2 Q2 B2 F2 C2]. split; try congruence; [|eauto].
  intros p v Hv. destruct (R1 p v Hv) as (v' & Hv' & Hn & Hq).
  destruct (R2 p v' Hv') as (v'' & Hv'' & Hn' & Hq'). exists v''. split; [done|]. split; congruence.
Qed.

Lemma session_inv_extends s s' bs :
  session_inv s bs → session_extends s s' → cursors_valid s' → session_inv s' bs.
Proof.
  intros [Hlen Hb Hnd He Hr Hrot _ _] [R A Q B F C] [Hc1 Hc2].
  split; rewrite ?Q, ?B, ?F, ?C; try done.
  - intros q b Hq. destruct (Hb q b Hq) as (h & Hh & Hl). exists h. split; [done|].
    eapply lseg_ext; [|exact Hl]. intros a Ha.
    destruct (He q b a Hq Ha) as (_ & v & Hv & _).
    destruct (R a v Hv) as (v' & Hv' & Hn & _). unfold next_of. rewrite Hv, Hv'. simpl.
    by rewrite Hn.
  - intros q b p Hq Hp. destruct (He q b p Hq Hp) as (Hne & v & Hv & Hqi & Hbr).
    split; [done|]. destruct (R p v Hv) as (v' & Hv' & _ & Hq'). exists v'.
    split; [done|]. split; [congruence | done].
Qed.

(** The elementary steps of the creation functions. *)
Lemma set_paint_context_extends sp it mp cdi s :
  session_extends s (set_paint_context sp it mp cdi s).
Proof. split; try done. intros p v Hv. exists v. by destruct p. Qed.

Lemma set_LastPS_extends o s : session_extends s (set_LastPS o s).
Proof. split; try done. intros p v Hv. exists v. by destruct p. Qed.

Lemma set_LastAttachedPS_extends o s : session_extends s (set_LastAttachedPS o s).
Proof. split; try done. intros p v Hv. exists v. by destruct p. Qed.

Lemma AllocateRootPaintEntry_spec entry s :
  ∃ p s', AllocateRootPaintEntry entry s = Some (p, s')
    ∧ p ≠ PaintHeadPtr
    ∧ read_ps s p = None
    ∧ read_ps s' p = Some entry
    ∧ LastPS s' = Some p
    ∧ LastAttachedPS s' = None
    ∧ session_extends s s'.
Proof.
  eexists _, _. split; [reflexivity|]. split; [done|]. simpl.
  rewrite lookup_ge_None_2 by lia. rewrite lookup_app_r, Nat.sub_diag by lia. simpl.
  repeat split; try done.
  - intros [|i] v; simpl; [eauto|].
    destruct (PaintStructs s !! i) as [e|] eqn:Hi; [|done].
    rewrite lookup_app_l by (by eapply lookup_lt_Some). rewrite Hi. eauto.
  - intros i. unfold read_attached. simpl.
    destruct (PaintStructs s !! i) as [e|] eqn:Hi; [|by intros []].
    rewrite lookup_app_l by (by eapply lookup_lt_Some). by rewrite Hi.
Qed.

Lemma AllocateAttachedPaintEntry_spec entry s :
  ∃ i s', AllocateAttachedPaintEntry entry s = Some (i, s')
    ∧ read_attached s' i = Some entry
    ∧ LastPS s' = LastPS s
    ∧ LastAttachedPS s' = Some i
    ∧ session_extends s s'.
Proof.
  eexists _, _. split; [reflexivity|]. unfold read_attached. simpl.
  rewrite lookup_app_r, Nat.sub_diag by lia. simpl.
  repeat split; try done.
  - intros [|i] v; simpl; [eauto|].
    destruct (PaintStructs s !! i) as [e|] eqn:Hi; [|done].
    rewrite lookup_app_l by (by eapply lookup_lt_Some). rewrite Hi. eauto.
  - intros i. unfold read_attached. simpl.
    destruct (PaintStructs s !! i) as [e|] eqn:Hi; [|by intros []].
    rewrite lookup_app_l by (by eapply lookup_lt_Some). by rewrite Hi.
Qed.

Lemma read_attached_write_ps s p v0 v i :
  read_ps s p = Some v0 → read_attached (write_ps p v s) i = read_attached s i.
Proof.
  destruct p as [|j]; simpl; [done|]. unfold read_attached. simpl.
  destruct (PaintStructs s !! j) as [[]|] eqn:Hj; try done. intros _.
  destruct (decide (j = i)) as [->|Hne].
  - rewrite list_lookup_insert_eq by (by eapply lookup_lt_Some). by rewrite Hj.
  - by rewrite list_lookup_insert_ne.
Qed.

Lemma store_extends s p (f : paint_struct → paint_struct) v :
  read_ps s p = Some v →
  (∀ v, next_quadrant_ps (f v) = next_quadrant_ps v) →
  (∀ v, quadrant_index (f v) = quadrant_index v) →
  ∃ s', store p f s = Some (tt, s')
    ∧ LastPS s' = LastPS s ∧ LastAttachedPS s' = LastAttachedPS s
    ∧ session_extends s s'.
Proof.
  intros Hv Hn Hq. exists (write_ps p (f v) s). unfold store. rewrite Hv.
  split; [done|]. split; [by destruct p|]. split; [by destruct p|]. split.
  - intros q w Hw. destruct (decide (p = q)) as [<-|Hne].
    + exists (f v). erewrite read_write_eq by done. by simplify_eq.
    + exists w. by rewrite read_write_ne.
  - intros i. by erewrite read_attached_write_ps.
  - by destruct p.
  - by destruct p.
  - by destruct p.
  - by destruct p.
Qed.

Lemma store_attached_extends s i (f : attached_paint_struct → attached_paint_struct) a :
  read_attached s i = Some a →
  ∃ s', store_attached i f s = Some (tt, s')
    ∧ LastPS s' = LastPS s ∧ LastAttachedPS s' = LastAttachedPS s
    ∧ session_extends s s'.
Proof.
  intros Ha. exists (write_attached i (f a) s). unfold store_attached. rewrite Ha.
  split; [done|]. split; [done|]. split; [done|].
  unfold read_attached in Ha.
  destruct (PaintStructs s !! i) as [[]|] eqn:Hi; try done.
  split; try done.
  - intros [|j] v; simpl; [eauto|]. destruct (decide (i = j)) as [<-|Hne].
    + by rewrite Hi.
    + rewrite list_lookup_insert_ne by done. eauto.
  - intros j. unfold read_attached. simpl. destruct (decide (i = j)) as [<-|Hne].
    + rewrite list_lookup_insert_eq by (by eapply lookup_lt_Some). eauto.
    + by rewrite list_lookup_insert_ne.
Qed.

Lemma clamp_range v lo hi : lo ≤ hi → lo ≤ clamp v lo hi ≤ hi.
Proof. intros Hle. unfold clamp. repeat case_match; lia. Qed.

Lemma uint16_small v : 0 ≤ v < 2 ^ 16 → uint16 v = v.
Proof. intros Hv. unfold uint16. by apply Z.mod_small. Qed.

Lemma array_get_lookup {A} (l : list A) (i : Z) :
  0 ≤ i → array_get l i = l !! Z.to_nat i.
Proof. intros Hi. unfold array_get. by destruct (Z.ltb_spec i 0); [lia|]. Qed.

(** What one insertion into the bucket table does. *)
Lemma PaintSessionAddPSToQuadrant_spec (s : paint_session) (ps : paint_struct_ptr)
    (v : paint_struct) :
  read_ps s ps = Some v →
  (Z.to_nat MAX_PAINT_QUADRANTS ≤ length (Quadrants s))%nat →
  ∃ s' index h,
    PaintSessionAddPSToQuadrant ps s = Some (tt, s')
    ∧ 0 ≤ index ≤ MAX_PAINT_QUADRANTS - 1
    ∧ Quadrants s !! Z.to_nat index = Some h
    ∧ read_ps s' ps = Some (set_next_quadrant_ps h (set_quadrant_index index v))
    ∧ (∀ p, p ≠ ps → read_ps s' p = read_ps s p)
    ∧ (∀ i, read_attached s' i = read_attached s i)
    ∧ Quadrants s' = <[Z.to_nat index := Some ps]> (Quadrants s)
    ∧ QuadrantBackIndex s' = QuadrantBackIndex s `min` index
    ∧ QuadrantFrontIndex s' = QuadrantFrontIndex s `max` index
    ∧ CurrentRotation s' = CurrentRotation s
    ∧ LastPS s' = LastPS s
    ∧ LastAttachedPS s' = LastAttachedPS s.
Proof.
  intros Hv Hlen. pose proof MAX_PAINT_QUADRANTS_range as HMAX.
  set (index := clamp (CalculatePositionHash v (CurrentRotation s) ÷ 32) 0
                  (MAX_PAINT_QUADRANTS - 1)).
  assert (0 ≤ index ≤ MAX_PAINT_QUADRANTS - 1) as Hindex by (apply clamp_range; lia).
  destruct (lookup_lt_is_Some_2 (Quadrants s) (Z.to_nat index)) as [h Hh]; [lia|].
  set (s1 := write_ps ps (set_quadrant_index index v) s).
  assert (read_ps s1 ps = Some (set_quadrant_index index v)) as Hv1
    by (by eapply read_write_eq).
  set (s2 := write_ps ps (set_next_quadrant_ps h (set_quadrant_index index v)) s1).
  exists (set_QuadrantFrontIndex (QuadrantFrontIndex s `max` index)
            (set_QuadrantBackIndex (QuadrantBackIndex s `min` index)
               (set_Quadrants (<[Z.to_nat index := Some ps]> (Quadrants s)) s2))), index, h.
  split.
  { unfold PaintSessionAddPSToQuadrant. unfold mbind, M_bind, get, load, store, liftO, modify.
    rewrite Hv. fold index. rewrite (uint32_small index), (uint16_small index) by lia.
    rewrite array_get_lookup, Hh by lia. rewrite Hv. fold s1. rewrite Hv1. fold s2.
    by destruct ps. }
  split; [done|]. split; [done|].
  assert (∀ p, read_ps (set_QuadrantFrontIndex (QuadrantFrontIndex s `max` index)
            (set_QuadrantBackIndex (QuadrantBackIndex s `min` index)
               (set_Quadrants (<[Z.to_nat index := Some ps]> (Quadrants s)) s2))) p
          = read_ps s2 p) as Hread by (by intros []).
  split; [|split; [|split]].
  - rewrite Hread. by eapply read_write_eq.
  - intros p Hp. rewrite Hread. unfold s2, s1. by rewrite !read_write_ne.
  - intros i. unfold s2. transitivity (read_attached s1 i).
    + by erewrite <- (read_attached_write_ps s1 ps).
    + by eapply read_attached_write_ps.
  - by destruct ps.
Qed.

Lemma concat_insert_cons (bs : list (list paint_struct_ptr)) (k : nat) b p :
  bs !! k = Some b → concat (<[k := p :: b]> bs) ≡ₚ p :: concat bs.
Proof.
  revert k. induction bs as [|b0 bs IH]; intros [|k] Hk; simpl in *; try done.
  - by injection Hk as ->.
  - rewrite (IH k Hk). by rewrite Permutation_middle.
Qed.

Lemma elem_of_concat_lookup (bs : list (list paint_struct_ptr)) p :
  p ∈ concat bs ↔ ∃ (q : nat) b, bs !! q = Some b ∧ p ∈ b.
Proof.
  induction bs as [|b0 bs IH]; simpl.
  - split; [by intros ?%elem_of_nil | by intros (q & b & ? & _)].
  - rewrite elem_of_app, IH. split.
    + intros [Hp | (q & b & Hq & Hp)]; [by exists 0%nat, b0 | by exists (S q), b].
    + intros ([|q] & b & Hq & Hp); simpl in Hq; [left; congruence | right; eauto].
Qed.

Lemma session_inv_insert (s s' : paint_session) (bs : list (list paint_struct_ptr))
    (ps : paint_struct_ptr) (v : paint_struct) (index : Z) (h : option paint_struct_ptr) :
  session_inv s bs →
  ps ≠ PaintHeadPtr → ps ∉ concat bs →
  0 ≤ index ≤ MAX_PAINT_QUADRANTS - 1 →
  Quadrants s !! Z.to_nat index = Some h →
  read_ps s' ps = Some (set_next_quadrant_ps h (set_quadrant_index index v)) →
  (∀ p, p ≠ ps → read_ps s' p = read_ps s p) →
  Quadrants s' = <[Z.to_nat index := Some ps]> (Quadrants s) →
  QuadrantBackIndex s' = QuadrantBackIndex s `min` index →
  QuadrantFrontIndex s' = QuadrantFrontIndex s `max` index →
  CurrentRotation s' = CurrentRotation s →
  cursors_valid s' →
  ∃ b, bs !! Z.to_nat index = Some b
    ∧ session_inv s' (<[Z.to_nat index := ps :: b]> bs).
Proof.
  intros [Hlen Hb Hnd He Hr Hrot _ _] Hhead Hfresh Hindex Hh Hps Hoth HQ HB HF HC [Hc1 Hc2].
  pose proof MAX_PAINT_QUADRANTS_range as HMAX.
  destruct (lookup_lt_is_Some_2 bs (Z.to_nat index)) as [b Hk]; [lia|].
  exists b. split; [done|].
  assert (∀ (q : nat) b' a, bs !! q = Some b' → a ∈ b' → next_of s' a = next_of s a) as Hnext.
  { intros q b' a Hq Ha. unfold next_of. rewrite Hoth; [done|]. intros ->.
    apply Hfresh, elem_of_concat_lookup. eauto. }
  split; rewrite ?HQ, ?HB, ?HF, ?HC; try done.
  - by rewrite length_insert.
  - intros q b'. destruct (decide (q = Z.to_nat index)) as [->|Hne].
    + rewrite list_lookup_insert_eq by (by eapply lookup_lt_Some). intros [= <-].
      exists (Some ps). rewrite list_lookup_insert_eq by (by eapply lookup_lt_Some).
      split; [done|]. simpl. split; [done|]. exists h. split; [unfold next_of; by rewrite Hps|].
      destruct (Hb _ _ Hk) as (h' & Hh' & Hl). assert (h' = h) as -> by congruence.
      eapply lseg_ext; [|exact Hl]. intros a Ha. by eapply Hnext.
    + rewrite !list_lookup_insert_ne by done. intros Hq.
      destruct (Hb _ _ Hq) as (h' & Hh' & Hl). exists h'. split; [done|].
      eapply lseg_ext; [|exact Hl]. intros a Ha. by eapply Hnext.
  - rewrite (concat_insert_cons bs _ b ps Hk). by apply NoDup_cons.
  - intros q b' p. destruct (decide (q = Z.to_nat index)) as [->|Hne].
    + rewrite list_lookup_insert_eq by (by eapply lookup_lt_Some). intros [= <-].
      intros [->|Hp]%elem_of_cons.
      * split; [done|]. eexists. split; [exact Hps|]. simpl. split; lia.
      * destruct (He _ _ p Hk Hp) as (Hne & w & Hw & Hqi & Hbr). split; [done|].
        exists w. rewrite Hoth; [|intros ->; apply Hfresh, elem_of_concat_lookup; eauto].
        split; [done|]. split; [done|]. lia.
    + rewrite list_lookup_insert_ne by done. intros Hq Hp.
      destruct (He _ _ p Hq Hp) as (Hne' & w & Hw & Hqi & Hbr). split; [done|].
      exists w. rewrite Hoth; [|intros ->; apply Hfresh, elem_of_concat_lookup; eauto].
      split; [done|]. split; [done|]. lia.
  - unfold UINT32_MAX in *. lia.
Qed.

Lemma cursors_valid_extends s s' :
  cursors_valid s → session_extends s s' →
  LastPS s' = LastPS s → LastAttachedPS s' = LastAttachedPS s → cursors_valid s'.
Proof.
  intros [Hc1 Hc2] [R A _ _ _ _] HP HA. split.
  - intros p Hp. rewrite HP in Hp. destruct (Hc1 p Hp) as [v Hv].
    destruct (R p v Hv) as (v' & Hv' & _). eauto.
  - intros i Hi. rewrite HA in Hi. eauto.
Qed.

Lemma session_inv_cursors s bs : session_inv s bs → cursors_valid s.
Proof. intros []. by split. Qed.

Lemma session_inv_Quadrants_length s bs :
  session_inv s bs → (Z.to_nat MAX_PAINT_QUADRANTS ≤ length (Quadrants s))%nat.
Proof.
  intros [Hlen Hb _ _ _ _ _ _]. pose proof MAX_PAINT_QUADRANTS_range as HMAX.
  destruct (lookup_lt_is_Some_2 bs (Z.to_nat MAX_PAINT_QUADRANTS - 1)) as [b Hq]; [lia|].
  destruct (Hb _ _ Hq) as (h & Hh & _). apply lookup_lt_Some in Hh. lia.
Qed.

Lemma session_inv_fresh_ptr s bs p :
  session_inv s bs → read_ps s p = None → p ∉ concat bs.
Proof.
  intros Hinv Hp (q & b & Hq & Hin)%elem_of_concat_lookup.
  destruct (inv_entries _ _ Hinv q b p Hq Hin) as (_ & v & Hv & _). congruence.
Qed.

(** Every creation function returns, and keeps the invariant. *)
Lemma PaintAddImageAsParent_inv s bs i xo yo lx ly lz zo ox oy oz :
  session_inv s bs →
  ∃ r s' bs', PaintAddImageAsParent i xo yo lx ly lz zo ox oy oz s = Some (r, s')
    ∧ session_inv s' bs'.
Proof.
  intros Hinv. unfold PaintAddImageAsParent.
  unfold mbind at 1 2 3, M_bind at 1 2 3, modify, get.
  set (s1 := set_LastAttachedPS None (set_LastPS None s)).
  assert (session_extends s s1) as Hext1.
  { eapply session_extends_trans; [apply set_LastPS_extends | apply set_LastAttachedPS_extends]. }
  assert (session_inv s1 bs) as Hinv1.
  { eapply session_inv_extends; [done | done |]. split; by intros. }
  destruct (sub_9819_c s1 _ _ _ _) as [newPS|]; [|by exists None, s1, bs].
  destruct (AllocateRootPaintEntry_spec newPS s1)
    as (p & s2 & Halloc & Hhead & Hfresh & Hp2 & HLP & HLA & Hext2).
  assert (session_inv s2 bs) as Hinv2.
  { eapply session_inv_extends; [done | done |]. split.
    - intros p' Hp'. rewrite HLP in Hp'. injection Hp' as <-. eauto.
    - intros i' Hi'. by rewrite HLA in Hi'. }
  destruct (PaintSessionAddPSToQuadrant_spec s2 p newPS Hp2)
    as (s3 & index & h & Hadd & Hindex & Hh & Hp3 & Hoth & Hatt & HQ & HB & HF & HC & HLP3 & HLA3).
  { exact (session_inv_Quadrants_length s2 bs Hinv2). }
  destruct (session_inv_insert s2 s3 bs p newPS index h) as (b & Hb & Hinv3); try done.
  { eapply session_inv_fresh_ptr; [exact Hinv1 | done]. }
  { split.
    - intros p' Hp'. rewrite HLP3, HLP in Hp'. injection Hp' as <-. eauto.
    - intros i' Hi'. by rewrite HLA3, HLA in Hi'. }
  unfold mbind, M_bind, mret, M_ret. rewrite Halloc, Hadd. eauto.
Qed.

Lemma PaintAddImageAsOrphan_inv s bs i xo yo lx ly lz zo ox oy oz :
  session_inv s bs →
  ∃ r s', PaintAddImageAsOrphan i xo yo lx ly lz zo ox oy oz s = Some (r, s')
    ∧ session_inv s' bs.
Proof.
  intros Hinv. unfold PaintAddImageAsOrphan.
  unfold mbind at 1 2 3, M_bind at 1 2 3, modify, get.
  set (s1 := set_LastAttachedPS None (set_LastPS None s)).
  assert (session_extends s s1) as Hext1.
  { eapply session_extends_trans; [apply set_LastPS_extends | apply set_LastAttachedPS_extends]. }
  assert (session_inv s1 bs) as Hinv1.
  { eapply session_inv_extends; [done | done |]. split; by intros. }
  destruct (sub_9819_c s1 _ _ _ _) as [newPS|]; [|by exists None, s1].
  destruct (AllocateRootPaintEntry_spec newPS s1)
    as (p & s2 & Halloc & Hhead & Hfresh & Hp2 & HLP & HLA & Hext2).
  unfold mbind, M_bind, mret, M_ret. rewrite Halloc. exists (Some p), s2. split; [done|].
  eapply session_inv_extends; [done | done |]. split.
  - intros p' Hp'. rewrite HLP in Hp'. injection Hp' as <-. eauto.
  - intros i' Hi'. by rewrite HLA in Hi'.
Qed.

Lemma PaintAddImageAsChild_inv s bs i o l bo :
  session_inv s bs →
  ∃ r s' bs', PaintAddImageAsChild i o l bo s = Some (r, s') ∧ session_inv s' bs'.
Proof.
  intros Hinv. unfold PaintAddImageAsChild. unfold mbind at 1, M_bind at 1, get.
  destruct (LastPS s) as [parentPS|] eqn:HLast; [|by eapply PaintAddImageAsParent_inv].
  destruct (sub_9819_c s _ _ _ _) as [newPS|]; [|by exists None, s, bs].
  destruct (AllocateRootPaintEntry_spec newPS s)
    as (p & s1 & Halloc & Hhead & Hfresh & Hp1 & HLP & HLA & Hext1).
  destruct (inv_last_ps _ _ Hinv parentPS HLast) as [vp Hvp].
  destruct (ext_read _ _ Hext1 parentPS vp Hvp) as (vp' & Hvp' & _).
  destruct (store_extends s1 parentPS (set_children (Some p)) vp' Hvp')
    as (s2 & Hst & HLP2 & HLA2 & Hext2); [done | done |].
  unfold mbind, M_bind, mret, M_ret. rewrite Halloc, Hst. exists (Some p), s2, bs.
  split; [done|].
  eapply session_inv_extends; [done | by eapply session_extends_trans |]. split.
  - intros p' Hp'. rewrite HLP2, HLP in Hp'. injection Hp' as <-.
    destruct (ext_read _ _ Hext2 p newPS Hp1) as (v' & Hv' & _). eauto.
  - intros i' Hi'. by rewrite HLA2, HLA in Hi'.
Qed.

Lemma PaintAttachToPreviousPS_inv s bs i x y :
  session_inv s bs →
  ∃ r s', PaintAttachToPreviousPS i x y s = Some (r, s') ∧ session_inv s' bs.
Proof.
  intros Hinv. unfold PaintAttachToPreviousPS. unfold mbind at 1, M_bind at 1, get.
  destruct (NoPaintStructsAvailable s); [by exists false, s|].
  destruct (LastPS s) as [masterPs|] eqn:HLast; [|by exists false, s].
  match goal with |- context [AllocateAttachedPaintEntry ?e] =>
    destruct (AllocateAttachedPaintEntry_spec e s) as (n & s1 & Halloc & Hn1 & HLP & HLA & Hext1)
  end.
  destruct (inv_last_ps _ _ Hinv masterPs HLast) as [vm Hvm].
  destruct (ext_read _ _ Hext1 masterPs vm Hvm) as (vm' & Hvm' & _).
  destruct (store_extends s1 masterPs (set_attached_ps (Some n)) vm' Hvm')
    as (s2 & Hst & HLP2 & HLA2 & Hext2); [done | done |].
  destruct (ext_attached _ _ Hext2 n) as [a2 Ha2]; [eauto|].
  destruct (store_attached_extends s2 n (set_att_next (attached_ps vm')) a2 Ha2)
    as (s3 & Hst3 & HLP3 & HLA3 & Hext3).
  unfold mbind, M_bind, mret, M_ret, load. rewrite Halloc, Hvm', Hst, Hst3.
  exists true, s3. split; [done|].
  eapply session_inv_extends; [done | |].
  { eapply session_extends_trans; [exact Hext1|].
    eapply session_extends_trans; [exact Hext2 | exact Hext3]. }
  split.
  - intros p' Hp'. rewrite HLP3, HLP2, HLP, HLast in Hp'. injection Hp' as <-.
    destruct (ext_read _ _ Hext2 masterPs vm' Hvm') as (w & Hw & _).
    destruct (ext_read _ _ Hext3 masterPs w Hw) as (w' & Hw' & _). eauto.
  - intros i' Hi'. rewrite HLA3, HLA2, HLA in Hi'. injection Hi' as <-.
    apply (ext_attached _ _ Hext3). eauto.
Qed.

Lemma PaintAttachToPreviousAttach_inv s bs i x y :
  session_inv s bs →
  ∃ r s', PaintAttachToPreviousAttach i x y s = Some (r, s') ∧ session_inv s' bs.
Proof.
  intros Hinv. unfold PaintAttachToPreviousAttach. unfold mbind at 1, M_bind at 1, get.
  destruct (LastAttachedPS s) as [prev|] eqn:HLast; [|by eapply PaintAttachToPreviousPS_inv].
  destruct (NoPaintStructsAvailable s); [by exists false, s|].
  match goal with |- context [AllocateAttachedPaintEntry ?e] =>
    destruct (AllocateAttachedPaintEntry_spec e s) as (n & s1 & Halloc & Hn1 & HLP & HLA & Hext1)
  end.
  destruct (ext_attached _ _ Hext1 prev) as [a1 Ha1]; [by eapply inv_last_attached|].
  destruct (store_attached_extends s1 prev (set_att_next (Some n)) a1 Ha1)
    as (s2 & Hst & HLP2 & HLA2 & Hext2).
  unfold mbind, M_bind, mret, M_ret. rewrite Halloc, Hst.
  exists true, s2. split; [done|].
  eapply session_inv_extends; [done | by eapply session_extends_trans |].
  split.
  - intros p' Hp'. rewrite HLP2, HLP in Hp'.
    destruct (inv_last_ps _ _ Hinv p' Hp') as [v Hv].
    destruct (ext_read _ _ Hext1 p' v Hv) as (w & Hw & _).
    destruct (ext_read _ _ Hext2 p' w Hw) as (w' & Hw' & _). eauto.
  - intros i' Hi'. rewrite HLA2, HLA in Hi'. injection Hi' as <-.
    apply (ext_attached _ _ Hext2). eauto.
Qed.

Lemma run_paint_call_inv c s bs :
  session_inv s bs →
  ∃ s' bs', run_paint_call c s = Some (tt, s') ∧ session_inv s' bs'.
Proof.
  intros Hinv. destruct c; simpl; unfold mbind, M_bind, mret, M_ret, modify.
  - eexists _, bs. split; [done|].
    eapply session_inv_extends; [done | apply set_paint_context_extends |].
    eapply cursors_valid_extends; [by eapply session_inv_cursors | apply set_paint_context_extends | done | done].
  - edestruct PaintAddImageAsParent_inv as (r & s' & bs' & -> & Hinv'); [done|]. eauto.
  - edestruct PaintAddImageAsOrphan_inv as (r & s' & -> & Hinv'); [done|]. eauto.
  - edestruct PaintAddImageAsChild_inv as (r & s' & bs' & -> & Hinv'); [done|]. eauto.
  - edestruct PaintAttachToPreviousPS_inv as (r & s' & -> & Hinv'); [done|]. eauto.
  - edestruct PaintAttachToPreviousAttach_inv as (r & s' & -> & Hinv'); [done|]. eauto.
Qed.

Lemma generate_inv (calls : list paint_call) :
  ∀ s bs, session_inv s bs →
    ∃ s' bs', generate calls s = Some (tt, s') ∧ session_inv s' bs'.
Proof.
  induction calls as [|c calls IH]; intros s bs Hinv; simpl.
  - by exists s, bs.
  - destruct (run_paint_call_inv c s bs Hinv) as (s1 & bs1 & Hrun & Hinv1).
    unfold mbind, M_bind. rewrite Hrun. eauto.
Qed.

Lemma concat_replicate_nil (n : nat) : concat (replicate n ([] : list paint_struct_ptr)) = [].
Proof. induction n; simpl; done. Qed.

Lemma session_fresh_inv s :
  session_fresh s → session_inv s (replicate (Z.to_nat MAX_PAINT_QUADRANTS) []).
Proof.
  intros (HP & HQ & HLP & HLA & HB & HF & HR). pose proof MAX_PAINT_QUADRANTS_range as HMAX.
  split; rewrite ?HB, ?HF, ?HLP, ?HLA; try done.
  - by rewrite length_replicate.
  - intros q b [-> Hq]%lookup_replicate. exists None. rewrite HQ.
    split; [by apply lookup_replicate|done].
  - rewrite concat_replicate_nil. constructor.
  - intros q b p [-> Hq]%lookup_replicate Hp. by apply elem_of_nil in Hp.
  - split; [lia | by left].
Qed.

Lemma concat_all_nil (l : list (list paint_struct_ptr)) :
  (∀ (q : nat) b p, l !! q = Some b → p ∈ b → False) → concat l = [].
Proof.
  intros Hl. destruct (concat l) as [|p c] eqn:Hc; [done|].
  assert (p ∈ concat l) as (q & b & Hq & Hp)%elem_of_concat_lookup by (rewrite Hc; left).
  by destruct (Hl q b p).
Qed.

Lemma concat_window (bs : list (list paint_struct_ptr)) (k n : nat) :
  (∀ (q : nat) b p, bs !! q = Some b → p ∈ b → (k ≤ q < k + n)%nat) →
  concat (take n (drop k bs)) = concat bs.
Proof.
  intros Hwin.
  rewrite <- (take_drop k bs) at 2. rewrite concat_app.
  rewrite (concat_all_nil (take k bs)).
  2:{ intros q b p Hq Hp. apply lookup_take_Some in Hq as [Hq Hlt].
      specialize (Hwin q b p Hq Hp). lia. }
  rewrite <- (take_drop n (drop k bs)) at 2. rewrite concat_app.
  rewrite (concat_all_nil (drop n (drop k bs))); [by rewrite app_nil_r|].
  intros q b p Hq Hp. rewrite !lookup_drop in Hq.
  specialize (Hwin _ b p Hq Hp). lia.
Qed.

Lemma buckets_at_intro s (l : list (list paint_struct_ptr)) :
  ∀ (k : nat),
    (∀ (i : nat) b, l !! i = Some b →
       ∃ h, Quadrants s !! (k + i)%nat = Some h ∧ lseg s h b None) →
    buckets_at s (Z.of_nat k) l.
Proof.
  induction l as [|b l IH]; intros k Hl; simpl; [done|]. split.
  - destruct (Hl 0%nat b eq_refl) as (h & Hh & Hb). exists h. split; [|done].
    rewrite array_get_lookup by lia. by rewrite Nat2Z.id, Nat.add_0_r in *.
  - replace (Z.of_nat k + 1) with (Z.of_nat (S k)) by lia. apply IH.
    intros i b' Hi. destruct (Hl (S i) b' Hi) as (h & Hh & Hb').
    exists h. split; [|done]. by replace (S k + i)%nat with (k + S i)%nat by lia.
Qed.

(** A session that satisfies the invariant of the generation phase is ready
    to be arranged: the occupied buckets are the whole content of the table. *)
Lemma session_inv_arrange_ready s bs :
  session_inv s bs →
  ∃ occupied, arrange_ready s occupied ∧ concat occupied = concat bs.
Proof.
  intros Hinv. pose proof MAX_PAINT_QUADRANTS_range as HMAX.
  destruct Hinv as [Hlen Hb Hnd He [HF HB] Hrot _ _].
  assert (PaintHeadPtr ∉ concat bs) as Hhead.
  { intros (q & b & Hq & Hp)%elem_of_concat_lookup. by destruct (He q b _ Hq Hp) as [? _]. }
  destruct HB as [HB|HB].
  - exists bs. split; [|done]. split; [done|].
    assert (concat bs = []) as Hnil.
    { apply concat_all_nil. intros q b p Hq Hp.
      destruct (He q b p Hq Hp) as (_ & v & _ & _ & Hbr). unfold UINT32_MAX in HB. lia. }
    split; [by apply NoDup_cons|]. by left.
  - set (k := Z.to_nat (QuadrantBackIndex s)).
    set (n := Z.to_nat (QuadrantFrontIndex s - QuadrantBackIndex s + 1)).
    assert (concat (take n (drop k bs)) = concat bs) as Hconcat.
    { apply concat_window. intros q b p Hq Hp.
      destruct (He q b p Hq Hp) as (_ & v & _ & _ & Hbr). lia. }
    exists (take n (drop k bs)). split; [|done].
    split; [done|]. split; [rewrite Hconcat; by apply NoDup_cons|]. right.
    assert (length (take n (drop k bs)) = n) as Hlen'.
    { rewrite length_take, length_drop. lia. }
    split; [lia|]. split; [lia|]. split; [lia|]. split.
    + intros Hnil. rewrite Hnil in Hlen'. simpl in Hlen'. lia.
    + replace (QuadrantBackIndex s) with (Z.of_nat k) by lia. apply buckets_at_intro.
      intros i b Hi. apply lookup_take_Some in Hi as [Hi _]. rewrite lookup_drop in Hi.
      by apply Hb.
Qed.


End GenerationProperties.

Section DrawProperties.
Context `{PaintHeaders}.

(** What [PaintDrawStruct] emits for a primitive: its own image at the
    position of [PaintDrawStruct_position], then its child or attachments. *)
Lemma PaintDrawStruct_unfold fuel g rotation s p ps :
  read_ps s p = Some ps →
  PaintDrawStruct (S fuel) g rotation s p
  = (rest ← match children ps with
            | Some c => PaintDrawStruct fuel g rotation s c
            | None => PaintAttachedPS fuel s ps (ViewFlags s)
            end;
     let pos := PaintDrawStruct_position (DPI s) ps in
     let imageId := PaintPSColourifyImage (image_id ps) (sprite_type ps) (ViewFlags s) in
     Some ((if g && (dpi_zoom_level (DPI s) =? 0)
            then PaintPSImageWithBoundingBoxes rotation ps imageId pos.1 pos.2
            else PaintPSImage ps imageId pos.1 pos.2) ++ rest)).
Proof.
  intros Hps. simpl. rewrite Hps. simpl.
  destruct (PaintDrawStruct_position (DPI s) ps) as [x y]. simpl.
  destruct (children ps); simpl; reflexivity.
Qed.


End DrawProperties.

(** * The claims *)

(** ** C1: the splice rule of rotation 0 *)

(** The arrangement of [example_three], in which the box T of bucket 2 lies
    under the box S of bucket 1: [CheckBoundingBox<0>] holds of S and T, and
    the arranged chain is head, 0, T, S.  T has been moved in front of S; it
    does not follow S, whose successor is [nullptr]. *)
Lemma C1_spliced_after_S_fails :
  ∃ vS vT s',
    read_ps example_three (PaintEntryPtr 1) = Some vS
    ∧ read_ps example_three (PaintEntryPtr 2) = Some vT
    ∧ quadrant_index vT = quadrant_index vS + 1
    ∧ CheckBoundingBox 0 (bounds vS) (bounds vT) = true
    ∧ PaintSessionArrange (H := example_headers) 30 example_three = Some (tt, s')
    ∧ next_of s' PaintHeadPtr = Some (Some (PaintEntryPtr 0))
    ∧ next_of s' (PaintEntryPtr 0) = Some (Some (PaintEntryPtr 2))
    ∧ next_of s' (PaintEntryPtr 2) = Some (Some (PaintEntryPtr 1))
    ∧ next_of s' (PaintEntryPtr 1) = Some None.
Proof.
  eexists _, _, _.
  split; [vm_compute; reflexivity|]. split; [vm_compute; reflexivity|].
  split; [reflexivity|]. split; [reflexivity|].
  split; [vm_compute; reflexivity|]. repeat split.
Qed.

Section SpliceRule.
Context `{PaintHeaders}.

(** C1 (amended): in the scan that starts at an entry S, whose predecessor
    in the chain was [ps_temp] when the scan began, let the scan stand at
    [ps] and let the next entry T carry [PAINT_QUADRANT_FLAG_NEXT] (and not
    [PAINT_QUADRANT_FLAG_BIGGER]).  Under rotation 0, T is spliced exactly
    when S.z_end >= T.z and S.y_end >= T.y and S.x_end >= T.x and not
    (S.z < T.z_end and S.y < T.y_end and S.x < T.x_end); and it is spliced to
    immediately follow [ps_temp], in front of the entries from S to [ps].
    Otherwise nothing is written and the scan moves on to T. *)
Theorem C1_splice_rule (s : paint_session) (p0 : option paint_struct_ptr)
    (A : list paint_struct_ptr) (ps_temp : paint_struct_ptr) (B : list paint_struct_ptr)
    (ps T : paint_struct_ptr) (C' : list paint_struct_ptr) (S : paint_struct_ptr)
    (vS vT : paint_struct) :
  lseg s p0 (A ++ ps_temp :: B ++ ps :: T :: C') None →
  NoDup (A ++ ps_temp :: B ++ ps :: T :: C') →
  read_ps s S = Some vS →
  read_ps s T = Some vT →
  has_flag (quadrant_flags vT) PAINT_QUADRANT_FLAG_BIGGER = false →
  has_flag (quadrant_flags vT) PAINT_QUADRANT_FLAG_NEXT = true →
  ∃ r s',
    arrange_scan_body 0 ps_temp S ps s = Some (r, s')
    ∧ (dominates (bounds vS) (bounds vT) →
       r = ScanContinue ps
       ∧ nexts_only s s'
       ∧ lseg s' p0 (A ++ ps_temp :: T :: B ++ ps :: C') None)
    ∧ (¬ dominates (bounds vS) (bounds vT) → r = ScanContinue T ∧ s' = s).
Proof.
  intros Hl Hnd HvS HvT Hbigger Hnext.
  destruct (arrange_scan_body_spec 0 s p0 A ps_temp B ps T C' S vS vT Hl Hnd HvS HvT)
    as (r & s' & Hrun & Hno & Hcase).
  rewrite Hbigger, Hnext in Hcase. change (negb true) with false in Hcase. cbv iota in Hcase.
  exists r, s'. split; [done|].
  unfold dominates. rewrite <- CheckBoundingBox_0_spec.
  destruct (CheckBoundingBox 0 (bounds vS) (bounds vT)).
  - split; [intros _; by destruct Hcase | intros Hn; by destruct Hn].
  - split; [intros Hd; discriminate Hd | done].
Qed.

End SpliceRule.

Lemma C1_splice_rule_witness :
  ∃ r s',
    arrange_scan_body (H := example_headers) 0 (PaintEntryPtr 0) (PaintEntryPtr 1)
      (PaintEntryPtr 1) example_scanning = Some (r, s')
    ∧ (dominates (bounds example_scanning_S) (bounds example_scanning_T) →
       r = ScanContinue (PaintEntryPtr 1)
       ∧ nexts_only example_scanning s'
       ∧ lseg s' (Some PaintHeadPtr)
           ([PaintHeadPtr] ++ PaintEntryPtr 0 :: PaintEntryPtr 2 :: [] ++ PaintEntryPtr 1 :: [])
           None)
    ∧ (¬ dominates (bounds example_scanning_S) (bounds example_scanning_T) →
       r = ScanContinue (PaintEntryPtr 2) ∧ s' = example_scanning).
Proof.
  apply (C1_splice_rule (H := example_headers) example_scanning (Some PaintHeadPtr)
           [PaintHeadPtr] (PaintEntryPtr 0) [] (PaintEntryPtr 1) (PaintEntryPtr 2) []
           (PaintEntryPtr 1) example_scanning_S example_scanning_T).
  - cbn [lseg app]. repeat (split; [reflexivity|]; eexists; split; [vm_compute; reflexivity|]).
    reflexivity.
  - apply (bool_decide_unpack _). vm_compute. exact I.
  - vm_compute. reflexivity.
  - vm_compute. reflexivity.
  - vm_compute. reflexivity.
  - vm_compute. reflexivity.
Defined.

(** ** C2: the arrangement terminates and permutes *)

Section ArrangeClaim.
Context `{PaintHeaders}.

(** C2: let the buckets [QuadrantBackIndex .. QuadrantFrontIndex] of the
    session hold the chains [bs], N primitives in all, whatever their
    bounding boxes.  With fuel for more than [MAX_PAINT_QUADRANTS + 2 N + 2]
    turns of any one loop, [PaintSessionArrange] returns; the chain it leaves
    behind [PaintHead] ends in [nullptr] and is a permutation of the N
    primitives, without repetition; and the session is as before but for the
    [next_quadrant_ps] and [quadrant_flags] of its entries. *)
Theorem C2_arrange_terminates_and_permutes (s : paint_session)
    (bs : list (list paint_struct_ptr)) (fuel : nat) :
  arrange_ready s bs →
  (Z.to_nat MAX_PAINT_QUADRANTS + 2 * length (concat bs) + 2 < fuel)%nat →
  ∃ s' chain,
    PaintSessionArrange fuel s = Some (tt, s')
    ∧ lseg s' (Some PaintHeadPtr) (PaintHeadPtr :: chain) None
    ∧ chain ≡ₚ concat bs
    ∧ NoDup chain
    ∧ length chain = length (concat bs)
    ∧ links_only s s'.
Proof.
  intros Hready Hfuel.
  destruct (PaintSessionArrange_spec s bs fuel Hready Hfuel) as (s' & chain & Hrun & Hl & Hperm & Hlo).
  exists s', chain. repeat (split; [done|]). split; [|split; [|done]].
  - rewrite Hperm. destruct Hready as (_ & Hnd & _). by apply NoDup_cons in Hnd as [_ Hnd].
  - by rewrite Hperm.
Qed.

(** The sessions a generation phase leaves are ready to be arranged, so the
    arrangement of every generated session returns a permutation of the
    primitives in its buckets. *)
Lemma generate_then_arrange (calls : list paint_call) (s : paint_session) :
  session_fresh s →
  ∃ s1 bs, generate calls s = Some (tt, s1)
    ∧ session_inv s1 bs
    ∧ ∀ fuel, (Z.to_nat MAX_PAINT_QUADRANTS + 2 * length (concat bs) + 2 < fuel)%nat →
        ∃ s2 chain,
          PaintSessionArrange fuel s1 = Some (tt, s2)
          ∧ lseg s2 (Some PaintHeadPtr) (PaintHeadPtr :: chain) None
          ∧ chain ≡ₚ concat bs
          ∧ links_only s1 s2.
Proof.
  intros Hfresh.
  destruct (generate_inv calls s _ (session_fresh_inv s Hfresh)) as (s1 & bs & Hgen & Hinv).
  exists s1, bs. split; [done|]. split; [done|]. intros fuel Hfuel.
  destruct (session_inv_arrange_ready s1 bs Hinv) as (occupied & Hready & Hconcat).
  rewrite <- Hconcat in Hfuel |- *. by apply PaintSessionArrange_spec.
Qed.

End ArrangeClaim.

Lemma C2_arrange_terminates_and_permutes_witness :
  ∃ s' chain,
    PaintSessionArrange (H := example_headers) 30 example_identical = Some (tt, s')
    ∧ lseg s' (Some PaintHeadPtr) (PaintHeadPtr :: chain) None
    ∧ chain ≡ₚ concat [[PaintEntryPtr 1; PaintEntryPtr 0]; [PaintEntryPtr 2]]
    ∧ NoDup chain
    ∧ length chain = length (concat [[PaintEntryPtr 1; PaintEntryPtr 0]; [PaintEntryPtr 2]])
    ∧ links_only example_identical s'.
Proof.
  apply (C2_arrange_terminates_and_permutes (H := example_headers) example_identical
           [[PaintEntryPtr 1; PaintEntryPtr 0]; [PaintEntryPtr 2]] 30).
  - split; [vm_compute; split; discriminate|].
    split; [apply (bool_decide_unpack _); vm_compute; exact I|].
    right. split; [vm_compute; discriminate|]. split; [vm_compute; reflexivity|].
    split; [vm_compute; reflexivity|]. split; [discriminate|].
    cbn [buckets_at]. split; [|split; [|exact I]].
    + eexists. split; [vm_compute; reflexivity|]. cbn [lseg].
      repeat (split; [reflexivity|]; eexists; split; [vm_compute; reflexivity|]). reflexivity.
    + eexists. split; [vm_compute; reflexivity|]. cbn [lseg].
      repeat (split; [reflexivity|]; eexists; split; [vm_compute; reflexivity|]). reflexivity.
  - vm_compute. lia.
Defined.

(** ** C3: the four dominance tests *)

(** Rotation 1 is not the test of rotation 0 with two axes reversed, whichever
    the two axes: the statement of C3 fails. *)
Lemma C3_two_axes_flipped_fails : ¬ two_axes_flipped_claim.
Proof.
  intros Hclaim. destruct (Hclaim 1) as (fx & fy & fz & Hcount & Heq); [lia|].
  pose (a := {| bb_x := 0; bb_y := 0; bb_z := 0; bb_x_end := 0; bb_y_end := 0; bb_z_end := 0 |}).
  pose (b := {| bb_x := 1; bb_y := 0; bb_z := 0; bb_x_end := 1; bb_y_end := 0; bb_z_end := 0 |}).
  specialize (Heq a b).
  destruct fx, fy, fz; vm_compute in Hcount; try discriminate Hcount;
    vm_compute in Heq; discriminate Heq.
Qed.

(** C3 (amended): [CheckBoundingBox<r>] is the test of rotation 0 with the
    comparisons of the x axis reversed for rotations 1 and 2 and those of the
    y axis reversed for rotations 2 and 3; the z axis is never reversed.  So
    rotations 1 and 3 reverse one axis, and only rotation 2 reverses two. *)
Theorem C3_rotation_flips (rotation : Z) (a b : paint_struct_bound_box) :
  0 ≤ rotation ≤ 3 →
  CheckBoundingBox rotation a b
  = CheckBoundingBox_flipped (rotation_flips_x rotation) (rotation_flips_y rotation) false a b
  ∧ count_axes (rotation_flips_x rotation) (rotation_flips_y rotation) false
    = match rotation with 1 => 1%nat | 2 => 2%nat | 3 => 1%nat | _ => 0%nat end.
Proof.
  intros Hr.
  assert (rotation = 0 ∨ rotation = 1 ∨ rotation = 2 ∨ rotation = 3) as [-> | [-> | [-> | ->]]]
    by lia; split; reflexivity.
Qed.

Lemma C3_rotation_flips_witness :
  CheckBoundingBox 1
    {| bb_x := 0; bb_y := 0; bb_z := 0; bb_x_end := 10; bb_y_end := 10; bb_z_end := 10 |}
    {| bb_x := 20; bb_y := 5; bb_z := 0; bb_x_end := 30; bb_y_end := 15; bb_z_end := 5 |}
  = CheckBoundingBox_flipped true false false
      {| bb_x := 0; bb_y := 0; bb_z := 0; bb_x_end := 10; bb_y_end := 10; bb_z_end := 10 |}
      {| bb_x := 20; bb_y := 5; bb_z := 0; bb_x_end := 30; bb_y_end := 15; bb_z_end := 5 |}
  ∧ count_axes true false false = 1%nat.
Proof.
  apply (C3_rotation_flips 1
           {| bb_x := 0; bb_y := 0; bb_z := 0; bb_x_end := 10; bb_y_end := 10; bb_z_end := 10 |}
           {| bb_x := 20; bb_y := 5; bb_z := 0; bb_x_end := 30; bb_y_end := 15; bb_z_end := 5 |}).
  lia.
Defined.

(** ** C4: the rotation of the bounding-box extents *)

(** At rotation 2 nothing is subtracted: the statement of C4 fails. *)
Lemma C4_two_axes_decremented_fails : ¬ two_axes_decremented_claim.
Proof.
  intros Hclaim. destruct (Hclaim 2) as (dx & dy & dz & k & Hcount & Heq); [lia|].
  specialize (Heq {| xyz_x := 0; xyz_y := 0; xyz_z := 0 |}).
  unfold RotateBoundBoxSize, decrement_then_rotate in Heq. simpl in Heq.
  destruct dx, dy, dz; vm_compute in Hcount; try discriminate Hcount;
    try (injection Heq; intros; discriminate).
  destruct (Rotate_cases {| xy_x := 0 - Z.b2z true; xy_y := 0 - Z.b2z true |} k)
    as [Hr | [Hr | [Hr | Hr]]]; rewrite Hr in Heq; vm_compute in Heq; discriminate Heq.
Qed.

(** C4 (amended): [RotateBoundBoxSize] subtracts 1 from x and y at rotation
    0, from x alone at rotation 1, from no axis at rotation 2 and from y
    alone at rotation 3, never from z, and then turns (x, y) by
    [(3 * rotation) mod 4] quarter turns. *)
Theorem C4_RotateBoundBoxSize_decrements (rotation : Z) (bb : CoordsXYZ) :
  0 ≤ rotation ≤ 3 →
  RotateBoundBoxSize bb rotation
  = decrement_then_rotate (rotation_decrements_x rotation) (rotation_decrements_y rotation)
      false ((rotation * 3) `mod` 4) bb
  ∧ count_axes (rotation_decrements_x rotation) (rotation_decrements_y rotation) false
    = match rotation with 0 => 2%nat | 1 => 1%nat | 3 => 1%nat | _ => 0%nat end.
Proof.
  intros Hr.
  assert (rotation = 0 ∨ rotation = 1 ∨ rotation = 2 ∨ rotation = 3) as [-> | [-> | [-> | ->]]]
    by lia; (split; [|reflexivity]); destruct bb; unfold RotateBoundBoxSize, decrement_then_rotate;
    simpl; rewrite ?Z.sub_0_r; reflexivity.
Qed.

Lemma C4_RotateBoundBoxSize_decrements_witness :
  RotateBoundBoxSize {| xyz_x := 32; xyz_y := 16; xyz_z := 8 |} 1
  = decrement_then_rotate true false false 3 {| xyz_x := 32; xyz_y := 16; xyz_z := 8 |}
  ∧ count_axes true false false = 1%nat.
Proof. apply (C4_RotateBoundBoxSize_decrements 1). lia. Defined.

(** ** C5: culling *)

Section Culling.
Context `{PaintHeaders}.

(** C5: a footprint outside the clip rectangle on one of its four sides is
    rejected, whatever the state of the pool; and when the pool has room and
    the image has metadata, the builder returns none exactly when the
    footprint is outside on one side, so that a footprint reaching over an
    edge of the clip rectangle, be it by a single pixel, is built. *)
Theorem C5_culling (s : paint_session) (image_id : Z)
    (offset boundBoxSize boundBoxOffset : CoordsXYZ) (g1 : rct_g1_element) :
  gfx_get_g1_element (Z.land image_id 0x7FFFF) = Some g1 →
  let imagePos := sub_9819_c_imagePos s offset in
  (footprint_outside imagePos g1 (DPI s) →
   sub_9819_c s image_id offset boundBoxSize boundBoxOffset = None)
  ∧ (NoPaintStructsAvailable s = false →
     (sub_9819_c s image_id offset boundBoxSize boundBoxOffset = None
      ↔ footprint_outside imagePos g1 (DPI s))
     ∧ (let left := scr_x imagePos + g1_x_offset g1 in
        let bottom := scr_y imagePos + g1_y_offset g1 in
        let right := left + g1_width g1 in
        let top := bottom + g1_height g1 in
        dpi_x (DPI s) + 1 ≤ right → dpi_y (DPI s) + 1 ≤ top →
        left ≤ dpi_x (DPI s) + dpi_width (DPI s) - 1 →
        bottom ≤ dpi_y (DPI s) + dpi_height (DPI s) - 1 →
        is_Some (sub_9819_c s image_id offset boundBoxSize boundBoxOffset))).
Proof.
  intros Hg1 imagePos. unfold sub_9819_c. rewrite Hg1. fold imagePos.
  clearbody imagePos. split.
  - intros Hout. apply ImageWithinDPI_spec in Hout. rewrite Hout.
    by destruct (NoPaintStructsAvailable s).
  - intros ->.
    destruct (ImageWithinDPI imagePos g1 (DPI s)) eqn:Hin; simpl.
    + assert (¬ footprint_outside imagePos g1 (DPI s)) as Hnot.
      { rewrite <- ImageWithinDPI_spec. congruence. }
      split; [split; [done | intros; contradiction] | intros; eauto].
    + apply ImageWithinDPI_spec in Hin as Hout. split; [done|].
      cbv zeta. intros ? ? ? ?. exfalso. unfold footprint_outside in Hout.
      cbv zeta in Hout. lia.
Qed.

End Culling.

(** An image whose footprint reaches one pixel into the clip rectangle, from
    the left and from below: x in -63..1, y in -63..1. *)
Lemma C5_culling_witness :
  is_Some (sub_9819_c (H := example_headers) (example_session 0) 7
             {| xyz_x := 31; xyz_y := 0; xyz_z := 46 |}
             {| xyz_x := 32; xyz_y := 32; xyz_z := 10 |}
             {| xyz_x := 0; xyz_y := 0; xyz_z := 0 |}).
Proof.
  apply (C5_culling (H := example_headers) (example_session 0) 7
           {| xyz_x := 31; xyz_y := 0; xyz_z := 46 |}
           {| xyz_x := 32; xyz_y := 32; xyz_z := 10 |}
           {| xyz_x := 0; xyz_y := 0; xyz_z := 0 |}
           {| g1_width := 64; g1_height := 64; g1_x_offset := -32; g1_y_offset := -32 |}
           eq_refl).
  - reflexivity.
  - vm_compute. discriminate.
  - vm_compute. discriminate.
  - vm_compute. discriminate.
  - vm_compute. discriminate.
Defined.

(** ** C6: the bucket index and the occupied range *)

Section QuadrantRange.
Context `{PaintHeaders}.

(** C6: an insertion into the bucket table returns, gives the inserted
    primitive a bucket index in [0, MAX_PAINT_QUADRANTS - 1], and leaves the
    occupied range around it; and at the end of every generation phase, every
    primitive in the bucket table carries the index of its bucket, which lies
    in [0, MAX_PAINT_QUADRANTS - 1] and between [QuadrantBackIndex] and
    [QuadrantFrontIndex]. *)
Theorem C6_quadrant_range (calls : list paint_call) (s0 s : paint_session)
    (ps : paint_struct_ptr) (v : paint_struct) :
  session_fresh s0 →
  read_ps s ps = Some v →
  (Z.to_nat MAX_PAINT_QUADRANTS ≤ length (Quadrants s))%nat →
  (∃ s' v',
     PaintSessionAddPSToQuadrant ps s = Some (tt, s')
     ∧ read_ps s' ps = Some v'
     ∧ 0 ≤ quadrant_index v' ≤ MAX_PAINT_QUADRANTS - 1
     ∧ QuadrantBackIndex s' ≤ quadrant_index v' ≤ QuadrantFrontIndex s')
  ∧ (∃ s' bs,
       generate calls s0 = Some (tt, s')
       ∧ session_inv s' bs
       ∧ ∀ (q : nat) b p, bs !! q = Some b → p ∈ b →
           ∃ v', read_ps s' p = Some v'
             ∧ quadrant_index v' = Z.of_nat q
             ∧ 0 ≤ quadrant_index v' ≤ MAX_PAINT_QUADRANTS - 1
             ∧ QuadrantBackIndex s' ≤ quadrant_index v' ≤ QuadrantFrontIndex s').
Proof.
  intros Hfresh Hv Hlen. split.
  - destruct (PaintSessionAddPSToQuadrant_spec s ps v Hv Hlen)
      as (s' & index & h & Hrun & Hindex & _ & Hps & _ & _ & _ & HB & HF & _).
    exists s', (set_next_quadrant_ps h (set_quadrant_index index v)).
    split; [done|]. split; [done|]. simpl. split; [done|]. lia.
  - destruct (generate_inv calls s0 _ (session_fresh_inv s0 Hfresh)) as (s' & bs & Hgen & Hinv).
    exists s', bs. split; [done|]. split; [done|]. intros q b p Hq Hp.
    destruct (inv_entries _ _ Hinv q b p Hq Hp) as (_ & v' & Hv' & Hqi & Hbr).
    exists v'. split; [done|]. split; [done|]. rewrite Hqi. split; [|done].
    apply lookup_lt_Some in Hq. rewrite (inv_buckets_length _ _ Hinv) in Hq. lia.
Qed.

End QuadrantRange.

Lemma C6_quadrant_range_witness :
  (∃ s' v',
     PaintSessionAddPSToQuadrant (H := example_headers) (PaintEntryPtr 0) example_allocated
     = Some (tt, s')
     ∧ read_ps s' (PaintEntryPtr 0) = Some v'
     ∧ 0 ≤ quadrant_index v' ≤ 16 - 1
     ∧ QuadrantBackIndex s' ≤ quadrant_index v' ≤ QuadrantFrontIndex s')
  ∧ (∃ s' bs,
       generate (H := example_headers) example_calls_three (example_session 0) = Some (tt, s')
       ∧ session_inv (H := example_headers) s' bs
       ∧ ∀ (q : nat) b p, bs !! q = Some b → p ∈ b →
           ∃ v', read_ps s' p = Some v'
             ∧ quadrant_index v' = Z.of_nat q
             ∧ 0 ≤ quadrant_index v' ≤ 16 - 1
             ∧ QuadrantBackIndex s' ≤ quadrant_index v' ≤ QuadrantFrontIndex s').
Proof.
  apply (C6_quadrant_range (H := example_headers) example_calls_three (example_session 0)
           example_allocated (PaintEntryPtr 0) example_scanning_S).
  - repeat split; vm_compute; discriminate.
  - reflexivity.
  - vm_compute. lia.
Defined.

(** ** C7: an exhausted pool *)

(** The pool of [example_three] is exhausted and its [LastPS] points to the
    third primitive; a further [PaintAddImageAsParent] returns [nullptr] and
    leaves a session whose [LastPS] is [nullptr]: not the session as it
    was. *)
Lemma C7_session_not_left_as_it_was :
  ∃ s',
    NoPaintStructsAvailable (H := example_headers) example_three = true
    ∧ PaintAddImageAsParent (H := example_headers) 4 0 0 1 1 1 0 0 0 0 example_three
      = Some (None, s')
    ∧ LastPS example_three = Some (PaintEntryPtr 2)
    ∧ LastPS s' = None
    ∧ s' ≠ example_three.
Proof.
  eexists. split; [vm_compute; reflexivity|]. split; [vm_compute; reflexivity|].
  split; [vm_compute; reflexivity|]. split; [reflexivity|].
  intros Heq. apply (f_equal LastPS) in Heq. vm_compute in Heq. discriminate Heq.
Qed.

Section Creation.
Context `{PaintHeaders}.

(** C7 (amended): on an exhausted pool every creation attempt returns its
    failure result and changes nothing of the pool, the bucket table or the
    occupied range.  [PaintAttachToPreviousPS], [PaintAttachToPreviousAttach]
    and [PaintAddImageAsChild] with a parent leave the session exactly as it
    was.  [PaintAddImageAsParent] and [PaintAddImageAsOrphan], and
    [PaintAddImageAsChild] without a parent, which hands over to
    [PaintAddImageAsParent], leave it exactly as it was except that the two
    cursors [LastPS] and [LastAttachedPS] have been reset to [nullptr]. *)
Theorem C7_exhausted_pool (s : paint_session) (image_id x_offset y_offset bound_box_length_x
    bound_box_length_y bound_box_length_z z_offset bound_box_offset_x bound_box_offset_y
    bound_box_offset_z x y : Z) (offset boundBoxLength boundBoxOffset : CoordsXYZ) :
  NoPaintStructsAvailable s = true →
  PaintAddImageAsParent image_id x_offset y_offset bound_box_length_x bound_box_length_y
    bound_box_length_z z_offset bound_box_offset_x bound_box_offset_y bound_box_offset_z s
  = Some (None, set_LastAttachedPS None (set_LastPS None s))
  ∧ PaintAddImageAsOrphan image_id x_offset y_offset bound_box_length_x bound_box_length_y
      bound_box_length_z z_offset bound_box_offset_x bound_box_offset_y bound_box_offset_z s
    = Some (None, set_LastAttachedPS None (set_LastPS None s))
  ∧ PaintAddImageAsChild image_id offset boundBoxLength boundBoxOffset s
    = Some (None, match LastPS s with
                  | Some _ => s
                  | None => set_LastAttachedPS None (set_LastPS None s)
                  end)
  ∧ PaintAttachToPreviousPS image_id x y s = Some (false, s)
  ∧ PaintAttachToPreviousAttach image_id x y s = Some (false, s).
Proof.
  intros Hfull.
  assert (∀ i xo yo lx ly lz zo ox oy oz,
            PaintAddImageAsParent i xo yo lx ly lz zo ox oy oz s
            = Some (None, set_LastAttachedPS None (set_LastPS None s))) as Hparent.
  { intros. unfold PaintAddImageAsParent. munfold. simpl. unfold sub_9819_c.
    replace (NoPaintStructsAvailable (set_LastAttachedPS None (set_LastPS None s)))
      with (NoPaintStructsAvailable s) by reflexivity.
    by rewrite Hfull. }
  assert (PaintAttachToPreviousPS image_id x y s = Some (false, s)) as Hattach.
  { unfold PaintAttachToPreviousPS. munfold. by rewrite Hfull. }
  split; [apply Hparent|]. split; [|split; [|split; [done|]]].
  - unfold PaintAddImageAsOrphan. munfold. simpl. unfold sub_9819_c.
    replace (NoPaintStructsAvailable (set_LastAttachedPS None (set_LastPS None s)))
      with (NoPaintStructsAvailable s) by reflexivity.
    by rewrite Hfull.
  - unfold PaintAddImageAsChild. unfold mbind at 1, M_bind at 1, get.
    destruct (LastPS s) as [parentPS|]; [|apply Hparent].
    unfold sub_9819_c. by rewrite Hfull.
  - unfold PaintAttachToPreviousAttach. unfold mbind at 1, M_bind at 1, get.
    destruct (LastAttachedPS s); [|done]. by rewrite Hfull.
Qed.

(** C8: without a previous attachment [PaintAttachToPreviousAttach] is
    [PaintAttachToPreviousPS]; and without a previous primitive either it
    returns false and leaves the session as it is. *)
Theorem C8_attach_fallback (s : paint_session) (image_id x y : Z) :
  LastAttachedPS s = None →
  PaintAttachToPreviousAttach image_id x y s = PaintAttachToPreviousPS image_id x y s
  ∧ (LastPS s = None → PaintAttachToPreviousAttach image_id x y s = Some (false, s)).
Proof.
  intros Hatt.
  assert (PaintAttachToPreviousAttach image_id x y s = PaintAttachToPreviousPS image_id x y s)
    as Heq.
  { unfold PaintAttachToPreviousAttach. munfold. by rewrite Hatt. }
  split; [done|]. intros Hps. rewrite Heq.
  unfold PaintAttachToPreviousPS. munfold. rewrite Hps.
  by destruct (NoPaintStructsAvailable s).
Qed.

End Creation.

(** The pool of [example_three] is exhausted, and its third primitive is the
    "last primitive". *)
Lemma C7_exhausted_pool_witness :
  PaintAddImageAsParent (H := example_headers) 4 0 0 1 1 1 0 0 0 0 example_three
  = Some (None, set_LastAttachedPS None (set_LastPS None example_three))
  ∧ PaintAddImageAsOrphan (H := example_headers) 4 0 0 1 1 1 0 0 0 0 example_three
    = Some (None, set_LastAttachedPS None (set_LastPS None example_three))
  ∧ PaintAddImageAsChild (H := example_headers) 4 {| xyz_x := 0; xyz_y := 0; xyz_z := 0 |}
      {| xyz_x := 1; xyz_y := 1; xyz_z := 1 |} {| xyz_x := 0; xyz_y := 0; xyz_z := 0 |}
      example_three
    = Some (None, match LastPS example_three with
                  | Some _ => example_three
                  | None => set_LastAttachedPS None (set_LastPS None example_three)
                  end)
  ∧ PaintAttachToPreviousPS (H := example_headers) 4 1 2 example_three
    = Some (false, example_three)
  ∧ PaintAttachToPreviousAttach (H := example_headers) 4 1 2 example_three
    = Some (false, example_three).
Proof.
  apply (C7_exhausted_pool (H := example_headers) example_three 4 0 0 1 1 1 0 0 0 0 1 2
           {| xyz_x := 0; xyz_y := 0; xyz_z := 0 |} {| xyz_x := 1; xyz_y := 1; xyz_z := 1 |}
           {| xyz_x := 0; xyz_y := 0; xyz_z := 0 |}).
  vm_compute. reflexivity.
Defined.

(** A fresh session: no attachment and no primitive yet. *)
Lemma C8_attach_fallback_witness :
  PaintAttachToPreviousAttach (H := example_headers) 9 1 2 (example_session 0)
  = PaintAttachToPreviousPS (H := example_headers) 9 1 2 (example_session 0)
  ∧ (LastPS (example_session 0) = None →
     PaintAttachToPreviousAttach (H := example_headers) 9 1 2 (example_session 0)
     = Some (false, example_session 0)).
Proof.
  apply (C8_attach_fallback (H := example_headers) (example_session 0) 9 1 2).
  reflexivity.
Defined.

(** ** C9 and C10: the draw position *)

(** A piece of terrain whose screen position is (13,7) is drawn at (13,7) at
    zoom level 2, not at (12,4). *)
Lemma C9_terrain_not_snapped :
  read_ps example_terrain_13_7 (PaintEntryPtr 0)
  = Some (example_struct_13_7 VIEWPORT_INTERACTION_ITEM_TERRAIN)
  ∧ dpi_zoom_level (DPI example_terrain_13_7) = 2
  ∧ PaintDrawStruct (H := example_headers) 1 false 0 example_terrain_13_7 (PaintEntryPtr 0)
    = Some [gfx_draw_sprite 5 {| scr_x := 13; scr_y := 7 |} 0].
Proof. repeat split; vm_compute; reflexivity. Qed.

Section Draw.
Context `{PaintHeaders}.

(** C9 (amended): a free-standing entity ([VIEWPORT_INTERACTION_ITEM_SPRITE])
    whose screen position is (13,7) is drawn at (12,4) at zoom level 2: its
    image is the first call of [PaintDrawStruct], and the only one when the
    primitive has neither child nor attachment. *)
Theorem C9_sprite_snapped_at_zoom_2 (fuel : nat) (g : bool) (rotation : Z) (s : paint_session)
    (p : paint_struct_ptr) (ps : paint_struct) :
  read_ps s p = Some ps →
  sprite_type ps = VIEWPORT_INTERACTION_ITEM_SPRITE →
  ps_x ps = 13 → ps_y ps = 7 → dpi_zoom_level (DPI s) = 2 →
  let imageId := PaintPSColourifyImage (image_id ps) (sprite_type ps) (ViewFlags s) in
  PaintDrawStruct_position (DPI s) ps = (12, 4)
  ∧ PaintDrawStruct (S fuel) g rotation s p
    = (rest ← match children ps with
              | Some c => PaintDrawStruct fuel g rotation s c
              | None => PaintAttachedPS fuel s ps (ViewFlags s)
              end;
       Some (PaintPSImage ps imageId 12 4 ++ rest))
  ∧ (children ps = None → attached_ps ps = None →
     PaintDrawStruct (S fuel) g rotation s p = Some (PaintPSImage ps imageId 12 4)).
Proof.
  intros Hps Htype Hx Hy Hzoom imageId.
  assert (PaintDrawStruct_position (DPI s) ps = (12, 4)) as Hpos.
  { rewrite PaintDrawStruct_position_spec, Htype, Hx, Hy, Hzoom. reflexivity. }
  assert (PaintDrawStruct (S fuel) g rotation s p
    = (rest ← match children ps with
              | Some c => PaintDrawStruct fuel g rotation s c
              | None => PaintAttachedPS fuel s ps (ViewFlags s)
              end;
       Some (PaintPSImage ps imageId 12 4 ++ rest))) as Hdraw.
  { rewrite (PaintDrawStruct_unfold _ _ _ _ _ _ Hps), Hpos, Hzoom.
    by rewrite andb_false_r. }
  split; [done|]. split; [done|].
  intros Hc Ha. rewrite Hdraw, Hc. unfold PaintAttachedPS. rewrite Ha.
  destruct fuel; simpl; by rewrite app_nil_r.
Qed.

(** C10: the zoom snapping is applied to free-standing entities only.  A
    primitive of any other classification is drawn at its own screen
    coordinates at every zoom level; an entity is floored to the 2-pixel grid
    from zoom level 1 and to the 4-pixel grid from zoom level 2. *)
Theorem C10_snap_only_sprites (fuel : nat) (g : bool) (rotation : Z) (s : paint_session)
    (p : paint_struct_ptr) (ps : paint_struct) :
  read_ps s p = Some ps →
  let pos :=
    if decide (sprite_type ps = VIEWPORT_INTERACTION_ITEM_SPRITE)
    then (zoom_snap (dpi_zoom_level (DPI s)) (int16 (ps_x ps)),
          zoom_snap (dpi_zoom_level (DPI s)) (int16 (ps_y ps)))
    else (int16 (ps_x ps), int16 (ps_y ps)) in
  PaintDrawStruct_position (DPI s) ps = pos
  ∧ PaintDrawStruct (S fuel) g rotation s p
    = (rest ← match children ps with
              | Some c => PaintDrawStruct fuel g rotation s c
              | None => PaintAttachedPS fuel s ps (ViewFlags s)
              end;
       let imageId := PaintPSColourifyImage (image_id ps) (sprite_type ps) (ViewFlags s) in
       Some ((if g && (dpi_zoom_level (DPI s) =? 0)
              then PaintPSImageWithBoundingBoxes rotation ps imageId pos.1 pos.2
              else PaintPSImage ps imageId pos.1 pos.2) ++ rest)).
Proof.
  intros Hps pos. split; [apply PaintDrawStruct_position_spec|].
  rewrite (PaintDrawStruct_unfold _ _ _ _ _ _ Hps).
  by rewrite PaintDrawStruct_position_spec.
Qed.

End Draw.

Lemma C9_sprite_snapped_at_zoom_2_witness :
  PaintDrawStruct (H := example_headers) 1 false 0 example_sprite_13_7 (PaintEntryPtr 0)
  = Some [gfx_draw_sprite 5 {| scr_x := 12; scr_y := 4 |} 0].
Proof.
  apply (C9_sprite_snapped_at_zoom_2 (H := example_headers) 0 false 0 example_sprite_13_7
           (PaintEntryPtr 0) (example_struct_13_7 VIEWPORT_INTERACTION_ITEM_SPRITE)).
  - vm_compute. reflexivity.
  - reflexivity.
  - reflexivity.
  - reflexivity.
  - reflexivity.
  - reflexivity.
  - reflexivity.
Defined.

Lemma C10_snap_only_sprites_witness :
  PaintDrawStruct_position (DPI example_terrain_13_7)
    (example_struct_13_7 VIEWPORT_INTERACTION_ITEM_TERRAIN) = (13, 7)
  ∧ PaintDrawStruct (H := example_headers) 1 false 0 example_terrain_13_7 (PaintEntryPtr 0)
    = Some [gfx_draw_sprite 5 {| scr_x := 13; scr_y := 7 |} 0].
Proof.
  apply (C10_snap_only_sprites (H := example_headers) 0 false 0 example_terrain_13_7
           (PaintEntryPtr 0) (example_struct_13_7 VIEWPORT_INTERACTION_ITEM_TERRAIN)).
  vm_compute. reflexivity.
Defined.

(** * Further properties of the paint core *)

(** ** The dominance tests *)





(** ** The culling test *)

(** X3: for an image and a clip rectangle that are not empty,
    [ImageWithinDPI] holds exactly when a pixel lies in the footprint of the
    image and in the clip rectangle. *)
Theorem ImageWithinDPI_shared_pixel (imagePos : ScreenCoordsXY) (g1 : rct_g1_element)
    (dpi : rct_drawpixelinfo) :
  0 < g1_width g1 → 0 < g1_height g1 → 0 < dpi_width dpi → 0 < dpi_height dpi →
  ImageWithinDPI imagePos g1 dpi = true
  ↔ ∃ px py, pixel_in_footprint imagePos g1 px py ∧ pixel_in_clip dpi px py.
Proof.
  intros Hw Hh Hdw Hdh. unfold ImageWithinDPI, pixel_in_footprint, pixel_in_clip. cbv zeta.
  set (left := scr_x imagePos + g1_x_offset g1).
  set (bottom := scr_y imagePos + g1_y_offset g1).
  split.
  - intros Hin.
    destruct (Z.leb_spec (left + g1_width g1) (dpi_x dpi)); [done|].
    destruct (Z.leb_spec (bottom + g1_height g1) (dpi_y dpi)); [done|].
    destruct (Z.geb_spec left (dpi_x dpi + dpi_width dpi)); [done|].
    destruct (Z.geb_spec bottom (dpi_y dpi + dpi_height dpi)); [done|].
    exists (left `max` dpi_x dpi), (bottom `max` dpi_y dpi). lia.
  - intros (px & py & Hf & Hc).
    destruct (Z.leb_spec (left + g1_width g1) (dpi_x dpi)); [lia|].
    destruct (Z.leb_spec (bottom + g1_height g1) (dpi_y dpi)); [lia|].
    destruct (Z.geb_spec left (dpi_x dpi + dpi_width dpi)); [lia|].
    destruct (Z.geb_spec bottom (dpi_y dpi + dpi_height dpi)); [lia|].
    done.
Qed.

Lemma ImageWithinDPI_shared_pixel_witness :
  ImageWithinDPI {| scr_x := -31; scr_y := -31 |}
    {| g1_width := 64; g1_height := 64; g1_x_offset := -32; g1_y_offset := -32 |}
    (example_dpi 0) = true
  ↔ ∃ px py,
      pixel_in_footprint {| scr_x := -31; scr_y := -31 |}
        {| g1_width := 64; g1_height := 64; g1_x_offset := -32; g1_y_offset := -32 |} px py
      ∧ pixel_in_clip (example_dpi 0) px py.
Proof. apply ImageWithinDPI_shared_pixel; simpl; lia. Defined.

(** ** The see-through recolouring *)

Section SeeThroughProperties.
Context `{PaintHeaders}.

Lemma see_through_twice (imageId F : Z) :
  Z.lor (Z.land (Z.lor (Z.land imageId 0x7FFFF) F) 0x7FFFF) F
  = Z.lor (Z.land imageId 0x7FFFF) F.
Proof.
  apply Z.bits_inj'. intros n Hn.
  rewrite !Z.lor_spec, !Z.land_spec, !Z.lor_spec, !Z.land_spec.
  destruct (Z.testbit imageId n), (Z.testbit F n), (Z.testbit 0x7FFFF n); reflexivity.
Qed.

Lemma PaintPSColourifyImage_see_through (imageId : Z) (spriteType : ViewportInteractionItem)
    (viewFlags : Z) :
  PaintPSColourifyImage imageId spriteType viewFlags
  = if drawn_see_through spriteType viewFlags
    then Z.lor (Z.land imageId 0x7FFFF) seeThoughFlags
    else imageId.
Proof.
  unfold PaintPSColourifyImage, drawn_see_through. cbv zeta. fold seeThoughFlags.
  destruct spriteType;
    destruct (has_flag viewFlags VIEWPORT_FLAG_SEETHROUGH_RIDES),
      (has_flag viewFlags VIEWPORT_FLAG_UNDERGROUND_INSIDE),
      (has_flag viewFlags VIEWPORT_FLAG_SEETHROUGH_PATHS),
      (has_flag viewFlags VIEWPORT_FLAG_SEETHROUGH_SCENERY);
    simpl; rewrite ?see_through_twice; reflexivity.
Qed.

(** X4: [PaintPSColourifyImage] replaces the upper bits of the image id by
    the see-through flags exactly for rides under
    [VIEWPORT_FLAG_SEETHROUGH_RIDES], for walls under
    [VIEWPORT_FLAG_UNDERGROUND_INSIDE] or [VIEWPORT_FLAG_SEETHROUGH_SCENERY],
    for footpaths, footpath items and banners under
    [VIEWPORT_FLAG_SEETHROUGH_PATHS], and for scenery and large scenery
    under [VIEWPORT_FLAG_SEETHROUGH_SCENERY]; every other image id is
    returned as it is, whatever the view flags. *)
Theorem PaintPSColourifyImage_cases (imageId : Z) (spriteType : ViewportInteractionItem)
    (viewFlags : Z) :
  PaintPSColourifyImage imageId spriteType viewFlags
  = if drawn_see_through spriteType viewFlags
    then Z.lor (Z.land imageId 0x7FFFF) seeThoughFlags
    else imageId.
Proof. apply PaintPSColourifyImage_see_through. Qed.

Lemma seeThoughFlags_low :
  Z.land IMAGE_TYPE_TRANSPARENT 0x7FFFF = 0 → Z.land seeThoughFlags 0x7FFFF = 0.
Proof.
  intros HT. unfold seeThoughFlags, uint32.
  rewrite <- Z.land_ones by lia.
  rewrite <- Z.land_assoc. rewrite (Z.land_comm (Z.ones 32)), Z.land_assoc.
  rewrite !Z.land_lor_distr_l, HT.
  assert (∀ c k, 19 ≤ k → Z.land (Z.shiftl c k) 0x7FFFF = 0) as Hshift.
  { intros c k Hk. apply Z.bits_inj'. intros n Hn. rewrite Z.land_spec, Z.bits_0.
    destruct (Z.ltb_spec n 19).
    - rewrite Z.shiftl_spec_low by lia. reflexivity.
    - change 0x7FFFF with (Z.ones 19). rewrite Z.ones_spec_high by lia. apply andb_false_r. }
  rewrite !Hshift by lia. reflexivity.
Qed.

(** X5: the recolouring never changes which image is drawn: when
    [IMAGE_TYPE_TRANSPARENT] lies above the 19 bits of the image index, the
    index of the result is the index of the argument; and recolouring twice
    is recolouring once. *)
Theorem PaintPSColourifyImage_index (imageId : Z) (spriteType : ViewportInteractionItem)
    (viewFlags : Z) :
  Z.land IMAGE_TYPE_TRANSPARENT 0x7FFFF = 0 →
  Z.land (PaintPSColourifyImage imageId spriteType viewFlags) 0x7FFFF = Z.land imageId 0x7FFFF
  ∧ PaintPSColourifyImage (PaintPSColourifyImage imageId spriteType viewFlags) spriteType viewFlags
    = PaintPSColourifyImage imageId spriteType viewFlags.
Proof.
  intros HT. rewrite !PaintPSColourifyImage_see_through.
  destruct (drawn_see_through spriteType viewFlags); [|done]. split.
  - rewrite Z.land_lor_distr_l, (seeThoughFlags_low HT), Z.lor_0_r.
    rewrite <- Z.land_assoc. by rewrite Z.land_diag.
  - apply see_through_twice.
Qed.

End SeeThroughProperties.

Lemma PaintPSColourifyImage_index_witness :
  Z.land (PaintPSColourifyImage (H := example_headers) 0x12345678
            VIEWPORT_INTERACTION_ITEM_WALL 4) 0x7FFFF
  = Z.land 0x12345678 0x7FFFF
  ∧ PaintPSColourifyImage (H := example_headers)
      (PaintPSColourifyImage (H := example_headers) 0x12345678 VIEWPORT_INTERACTION_ITEM_WALL 4)
      VIEWPORT_INTERACTION_ITEM_WALL 4
    = PaintPSColourifyImage (H := example_headers) 0x12345678 VIEWPORT_INTERACTION_ITEM_WALL 4.
Proof.
  apply (PaintPSColourifyImage_index (H := example_headers)). reflexivity.
Defined.

(** ** The draw dispatcher *)

Section DrawChains.
Context `{PaintHeaders}.

Lemma PaintAttachedPS_from_chain (s : paint_session) (ps : paint_struct) (viewFlags : Z)
    (l : list (nat * attached_paint_struct)) :
  ∀ (fuel : nat) (o : option nat),
    attached_chain s o l → (length l ≤ fuel)%nat →
    PaintAttachedPS_from fuel s ps viewFlags o = Some (attached_call ps viewFlags <$> l.*2).
Proof.
  induction l as [|[a v] l IH]; intros fuel o Hl Hfuel; simpl in Hl.
  - subst o. by destruct fuel.
  - destruct Hl as (-> & Hv & Hl). destruct fuel as [|fuel]; [simpl in Hfuel; lia|].
    simpl. rewrite Hv. simpl. rewrite (IH fuel _ Hl) by (simpl in Hfuel; lia). reflexivity.
Qed.

(** X6: [PaintAttachedPS] draws one sprite for every attachment of the chain
    of the primitive, in the order of the chain, at the position of the
    primitive moved by the offset of the attachment, recoloured by the
    classification of the primitive; a masked attachment is drawn through
    [gfx_draw_sprite_raw_masked]. *)
Theorem PaintAttachedPS_chain (s : paint_session) (ps : paint_struct) (viewFlags : Z)
    (l : list (nat * attached_paint_struct)) (fuel : nat) :
  attached_chain s (attached_ps ps) l → (length l ≤ fuel)%nat →
  PaintAttachedPS fuel s ps viewFlags = Some (attached_call ps viewFlags <$> l.*2).
Proof. apply PaintAttachedPS_from_chain. Qed.

Lemma PaintDrawStruct_own fuel g rotation s p ps :
  read_ps s p = Some ps →
  PaintDrawStruct (S fuel) g rotation s p
  = (rest ← match children ps with
            | Some c => PaintDrawStruct fuel g rotation s c
            | None => PaintAttachedPS fuel s ps (ViewFlags s)
            end;
     Some (own_calls g rotation s ps ++ rest)).
Proof. apply PaintDrawStruct_unfold. Qed.

(** X7: [PaintDrawStruct] draws the primitive, then its child, the child of
    its child and so on to the last one, and then the attachments of that
    last child only: the attachments of a primitive that has a child are not
    drawn. *)
Theorem PaintDrawStruct_children (g : bool) (rotation : Z) (s : paint_session)
    (l : list (paint_struct_ptr * paint_struct)) (p : paint_struct_ptr) (v : paint_struct)
    (atts : list (nat * attached_paint_struct)) (fuel : nat) (p0 : paint_struct_ptr) :
  children_chain s (Some p0) (l ++ [(p, v)]) →
  attached_chain s (attached_ps v) atts →
  (length l + length atts < fuel)%nat →
  PaintDrawStruct fuel g rotation s p0
  = Some (concat (own_calls g rotation s <$> (l ++ [(p, v)]).*2)
          ++ (attached_call v (ViewFlags s) <$> atts.*2)).
Proof.
  revert fuel p0. induction l as [|[q w] l IH]; intros fuel p0 Hc Ha Hfuel; simpl in Hc.
  - destruct Hc as ([= ->] & Hv & Hnone). destruct fuel as [|fuel]; [lia|].
    rewrite (PaintDrawStruct_own _ _ _ _ _ _ Hv), Hnone.
    unfold PaintAttachedPS.
    rewrite (PaintAttachedPS_from_chain _ _ _ atts) by (done || simpl in Hfuel; lia).
    simpl. by rewrite app_nil_r.
  - destruct Hc as ([= ->] & Hw & Hc). destruct fuel as [|fuel]; [lia|].
    rewrite (PaintDrawStruct_own _ _ _ _ _ _ Hw).
    destruct (children w) as [c|] eqn:Hcw.
    + rewrite (IH fuel c Hc Ha) by (simpl in Hfuel; lia). simpl. by rewrite app_assoc.
    + destruct l as [|[]]; simpl in Hc; by destruct Hc.
Qed.

Lemma PaintAttachedPS_from_mono (s : paint_session) (ps : paint_struct) (viewFlags : Z) :
  ∀ (fuel fuel' : nat) (o : option nat) (r : list draw_call),
    PaintAttachedPS_from fuel s ps viewFlags o = Some r → (fuel ≤ fuel')%nat →
    PaintAttachedPS_from fuel' s ps viewFlags o = Some r.
Proof.
  induction fuel as [|fuel IH]; intros fuel' o r Hr Hle.
  - destruct o; [done|]. by destruct fuel'.
  - destruct fuel' as [|fuel']; [lia|]. destruct o as [a|]; [|done]. simpl in *.
    destruct (read_attached s a) as [att|]; [|done]. simpl in *.
    destruct (PaintAttachedPS_from fuel s ps viewFlags (att_next att)) as [rest|] eqn:Hrest;
      [|done].
    rewrite (IH fuel' _ _ Hrest) by lia. done.
Qed.

Lemma PaintDrawStruct_mono (g : bool) (rotation : Z) (s : paint_session) :
  ∀ (fuel fuel' : nat) (p : paint_struct_ptr) (r : list draw_call),
    PaintDrawStruct fuel g rotation s p = Some r → (fuel ≤ fuel')%nat →
    PaintDrawStruct fuel' g rotation s p = Some r.
Proof.
  induction fuel as [|fuel IH]; intros fuel' p r Hr Hle; [done|].
  destruct fuel' as [|fuel']; [lia|].
  destruct (read_ps s p) as [ps|] eqn:Hps; [|by simpl in Hr; rewrite Hps in Hr].
  rewrite (PaintDrawStruct_own _ _ _ _ _ _ Hps) in Hr.
  rewrite (PaintDrawStruct_own _ _ _ _ _ _ Hps).
  destruct (children ps) as [c|].
  - destruct (PaintDrawStruct fuel g rotation s c) as [rest|] eqn:Hrest; [|done].
    by rewrite (IH fuel' _ _ Hrest) by lia.
  - unfold PaintAttachedPS in *.
    destruct (PaintAttachedPS_from fuel s ps (ViewFlags s) (attached_ps ps)) as [rest|] eqn:Hrest;
      [|done].
    by rewrite (PaintAttachedPS_from_mono _ _ _ _ fuel' _ _ Hrest) by lia.
Qed.

Lemma PaintDrawStructs_from_chain (g : bool) (rotation : Z) (s : paint_session) (fuel0 : nat)
    (chain : list paint_struct_ptr) :
  ∀ (draws : list (list draw_call)) (o : option paint_struct_ptr) (fuel : nat),
    lseg s o chain None →
    Forall2 (λ p d, PaintDrawStruct fuel0 g rotation s p = Some d) chain draws →
    (length chain + fuel0 ≤ fuel)%nat →
    PaintDrawStructs_from fuel g rotation s o = Some (concat draws).
Proof.
  induction chain as [|p chain IH]; intros draws o fuel Hl Hd Hfuel; simpl in Hl.
  - subst o. apply Forall2_nil_inv_l in Hd as ->. by destruct fuel.
  - destruct Hl as (-> & n & Hn & Hl).
    apply Forall2_cons_inv_l in Hd as (d & draws' & Hd & Hds & ->).
    destruct fuel as [|fuel]; [simpl in Hfuel; lia|]. simpl.
    rewrite (PaintDrawStruct_mono _ _ _ fuel0 fuel _ _ Hd) by (simpl in Hfuel; lia). simpl.
    unfold next_of in Hn. destruct (read_ps s p) as [v|]; [|done]. simpl in *.
    injection Hn as ->. rewrite (IH draws' _ fuel Hl Hds) by lia. done.
Qed.

(** X8: [PaintDrawStructs] draws the primitives of the chain behind
    [PaintHead], each once, in the order of the chain: its calls are the
    calls of [PaintDrawStruct] for the first primitive, then for the second,
    and so on; an empty chain draws nothing. *)
Theorem PaintDrawStructs_chain (g : bool) (rotation : Z) (s : paint_session) (fuel0 fuel : nat)
    (chain : list paint_struct_ptr) (draws : list (list draw_call)) :
  lseg s (Some PaintHeadPtr) (PaintHeadPtr :: chain) None →
  Forall2 (λ p d, PaintDrawStruct fuel0 g rotation s p = Some d) chain draws →
  (length chain + fuel0 ≤ fuel)%nat →
  PaintDrawStructs fuel g rotation s = Some (concat draws).
Proof.
  intros (_ & n & Hn & Hl) Hd Hfuel. unfold PaintDrawStructs.
  unfold next_of in Hn. simpl in Hn. injection Hn as ->.
  by eapply PaintDrawStructs_from_chain.
Qed.

(** The debug bounding boxes. *)
Lemma PaintPSImage_no_line ps imageId x y :
  List.filter (λ c, negb (is_line c)) (PaintPSImage ps imageId x y) = PaintPSImage ps imageId x y.
Proof. unfold PaintPSImage. by destruct (has_flag _ _). Qed.

Lemma own_calls_no_line rotation s ps :
  List.filter (λ c, negb (is_line c)) (own_calls true rotation s ps) = own_calls false rotation s ps.
Proof.
  unfold own_calls. cbv zeta. simpl.
  destruct (dpi_zoom_level (DPI s) =? 0); [|apply PaintPSImage_no_line].
  unfold PaintPSImageWithBoundingBoxes. cbv zeta.
  rewrite !List.filter_app, PaintPSImage_no_line. simpl. by rewrite app_nil_r.
Qed.

Lemma PaintAttachedPS_from_no_line s ps viewFlags :
  ∀ fuel o r, PaintAttachedPS_from fuel s ps viewFlags o = Some r →
    List.filter (λ c, negb (is_line c)) r = r.
Proof.
  induction fuel as [|fuel IH]; intros o r Hr.
  - destruct o; [done|]. by injection Hr as <-.
  - destruct o as [a|]; [|by injection Hr as <-]. simpl in Hr.
    destruct (read_attached s a) as [att|]; [|done]. simpl in Hr.
    destruct (PaintAttachedPS_from fuel s ps viewFlags (att_next att)) as [rest|] eqn:Hrest;
      [|done].
    simpl in Hr. injection Hr as <-. simpl. rewrite (IH _ _ Hrest).
    by destruct (has_flag (att_flags att) PAINT_STRUCT_FLAG_IS_MASKED).
Qed.

Lemma PaintDrawStruct_no_line rotation s :
  ∀ fuel p,
    PaintDrawStruct fuel false rotation s p
    = List.filter (λ c, negb (is_line c)) <$> PaintDrawStruct fuel true rotation s p.
Proof.
  induction fuel as [|fuel IH]; intros p; [done|].
  destruct (read_ps s p) as [ps|] eqn:Hps; [|by simpl; rewrite Hps].
  rewrite !(PaintDrawStruct_own _ _ _ _ _ _ Hps).
  destruct (children ps) as [c|].
  - rewrite IH. destruct (PaintDrawStruct fuel true rotation s c) as [rest|]; [|done].
    simpl. by rewrite List.filter_app, own_calls_no_line.
  - unfold PaintAttachedPS.
    destruct (PaintAttachedPS_from fuel s ps (ViewFlags s) (attached_ps ps)) as [rest|] eqn:Hrest;
      [|done].
    simpl. rewrite List.filter_app, own_calls_no_line.
    by rewrite (PaintAttachedPS_from_no_line _ _ _ _ _ _ Hrest).
Qed.

Lemma PaintDrawStructs_from_no_line rotation s :
  ∀ fuel o,
    PaintDrawStructs_from fuel false rotation s o
    = List.filter (λ c, negb (is_line c)) <$> PaintDrawStructs_from fuel true rotation s o.
Proof.
  induction fuel as [|fuel IH]; intros o.
  - by destruct o.
  - destruct o as [p|]; [|done]. simpl. rewrite PaintDrawStruct_no_line.
    destruct (PaintDrawStruct fuel true rotation s p) as [calls|]; [|done]. simpl.
    destruct (read_ps s p) as [v|]; [|done]. simpl. rewrite IH.
    destruct (PaintDrawStructs_from fuel true rotation s (next_quadrant_ps v)) as [rest|];
      [|done].
    simpl. by rewrite List.filter_app.
Qed.

(** X9: switching the debug bounding boxes on only adds lines: the sprite
    calls [PaintDrawStructs] makes with [gPaintBoundingBoxes] set, and their
    order, are the calls it makes without; and it returns with the one
    setting when it does with the other. *)
Theorem PaintDrawStructs_bounding_boxes (rotation : Z) (s : paint_session) (fuel : nat) :
  PaintDrawStructs fuel false rotation s
  = List.filter (λ c, negb (is_line c)) <$> PaintDrawStructs fuel true rotation s.
Proof. apply PaintDrawStructs_from_no_line. Qed.

End DrawChains.

(** ** The pool during the generation phase *)

Section PoolProperties.
Context `{PaintHeaders}.

Lemma attached_chain_mono (s s' : paint_session) :
  (∀ a v, read_attached s a = Some v → read_attached s' a = Some v) →
  ∀ l o, attached_chain s o l → attached_chain s' o l.
Proof.
  intros Hread. induction l as [|[a v] l IH]; intros o Hl; simpl in *; [done|].
  destruct Hl as (-> & Hv & Hl). eauto.
Qed.

Lemma pool_inv_mono (s s' : paint_session) :
  pool_inv s →
  (length (PaintStructs s) ≤ length (PaintStructs s') ≤ MaxPaintEntries)%nat →
  (∀ a v, read_attached s a = Some v → read_attached s' a = Some v) →
  (∀ p, is_Some (read_ps s p) → is_Some (read_ps s' p)) →
  (∀ (i : nat) v', read_ps s' (PaintEntryPtr i) = Some v' →
     (∃ v, read_ps s (PaintEntryPtr i) = Some v
        ∧ children v' = children v ∧ attached_ps v' = attached_ps v)
     ∨ ((∀ c, children v' = Some c →
           ∃ j : nat, c = PaintEntryPtr j ∧ (i < j)%nat ∧ is_Some (read_ps s' c))
        ∧ (∀ a, attached_ps v' = Some a → is_Some (read_attached s' a)))) →
  (∀ (i : nat) a, read_attached s' i = Some a →
     read_attached s i = Some a
     ∨ ∃ l, attached_chain s' (Some i) l ∧ (length l ≤ length (PaintStructs s'))%nat) →
  cursors_in_pool s' →
  pool_inv s'.
Proof.
  intros [Hcap Hch Hatt Hchain Hlast] Hlen Hra Hrp Hentries Hatts Hlast'. split; [lia | | | | done].
  - intros i v' c Hv' Hc. destruct (Hentries i v' Hv') as [(v & Hv & Hcv & _) | [Hnew _]]; [|eauto].
    rewrite Hcv in Hc. destruct (Hch i v c Hv Hc) as (j & -> & Hij & Hj). eauto.
  - intros i v' a Hv' Ha. destruct (Hentries i v' Hv') as [(v & Hv & _ & Hav) | [_ Hnew]]; [|eauto].
    rewrite Hav in Ha. destruct (Hatt i v a Hv Ha) as [w Hw]. eauto.
  - intros i a Ha. destruct (Hatts i a Ha) as [Hold | Hnew]; [|done].
    destruct (Hchain i a Hold) as (l & Hl & Hll). exists l. split; [|lia].
    by eapply attached_chain_mono.
Qed.

(** Steps that leave the pool alone. *)
Lemma pool_inv_same_pool (s s' : paint_session) :
  pool_inv s → PaintStructs s' = PaintStructs s →
  (LastPS s' = None ∨ LastPS s' = LastPS s) →
  (LastAttachedPS s' = None ∨ LastAttachedPS s' = LastAttachedPS s) →
  pool_inv s'.
Proof.
  intros Hinv Hpool Hlast Hlasta.
  assert (∀ a, read_attached s' a = read_attached s a) as Hra
    by (intros a; unfold read_attached; by rewrite Hpool).
  assert (∀ i : nat, read_ps s' (PaintEntryPtr i) = read_ps s (PaintEntryPtr i)) as Hrp
    by (intros i; simpl; by rewrite Hpool).
  eapply pool_inv_mono; [exact Hinv | | | | | | ].
  - rewrite Hpool. split; [done | apply (pool_capacity _ Hinv)].
  - intros a v. by rewrite Hra.
  - intros [|i]; [by eauto | by rewrite Hrp].
  - intros i v' Hv'. left. exists v'. by rewrite <- Hrp.
  - intros i a Ha. left. by rewrite <- Hra.
  - destruct (pool_cursors _ Hinv) as [Hc1 Hc2]. split.
    + intros p Hp. destruct Hlast as [Hl|Hl]; rewrite Hl in Hp; [done|].
      destruct (Hc1 p Hp) as [Hne Hv]. split; [done|].
      destruct p as [|i]; [done|]. by rewrite Hrp.
    + intros a Ha. destruct Hlasta as [Hl|Hl]; rewrite Hl in Ha; [done|].
      rewrite Hra. by apply Hc2.
Qed.

Lemma read_ps_app (s : paint_session) (e : paint_entry) (p : paint_struct_ptr) (v : paint_struct) :
  read_ps s p = Some v → read_ps (set_PaintStructs (PaintStructs s ++ [e]) s) p = Some v.
Proof.
  destruct p as [|i]; simpl; [done|].
  destruct (PaintStructs s !! i) as [e'|] eqn:Hi; [|done].
  rewrite lookup_app_l by (by eapply lookup_lt_Some). by rewrite Hi.
Qed.

Lemma read_attached_app (s : paint_session) (e : paint_entry) (i : nat)
    (a : attached_paint_struct) :
  read_attached s i = Some a →
  read_attached (set_PaintStructs (PaintStructs s ++ [e]) s) i = Some a.
Proof.
  unfold read_attached. simpl.
  destruct (PaintStructs s !! i) as [e'|] eqn:Hi; [|done].
  rewrite lookup_app_l by (by eapply lookup_lt_Some). by rewrite Hi.
Qed.

Lemma lookup_app_inv {A} (l : list A) (e : A) (i : nat) (x : A) :
  (l ++ [e]) !! i = Some x → l !! i = Some x ∨ (i = length l ∧ x = e).
Proof.
  intros Hi. destruct (decide (i < length l)%nat) as [Hlt|Hge].
  - left. by rewrite lookup_app_l in Hi.
  - rewrite lookup_app_r in Hi by lia. right.
    destruct (i - length l)%nat as [|k] eqn:Hk; simpl in Hi; [|by destruct k].
    injection Hi as <-. split; [lia | done].
Qed.

Lemma read_ps_alloc_new (s : paint_session) (lp : option paint_struct_ptr) (la : option nat)
    (v : paint_struct) :
  read_ps (set_LastAttachedPS la
             (set_LastPS lp (set_PaintStructs (PaintStructs s ++ [EntryBasic v]) s)))
    (PaintEntryPtr (length (PaintStructs s)))
  = Some v.
Proof. simpl. by rewrite lookup_app_r, Nat.sub_diag by lia. Qed.

(** Allocating a primitive without child and attachment. *)
Lemma pool_inv_alloc_root (s : paint_session) (entry : paint_struct) :
  pool_inv s → NoPaintStructsAvailable s = false →
  children entry = None → attached_ps entry = None →
  pool_inv (set_LastAttachedPS None
              (set_LastPS (Some (PaintEntryPtr (length (PaintStructs s))))
                 (set_PaintStructs (PaintStructs s ++ [EntryBasic entry]) s))).
Proof.
  intros Hinv Hroom Hc Ha. apply bool_decide_eq_false in Hroom.
  eapply pool_inv_mono; [exact Hinv | | | | | | ].
  - simpl. rewrite length_app. simpl. lia.
  - intros a v. apply read_attached_app.
  - intros p [v Hv]. exists v. by apply (read_ps_app s (EntryBasic entry)).
  - intros i v'. simpl. intros Hv'.
    destruct ((PaintStructs s ++ [EntryBasic entry]) !! i) as [e|] eqn:Hi; [|done].
    destruct (lookup_app_inv _ _ _ _ Hi) as [Hold | [-> ->]].
    + left. exists v'. rewrite Hold. by destruct e.
    + right. injection Hv' as <-. rewrite Hc, Ha. by split.
  - intros i a. unfold read_attached. simpl. intros Hi.
    destruct ((PaintStructs s ++ [EntryBasic entry]) !! i) as [e|] eqn:He; [|done].
    destruct (lookup_app_inv _ _ _ _ He) as [Hold | [-> ->]]; [|done].
    left. by rewrite Hold.
  - split; [|done]. intros p [= <-]. split; [done|]. rewrite read_ps_alloc_new. eauto.
Qed.

Lemma cursors_in_pool_write_ps (s : paint_session) (p : paint_struct_ptr) (v0 v : paint_struct) :
  read_ps s p = Some v0 → cursors_in_pool s → cursors_in_pool (write_ps p v s).
Proof.
  intros Hv0 [Hc1 Hc2]. split.
  - intros q Hq. assert (LastPS s = Some q) as Hq' by (by destruct p).
    destruct (Hc1 q Hq') as [Hne [w Hw]]. split; [done|].
    destruct (decide (p = q)) as [<-|Hpq].
    + erewrite read_write_eq by done. eauto.
    + rewrite read_write_ne by done. eauto.
  - intros a Ha. assert (LastAttachedPS s = Some a) as Ha' by (by destruct p).
    erewrite read_attached_write_ps by done. by apply Hc2.
Qed.

(** Writing fields other than [children] and [attached_ps]. *)
Lemma pool_inv_write_ps (s : paint_session) (p : paint_struct_ptr) (v0 v : paint_struct) :
  pool_inv s → read_ps s p = Some v0 →
  children v = children v0 → attached_ps v = attached_ps v0 →
  pool_inv (write_ps p v s).
Proof.
  intros Hinv Hv0 Hc Ha.
  assert (∀ q w, read_ps (write_ps p v s) q = Some w →
            ∃ w0, read_ps s q = Some w0 ∧ children w = children w0
              ∧ attached_ps w = attached_ps w0) as Hread.
  { intros q w Hw. destruct (decide (p = q)) as [<-|Hne].
    - erewrite read_write_eq in Hw by done. injection Hw as <-. eauto.
    - rewrite read_write_ne in Hw by done. eauto. }
  eapply pool_inv_mono; [exact Hinv | | | | | | ].
  - destruct p; simpl; rewrite ?length_insert; split; try done; apply (pool_capacity _ Hinv).
  - intros a w. by erewrite read_attached_write_ps.
  - intros q [w Hw]. destruct (decide (p = q)) as [<-|Hne].
    + erewrite read_write_eq by done. eauto.
    + rewrite read_write_ne by done. eauto.
  - intros i v' Hv'. left. by apply Hread.
  - intros i a Hi. left. by erewrite read_attached_write_ps in Hi.
  - by eapply cursors_in_pool_write_ps, pool_cursors.
Qed.

End PoolProperties.

(** ** The creation functions *)

Section CreationProperties.
Context `{PaintHeaders}.

Lemma sub_9819_c_Some (s : paint_session) (image_id : Z)
    (offset boundBoxSize boundBoxOffset : CoordsXYZ) (v : paint_struct) :
  sub_9819_c s image_id offset boundBoxSize boundBoxOffset = Some v →
  NoPaintStructsAvailable s = false
  ∧ children v = None ∧ attached_ps v = None ∧ flags v = 0
  ∧ sprite_type v = InteractionType s.
Proof.
  unfold sub_9819_c. destruct (NoPaintStructsAvailable s); [done|].
  destruct (gfx_get_g1_element _); [|done].
  destruct (negb _); [done|]. by intros [= <-].
Qed.





Lemma read_attached_fresh (s : paint_session) :
  read_attached s (length (PaintStructs s)) = None.
Proof. unfold read_attached. by rewrite lookup_ge_None_2 by lia. Qed.



Lemma read_attached_write_attached_eq (s : paint_session) (i : nat)
    (a a0 : attached_paint_struct) :
  read_attached s i = Some a0 → read_attached (write_attached i a s) i = Some a.
Proof.
  unfold read_attached. simpl. destruct (PaintStructs s !! i) as [e|] eqn:Hi; [|done].
  intros _. by rewrite list_lookup_insert_eq by (by eapply lookup_lt_Some).
Qed.

Lemma read_attached_write_attached_ne (s : paint_session) (i j : nat)
    (a : attached_paint_struct) :
  i ≠ j → read_attached (write_attached i a s) j = read_attached s j.
Proof. intros Hne. unfold read_attached. simpl. by rewrite list_lookup_insert_ne. Qed.

Lemma read_ps_write_attached (s : paint_session) (i : nat) (a a0 : attached_paint_struct)
    (p : paint_struct_ptr) :
  read_attached s i = Some a0 → read_ps (write_attached i a s) p = read_ps s p.
Proof.
  unfold read_attached. destruct p as [|j]; [done|]. simpl.
  destruct (PaintStructs s !! i) as [[]|] eqn:Hi; try done. intros _.
  destruct (decide (i = j)) as [<-|Hne].
  - rewrite list_lookup_insert_eq by (by eapply lookup_lt_Some). by rewrite Hi.
  - by rewrite list_lookup_insert_ne.
Qed.

Lemma read_attached_alloc_attached (s : paint_session) (la : option nat)
    (e : attached_paint_struct) (a : nat) (v : attached_paint_struct) :
  read_attached s a = Some v →
  read_attached (set_LastAttachedPS la (set_PaintStructs (PaintStructs s ++ [EntryAttached e]) s)) a
  = Some v.
Proof. apply read_attached_app. Qed.

Lemma read_attached_alloc_new (s : paint_session) (la : option nat) (e : attached_paint_struct) :
  read_attached (set_LastAttachedPS la (set_PaintStructs (PaintStructs s ++ [EntryAttached e]) s))
    (length (PaintStructs s))
  = Some e.
Proof. unfold read_attached. simpl. by rewrite lookup_app_r, Nat.sub_diag by lia. Qed.

Lemma read_ps_alloc_attached (s : paint_session) (la : option nat) (e : attached_paint_struct)
    (p : paint_struct_ptr) :
  read_ps (set_LastAttachedPS la (set_PaintStructs (PaintStructs s ++ [EntryAttached e]) s)) p
  = read_ps s p.
Proof.
  destruct p as [|i]; [done|]. simpl.
  destruct (decide (i < length (PaintStructs s))%nat) as [Hlt|Hge].
  - by rewrite lookup_app_l.
  - rewrite lookup_app_r, (lookup_ge_None_2 (PaintStructs s)) by lia.
    destruct (i - length (PaintStructs s))%nat as [|k]; simpl; [done|]. by destruct k.
Qed.

Lemma attached_chain_valid (s : paint_session) (l : list (nat * attached_paint_struct))
    (o : option nat) (a : nat) :
  attached_chain s o l → a ∈ l.*1 → is_Some (read_attached s a).
Proof.
  revert o. induction l as [|[b v] l IH]; intros o Hl Ha; simpl in *.
  - by apply elem_of_nil in Ha.
  - destruct Hl as (-> & Hv & Hl). apply elem_of_cons in Ha as [->|Ha]; eauto.
Qed.

(** What a successful [PaintAttachToPreviousPS] leaves. *)
Lemma PaintAttachToPreviousPS_run (s : paint_session) (image_id x y : Z)
    (masterPs : paint_struct_ptr) (vm : paint_struct) :
  NoPaintStructsAvailable s = false →
  LastPS s = Some masterPs → read_ps s masterPs = Some vm →
  let n := length (PaintStructs s) in
  let e := {| att_image_id := image_id;
              att_colour_image_id := att_colour_image_id indeterminate_attached_paint_struct;
              att_x := int16 x; att_y := int16 y; att_flags := 0;
              att_next := att_next indeterminate_attached_paint_struct |} in
  PaintAttachToPreviousPS image_id x y s
  = Some (true,
          write_attached n (set_att_next (attached_ps vm) e)
            (write_ps masterPs (set_attached_ps (Some n) vm)
               (set_LastAttachedPS (Some n)
                  (set_PaintStructs (PaintStructs s ++ [EntryAttached e]) s)))).
Proof.
  intros Hroom HLast Hvm n e. unfold PaintAttachToPreviousPS. munfold. rewrite Hroom, HLast.
  unfold AllocateAttachedPaintEntry. cbv zeta. fold n. fold e.
  rewrite read_ps_alloc_attached, Hvm. rewrite read_ps_alloc_attached, Hvm.
  erewrite read_attached_write_ps by (by rewrite read_ps_alloc_attached).
  unfold n. by rewrite read_attached_alloc_new.
Qed.

Lemma PaintAttachToPreviousPS_spec (s : paint_session) (image_id x y : Z)
    (masterPs : paint_struct_ptr) (vm : paint_struct) :
  NoPaintStructsAvailable s = false →
  LastPS s = Some masterPs → read_ps s masterPs = Some vm →
  ∃ s' e,
    PaintAttachToPreviousPS image_id x y s = Some (true, s')
    ∧ (att_image_id e = image_id ∧ att_x e = int16 x ∧ att_y e = int16 y ∧ att_flags e = 0
       ∧ att_next e = attached_ps vm)
    ∧ length (PaintStructs s') = S (length (PaintStructs s))
    ∧ read_ps s' masterPs = Some (set_attached_ps (Some (length (PaintStructs s))) vm)
    ∧ (∀ q, q ≠ masterPs → read_ps s' q = read_ps s q)
    ∧ read_attached s' (length (PaintStructs s)) = Some e
    ∧ (∀ a, a ≠ length (PaintStructs s) → read_attached s' a = read_attached s a)
    ∧ LastAttachedPS s' = Some (length (PaintStructs s))
    ∧ LastPS s' = Some masterPs
    ∧ Quadrants s' = Quadrants s
    ∧ QuadrantBackIndex s' = QuadrantBackIndex s
    ∧ QuadrantFrontIndex s' = QuadrantFrontIndex s
    ∧ CurrentRotation s' = CurrentRotation s.
Proof.
  intros Hroom HLast Hvm.
  pose proof (PaintAttachToPreviousPS_run s image_id x y masterPs vm Hroom HLast Hvm) as Hrun.
  cbv zeta in Hrun. revert Hrun.
  set (n := length (PaintStructs s)).
  set (e := {| att_image_id := image_id; att_colour_image_id := _; att_x := _; att_y := _;
               att_flags := _; att_next := _ |}).
  set (s1 := set_LastAttachedPS (Some n) (set_PaintStructs (PaintStructs s ++ [EntryAttached e]) s)).
  set (s2 := write_ps masterPs (set_attached_ps (Some n) vm) s1).
  intros Hrun.
  assert (read_ps s1 masterPs = Some vm) as Hvm1 by (unfold s1; by rewrite read_ps_alloc_attached).
  assert (read_attached s2 n = Some e) as Hn2.
  { unfold s2. erewrite read_attached_write_ps by done. apply read_attached_alloc_new. }
  exists (write_attached n (set_att_next (attached_ps vm) e) s2), (set_att_next (attached_ps vm) e).
  split; [done|]. split; [done|].
  split; [|split; [|split; [|split; [|split; [|split; [|split; [|split; [|split; [|split]]]]]]]]].
  - destruct masterPs; simpl; rewrite ?length_insert, length_app; simpl; lia.
  - erewrite read_ps_write_attached by done. by eapply read_write_eq.
  - intros q Hq. erewrite read_ps_write_attached by done. unfold s2.
    rewrite read_write_ne by done. apply read_ps_alloc_attached.
  - by eapply read_attached_write_attached_eq.
  - intros a Ha. rewrite read_attached_write_attached_ne by done.
    unfold s2. erewrite read_attached_write_ps by done. unfold read_attached, s1. simpl.
    destruct (decide (a < n)%nat) as [Hlt|Hge].
    + by rewrite lookup_app_l.
    + rewrite lookup_app_r, (lookup_ge_None_2 (PaintStructs s)) by (unfold n in *; lia).
      destruct (a - length (PaintStructs s))%nat as [|k] eqn:Hk; [unfold n in *; lia|].
      by destruct k.
  - by destruct masterPs.
  - by destruct masterPs.
  - by destruct masterPs.
  - by destruct masterPs.
  - by destruct masterPs.
  - by destruct masterPs.
Qed.

Lemma read_attached_Some_ne_fresh (s : paint_session) (a : nat) (v : attached_paint_struct) :
  read_attached s a = Some v → a ≠ length (PaintStructs s).
Proof. intros Ha ->. by rewrite read_attached_fresh in Ha. Qed.

(** X12: a successful [PaintAttachToPreviousPS] puts the new attachment in
    front of the attachments of the last primitive: it returns true, the new
    attachment takes the next slot of the pool with the given image and
    offset and no flag, the chain of the primitive is the new attachment
    followed by the old chain, and the new attachment is the "last attached"
    one.  The bucket table and the other primitives are untouched. *)
Theorem PaintAttachToPreviousPS_prepends (s : paint_session) (image_id x y : Z)
    (masterPs : paint_struct_ptr) (vm : paint_struct) (l : list (nat * attached_paint_struct)) :
  NoPaintStructsAvailable s = false →
  LastPS s = Some masterPs → read_ps s masterPs = Some vm →
  attached_chain s (attached_ps vm) l →
  ∃ s' e,
    PaintAttachToPreviousPS image_id x y s = Some (true, s')
    ∧ att_image_id e = image_id ∧ att_x e = int16 x ∧ att_y e = int16 y ∧ att_flags e = 0
    ∧ read_ps s' masterPs = Some (set_attached_ps (Some (length (PaintStructs s))) vm)
    ∧ attached_chain s' (Some (length (PaintStructs s))) ((length (PaintStructs s), e) :: l)
    ∧ LastAttachedPS s' = Some (length (PaintStructs s))
    ∧ LastPS s' = Some masterPs
    ∧ Quadrants s' = Quadrants s
    ∧ (∀ q, q ≠ masterPs → read_ps s' q = read_ps s q).
Proof.
  intros Hroom HLast Hvm Hl.
  destruct (PaintAttachToPreviousPS_spec s image_id x y masterPs vm Hroom HLast Hvm)
    as (s' & e & Hrun & (Hi & Hx & Hy & Hf & Hnext) & Hlen & Hm & Hps & He & Hatt & HLA & HLP
        & HQ & _).
  exists s', e. repeat (split; [done|]). split; [|done].
  simpl. split; [done|]. split; [done|]. rewrite Hnext.
  eapply attached_chain_mono; [|exact Hl]. intros a v Ha.
  rewrite Hatt; [done|]. by eapply read_attached_Some_ne_fresh.
Qed.

Lemma attached_chain_redirect (s s' : paint_session) (last n : nat)
    (vl e : attached_paint_struct) :
  read_attached s' last = Some (set_att_next (Some n) vl) →
  read_attached s' n = Some e → att_next e = None →
  (∀ a v, a ≠ last → read_attached s a = Some v → read_attached s' a = Some v) →
  ∀ l1 l2 o,
    attached_chain s o (l1 ++ (last, vl) :: l2) → last ∉ l1.*1 →
    attached_chain s' o (l1 ++ [(last, set_att_next (Some n) vl); (n, e)]).
Proof.
  intros Hlast Hn He Hold. induction l1 as [|[a v] l1 IH]; intros l2 o Hl Hnot; simpl in *.
  - destruct Hl as (-> & _ & _). done.
  - destruct Hl as (-> & Hv & Hl). apply not_elem_of_cons in Hnot as [Hne Hnot].
    split; [done|]. split; [by apply Hold|]. by eapply IH.
Qed.

(** What a successful [PaintAttachToPreviousAttach] leaves. *)
Lemma PaintAttachToPreviousAttach_run (s : paint_session) (image_id x y : Z)
    (previousAttachedPS : nat) (vl : attached_paint_struct) :
  LastAttachedPS s = Some previousAttachedPS →
  read_attached s previousAttachedPS = Some vl →
  NoPaintStructsAvailable s = false →
  let n := length (PaintStructs s) in
  let e := {| att_image_id := image_id;
              att_colour_image_id := att_colour_image_id indeterminate_attached_paint_struct;
              att_x := int16 x; att_y := int16 y; att_flags := 0; att_next := None |} in
  PaintAttachToPreviousAttach image_id x y s
  = Some (true,
          write_attached previousAttachedPS (set_att_next (Some n) vl)
            (set_LastAttachedPS (Some n)
               (set_PaintStructs (PaintStructs s ++ [EntryAttached e]) s))).
Proof.
  intros HLast Hvl Hroom n e. unfold PaintAttachToPreviousAttach. munfold.
  rewrite HLast, Hroom. unfold AllocateAttachedPaintEntry. cbv zeta. fold n. fold e.
  by erewrite read_attached_alloc_attached by done.
Qed.

Lemma PaintAttachToPreviousAttach_spec (s : paint_session) (image_id x y : Z)
    (previousAttachedPS : nat) (vl : attached_paint_struct) :
  LastAttachedPS s = Some previousAttachedPS →
  read_attached s previousAttachedPS = Some vl →
  NoPaintStructsAvailable s = false →
  ∃ s' e,
    PaintAttachToPreviousAttach image_id x y s = Some (true, s')
    ∧ (att_image_id e = image_id ∧ att_x e = int16 x ∧ att_y e = int16 y ∧ att_flags e = 0
       ∧ att_next e = None)
    ∧ length (PaintStructs s') = S (length (PaintStructs s))
    ∧ (∀ p, read_ps s' p = read_ps s p)
    ∧ read_attached s' previousAttachedPS
      = Some (set_att_next (Some (length (PaintStructs s))) vl)
    ∧ read_attached s' (length (PaintStructs s)) = Some e
    ∧ (∀ a, a ≠ previousAttachedPS → a ≠ length (PaintStructs s) →
         read_attached s' a = read_attached s a)
    ∧ LastAttachedPS s' = Some (length (PaintStructs s))
    ∧ LastPS s' = LastPS s
    ∧ Quadrants s' = Quadrants s
    ∧ QuadrantBackIndex s' = QuadrantBackIndex s
    ∧ QuadrantFrontIndex s' = QuadrantFrontIndex s
    ∧ CurrentRotation s' = CurrentRotation s.
Proof.
  intros HLast Hvl Hroom.
  pose proof (PaintAttachToPreviousAttach_run s image_id x y _ vl HLast Hvl Hroom) as Hrun.
  cbv zeta in Hrun. revert Hrun.
  set (n := length (PaintStructs s)).
  set (e := {| att_image_id := image_id; att_colour_image_id := _; att_x := _; att_y := _;
               att_flags := _; att_next := _ |}).
  set (s1 := set_LastAttachedPS (Some n) (set_PaintStructs (PaintStructs s ++ [EntryAttached e]) s)).
  intros Hrun.
  assert (read_attached s1 previousAttachedPS = Some vl) as Hvl1
    by (by apply read_attached_alloc_attached).
  assert (previousAttachedPS ≠ n) as Hne by (by eapply read_attached_Some_ne_fresh).
  exists (write_attached previousAttachedPS (set_att_next (Some n) vl) s1), e.
  split; [done|]. split; [done|].
  split; [|split; [|split; [|split; [|split]]]]; [| | | | | done].
  - simpl. rewrite length_insert, length_app. simpl. lia.
  - intros p. erewrite read_ps_write_attached by done. apply read_ps_alloc_attached.
  - by eapply read_attached_write_attached_eq.
  - rewrite read_attached_write_attached_ne by done. apply read_attached_alloc_new.
  - intros a Ha Han. rewrite read_attached_write_attached_ne by done.
    unfold read_attached, s1. simpl.
    destruct (decide (a < n)%nat) as [Hlt|Hge].
    + by rewrite lookup_app_l.
    + rewrite lookup_app_r, (lookup_ge_None_2 (PaintStructs s)) by (unfold n in *; lia).
      destruct (a - length (PaintStructs s))%nat as [|k] eqn:Hk; [unfold n in *; lia|].
      by destruct k.
Qed.

(** X13: a successful [PaintAttachToPreviousAttach] hangs the new attachment
    behind the last attached one: it returns true, the new attachment takes
    the next slot of the pool and ends its chain, and every chain that ran
    through the last attached one now runs up to it and then to the new
    attachment; what followed the last attached one before is no longer
    reached.  The primitives are untouched. *)
Theorem PaintAttachToPreviousAttach_appends (s : paint_session) (image_id x y : Z)
    (previousAttachedPS : nat) (vl : attached_paint_struct) :
  LastAttachedPS s = Some previousAttachedPS →
  read_attached s previousAttachedPS = Some vl →
  NoPaintStructsAvailable s = false →
  ∃ s' e,
    PaintAttachToPreviousAttach image_id x y s = Some (true, s')
    ∧ att_image_id e = image_id ∧ att_x e = int16 x ∧ att_y e = int16 y ∧ att_flags e = 0
    ∧ LastAttachedPS s' = Some (length (PaintStructs s))
    ∧ LastPS s' = LastPS s
    ∧ Quadrants s' = Quadrants s
    ∧ (∀ p, read_ps s' p = read_ps s p)
    ∧ (∀ l1 l2 o,
         attached_chain s o (l1 ++ (previousAttachedPS, vl) :: l2) →
         previousAttachedPS ∉ l1.*1 →
         attached_chain s' o
           (l1 ++ [(previousAttachedPS, set_att_next (Some (length (PaintStructs s))) vl);
                   (length (PaintStructs s), e)]))
    ∧ (∀ l o, attached_chain s o l → previousAttachedPS ∉ l.*1 → attached_chain s' o l).
Proof.
  intros HLast Hvl Hroom.
  destruct (PaintAttachToPreviousAttach_spec s image_id x y _ vl HLast Hvl Hroom)
    as (s' & e & Hrun & (Hi & Hx & Hy & Hf & Hnext) & Hlen & Hps & Hl' & He & Hatt & HLA & HLP
        & HQ & _).
  assert (∀ a v, a ≠ previousAttachedPS → read_attached s a = Some v →
            read_attached s' a = Some v) as Hold.
  { intros a v Ha Hv. rewrite Hatt; [done | done |]. by eapply read_attached_Some_ne_fresh. }
  exists s', e. repeat (split; [done|]). split.
  - by apply (attached_chain_redirect s s' previousAttachedPS _ vl e).
  - intros l. induction l as [|[a v] l IH]; intros o Hl Hnot; simpl in *; [done|].
    destruct Hl as (-> & Hv & Hl). apply not_elem_of_cons in Hnot as [Ha Hnot].
    split; [done|]. split; [by apply Hold|]. by apply IH.
Qed.

End CreationProperties.

(** ** The pool invariant through the generation phase *)

Section PoolGeneration.
Context `{PaintHeaders}.

Lemma pool_inv_set_children (s : paint_session) (i j : nat) (v : paint_struct) :
  pool_inv s → read_ps s (PaintEntryPtr i) = Some v →
  is_Some (read_ps s (PaintEntryPtr j)) → (i < j)%nat →
  pool_inv (write_ps (PaintEntryPtr i) (set_children (Some (PaintEntryPtr j)) v) s).
Proof.
  intros Hinv Hv Hj Hij.
  assert (∀ q, is_Some (read_ps s q) →
            is_Some (read_ps (write_ps (PaintEntryPtr i)
                                (set_children (Some (PaintEntryPtr j)) v) s) q)) as Hvalid.
  { intros q [w Hw]. destruct (decide (PaintEntryPtr i = q)) as [<-|Hne].
    - erewrite read_write_eq by done. eauto.
    - rewrite read_write_ne by done. eauto. }
  eapply pool_inv_mono; [exact Hinv | | | done | | | ].
  - simpl. rewrite length_insert. split; [done | apply (pool_capacity _ Hinv)].
  - intros a w. by erewrite read_attached_write_ps.
  - intros k v' Hv'. destruct (decide (PaintEntryPtr i = PaintEntryPtr k)) as [Heq|Hne].
    + injection Heq as <-. erewrite read_write_eq in Hv' by done. injection Hv' as <-.
      right. split.
      * intros c [= <-]. exists j. auto.
      * intros a Ha. destruct (pool_attached_ps _ Hinv i v a Hv Ha) as [w Hw].
        erewrite read_attached_write_ps by done. eauto.
    + rewrite read_write_ne in Hv' by done. left. eauto.
  - intros k a Ha. left. by erewrite read_attached_write_ps in Ha.
  - by eapply cursors_in_pool_write_ps, pool_cursors.
Qed.

Lemma PaintSessionAddPSToQuadrant_pool_inv (s s' : paint_session) (ps : paint_struct_ptr) :
  pool_inv s → PaintSessionAddPSToQuadrant ps s = Some (tt, s') → pool_inv s'.
Proof.
  intros Hinv. unfold PaintSessionAddPSToQuadrant. munfold.
  destruct (read_ps s ps) as [v|] eqn:Hv; [|done].
  set (index := uint32 _). rewrite Hv.
  set (s1 := write_ps ps (set_quadrant_index (uint16 index) v) s).
  destruct (array_get (Quadrants s) index) as [q|]; [|done].
  assert (read_ps s1 ps = Some (set_quadrant_index (uint16 index) v)) as Hv1
    by (by eapply read_write_eq).
  rewrite Hv1. intros [= <-].
  assert (pool_inv s1) as Hinv1 by (by eapply pool_inv_write_ps).
  eapply pool_inv_same_pool;
    [eapply (pool_inv_write_ps s1 ps _ (set_next_quadrant_ps q (set_quadrant_index (uint16 index) v)));
       [exact Hinv1 | exact Hv1 | done | done]
    | by destruct ps | by right | by right].
Qed.

Lemma PaintAddImageAsParent_pool_inv (s s' : paint_session) (r : option paint_struct_ptr)
    (i xo yo lx ly lz zo ox oy oz : Z) :
  pool_inv s →
  PaintAddImageAsParent i xo yo lx ly lz zo ox oy oz s = Some (r, s') → pool_inv s'.
Proof.
  intros Hinv. unfold PaintAddImageAsParent.
  unfold mbind at 1 2 3, M_bind at 1 2 3, modify, get.
  set (s1 := set_LastAttachedPS None (set_LastPS None s)).
  assert (pool_inv s1) as Hinv1 by (eapply pool_inv_same_pool; [exact Hinv | done | by left | by left]).
  destruct (sub_9819_c s1 _ _ _ _) as [v|] eqn:Hv; [|by intros [= <- <-]].
  destruct (sub_9819_c_Some _ _ _ _ _ _ Hv) as (Hroom & Hc & Ha & _).
  pose proof (pool_inv_alloc_root s1 v Hinv1 Hroom Hc Ha) as Hinv2.
  unfold mbind, M_bind, mret, M_ret, AllocateRootPaintEntry. cbv zeta.
  destruct (PaintSessionAddPSToQuadrant _ _) as [[[] s3]|] eqn:Hadd; [|done].
  intros [= <- <-]. by eapply PaintSessionAddPSToQuadrant_pool_inv.
Qed.

Lemma PaintAddImageAsOrphan_pool_inv (s s' : paint_session) (r : option paint_struct_ptr)
    (i xo yo lx ly lz zo ox oy oz : Z) :
  pool_inv s →
  PaintAddImageAsOrphan i xo yo lx ly lz zo ox oy oz s = Some (r, s') → pool_inv s'.
Proof.
  intros Hinv. unfold PaintAddImageAsOrphan.
  unfold mbind at 1 2 3, M_bind at 1 2 3, modify, get.
  set (s1 := set_LastAttachedPS None (set_LastPS None s)).
  assert (pool_inv s1) as Hinv1 by (eapply pool_inv_same_pool; [exact Hinv | done | by left | by left]).
  destruct (sub_9819_c s1 _ _ _ _) as [v|] eqn:Hv; [|by intros [= <- <-]].
  destruct (sub_9819_c_Some _ _ _ _ _ _ Hv) as (Hroom & Hc & Ha & _).
  pose proof (pool_inv_alloc_root s1 v Hinv1 Hroom Hc Ha) as Hinv2.
  unfold mbind, M_bind, mret, M_ret, AllocateRootPaintEntry. cbv zeta.
  by intros [= <- <-].
Qed.

Lemma PaintAddImageAsChild_pool_inv (s s' : paint_session) (r : option paint_struct_ptr)
    (i : Z) (o l bo : CoordsXYZ) :
  pool_inv s → PaintAddImageAsChild i o l bo s = Some (r, s') → pool_inv s'.
Proof.
  intros Hinv. unfold PaintAddImageAsChild. unfold mbind at 1, M_bind at 1, get.
  destruct (LastPS s) as [parentPS|] eqn:HLast; [|by apply PaintAddImageAsParent_pool_inv].
  destruct (sub_9819_c s _ _ _ _) as [v|] eqn:Hv; [|by intros [= <- <-]].
  destruct (sub_9819_c_Some _ _ _ _ _ _ Hv) as (Hroom & Hc & Ha & _).
  pose proof (pool_inv_alloc_root s v Hinv Hroom Hc Ha) as Hinv1.
  unfold mbind, M_bind, mret, M_ret, AllocateRootPaintEntry, store. cbv zeta.
  set (n := length (PaintStructs s)) in *.
  set (s1 := set_LastAttachedPS None _) in *.
  destruct (read_ps s1 parentPS) as [vp|] eqn:Hvp; [|done]. intros [= <- <-].
  destruct (pool_cursors _ Hinv) as [Hc1 _]. destruct (Hc1 _ HLast) as [Hhead [w Hw]].
  destruct parentPS as [|k]; [done|].
  apply pool_inv_set_children; [done | done | |].
  - exists v. apply read_ps_alloc_new.
  - simpl in Hw. destruct (PaintStructs s !! k) as [e|] eqn:Hk; [|done].
    by apply lookup_lt_Some in Hk.
Qed.

Lemma PaintAttachToPreviousPS_pool_inv (s s' : paint_session) (r : bool) (i x y : Z) :
  pool_inv s → PaintAttachToPreviousPS i x y s = Some (r, s') → pool_inv s'.
Proof.
  intros Hinv Hrun.
  destruct (NoPaintStructsAvailable s) eqn:Hroom.
  { unfold PaintAttachToPreviousPS in Hrun. munfold. rewrite Hroom in Hrun. by injection Hrun as <- <-. }
  destruct (LastPS s) as [masterPs|] eqn:HLast.
  2:{ unfold PaintAttachToPreviousPS in Hrun. munfold. rewrite Hroom, HLast in Hrun.
      by injection Hrun as <- <-. }
  destruct (pool_cursors _ Hinv) as [Hc1 Hc2]. destruct (Hc1 _ HLast) as [Hhead [vm Hvm]].
  destruct masterPs as [|m]; [done|]. set (masterPs := PaintEntryPtr m) in *.
  destruct (PaintAttachToPreviousPS_spec s i x y masterPs vm Hroom HLast Hvm)
    as (s2 & e & Hrun' & (_ & _ & _ & _ & Hnext) & Hlen & Hm & Hps & He & Hatt & HLA & HLP & _).
  rewrite Hrun' in Hrun. injection Hrun as <- <-.
  assert (∀ a v, read_attached s a = Some v → read_attached s2 a = Some v) as Hold.
  { intros a v Ha. rewrite Hatt; [done|]. by eapply read_attached_Some_ne_fresh. }
  assert (∀ q, is_Some (read_ps s q) → is_Some (read_ps s2 q)) as Hvalid.
  { intros q Hq. destruct (decide (q = masterPs)) as [->|Hne]; [by rewrite Hm | by rewrite Hps]. }
  apply bool_decide_eq_false in Hroom.
  eapply pool_inv_mono; [exact Hinv | lia | done | done | | | ].
  - intros k v' Hv'. destruct (decide (k = m)) as [->|Hne].
    + fold masterPs in Hv'. rewrite Hm in Hv'. injection Hv' as <-. right. split.
      * intros c Hc. destruct (pool_children _ Hinv m vm c Hvm Hc) as (j & -> & Hkj & Hj). eauto.
      * intros a [= <-]. by rewrite He.
    + rewrite Hps in Hv' by (unfold masterPs; congruence). left. eauto.
  - intros k a Ha. destruct (decide (k = length (PaintStructs s))) as [->|Hne]; [|left; by rewrite <- Hatt].
    right. rewrite He in Ha. injection Ha as <-.
    destruct (attached_ps vm) as [a0|] eqn:Ha0.
    + destruct (pool_attached_ps _ Hinv m vm a0 Hvm Ha0) as [w Hw].
      destruct (pool_attached _ Hinv a0 w Hw) as (l & Hl & Hll).
      exists ((length (PaintStructs s), e) :: l). split; [|simpl; lia].
      simpl. split; [done|]. split; [done|]. rewrite Hnext. by eapply attached_chain_mono.
    + exists [(length (PaintStructs s), e)]. split; [|simpl; lia]. simpl. by rewrite Hnext.
  - split.
    + intros q Hq. rewrite HLP in Hq. injection Hq as <-. split; [done|]. rewrite Hm. eauto.
    + intros a Ha. rewrite HLA in Ha. injection Ha as <-. rewrite He. eauto.
Qed.

Lemma attached_chain_redirect_bound (s s' : paint_session) (last n : nat)
    (vl e : attached_paint_struct) :
  read_attached s last = Some vl →
  read_attached s' last = Some (set_att_next (Some n) vl) →
  read_attached s' n = Some e → att_next e = None →
  (∀ a v, a ≠ last → read_attached s a = Some v → read_attached s' a = Some v) →
  ∀ l o, attached_chain s o l →
    ∃ l', attached_chain s' o l' ∧ (length l' ≤ S (length l))%nat.
Proof.
  intros Hs Hlast Hn He Hold. induction l as [|[a v] l IH]; intros o Hl; simpl in *.
  - exists []. split; [done | simpl; lia].
  - destruct Hl as (-> & Hv & Hl). destruct (decide (a = last)) as [->|Hne].
    + exists [(last, set_att_next (Some n) vl); (n, e)]. split; [|simpl; lia]. simpl. done.
    + destruct (IH _ Hl) as (l' & Hl' & Hll). exists ((a, v) :: l'). split; [|simpl; lia].
      simpl. split; [done|]. split; [by apply Hold | done].
Qed.

Lemma PaintAttachToPreviousAttach_pool_inv (s s' : paint_session) (r : bool) (i x y : Z) :
  pool_inv s → PaintAttachToPreviousAttach i x y s = Some (r, s') → pool_inv s'.
Proof.
  intros Hinv Hrun.
  destruct (LastAttachedPS s) as [last|] eqn:HLast.
  2:{ unfold PaintAttachToPreviousAttach in Hrun. unfold mbind at 1, M_bind at 1, get in Hrun.
      rewrite HLast in Hrun. by eapply PaintAttachToPreviousPS_pool_inv. }
  destruct (NoPaintStructsAvailable s) eqn:Hroom.
  { unfold PaintAttachToPreviousAttach in Hrun. munfold. rewrite HLast, Hroom in Hrun.
    by injection Hrun as <- <-. }
  destruct (pool_cursors _ Hinv) as [Hc1 Hc2]. destruct (Hc2 _ HLast) as [vl Hvl].
  destruct (PaintAttachToPreviousAttach_spec s i x y last vl HLast Hvl Hroom)
    as (s2 & e & Hrun' & (_ & _ & _ & _ & Hnext) & Hlen & Hps & Hl & He & Hatt & HLA & HLP & _).
  rewrite Hrun' in Hrun. injection Hrun as <- <-.
  assert (∀ a v, a ≠ last → read_attached s a = Some v → read_attached s2 a = Some v) as Hold.
  { intros a v Ha Hv. rewrite Hatt; [done | done |]. by eapply read_attached_Some_ne_fresh. }
  assert (∀ a, is_Some (read_attached s a) → is_Some (read_attached s2 a)) as Hvalid.
  { intros a [v Hv]. destruct (decide (a = last)) as [->|Hne]; [rewrite Hl|]; eauto. }
  apply bool_decide_eq_false in Hroom.
  split.
  - lia.
  - intros k v c Hv Hc. rewrite Hps in Hv.
    destruct (pool_children _ Hinv k v c Hv Hc) as (j & -> & Hkj & Hj).
    exists j. rewrite Hps. auto.
  - intros k v a Hv Ha. rewrite Hps in Hv. apply Hvalid. by eapply pool_attached_ps.
  - intros k a Ha. destruct (decide (k = length (PaintStructs s))) as [->|Hkn].
    + exists [(length (PaintStructs s), e)]. split; [|simpl; lia]. simpl. rewrite Hnext. done.
    + assert (is_Some (read_attached s k)) as [w Hw].
      { destruct (decide (k = last)) as [->|Hkl]; [eauto|]. rewrite <- Hatt by done. eauto. }
      destruct (pool_attached _ Hinv k w Hw) as (l & Hchain & Hll).
      destruct (attached_chain_redirect_bound s s2 last _ vl e Hvl Hl He Hnext Hold l _ Hchain)
        as (l' & Hl' & Hll').
      exists l'. split; [done | lia].
  - split.
    + intros q Hq. rewrite HLP in Hq. destruct (Hc1 q Hq) as [Hne Hv]. by rewrite Hps.
    + intros a Ha. rewrite HLA in Ha. injection Ha as <-. rewrite He. eauto.
Qed.

Lemma run_paint_call_pool_inv (c : paint_call) (s s' : paint_session) :
  pool_inv s → run_paint_call c s = Some (tt, s') → pool_inv s'.
Proof.
  intros Hinv. destruct c; simpl; unfold mbind, M_bind, mret, M_ret, modify.
  - intros [= <-]. eapply pool_inv_same_pool; [exact Hinv | done | by right | by right].
  - destruct (PaintAddImageAsParent _ _ _ _ _ _ _ _ _ _ s) as [[r s1]|] eqn:Hrun; [|done].
    intros [= <-]. by eapply PaintAddImageAsParent_pool_inv.
  - destruct (PaintAddImageAsOrphan _ _ _ _ _ _ _ _ _ _ s) as [[r s1]|] eqn:Hrun; [|done].
    intros [= <-]. by eapply PaintAddImageAsOrphan_pool_inv.
  - destruct (PaintAddImageAsChild _ _ _ _ s) as [[r s1]|] eqn:Hrun; [|done].
    intros [= <-]. by eapply PaintAddImageAsChild_pool_inv.
  - destruct (PaintAttachToPreviousPS _ _ _ s) as [[r s1]|] eqn:Hrun; [|done].
    intros [= <-]. by eapply PaintAttachToPreviousPS_pool_inv.
  - destruct (PaintAttachToPreviousAttach _ _ _ s) as [[r s1]|] eqn:Hrun; [|done].
    intros [= <-]. by eapply PaintAttachToPreviousAttach_pool_inv.
Qed.

Lemma generate_pool_inv (calls : list paint_call) :
  ∀ s s', pool_inv s → generate calls s = Some (tt, s') → pool_inv s'.
Proof.
  induction calls as [|c calls IH]; intros s s' Hinv; simpl.
  - by intros [= <-].
  - unfold mbind, M_bind. destruct (run_paint_call c s) as [[[] s1]|] eqn:Hrun; [|done].
    intros Hgen. eapply IH; [|exact Hgen]. by eapply run_paint_call_pool_inv.
Qed.

Lemma session_fresh_pool_inv (s : paint_session) : session_fresh s → pool_inv s.
Proof.
  intros (HP & HQ & HLP & HLA & _).
  split; rewrite ?HP; simpl; try rewrite HP; simpl.
  - lia.
  - by intros.
  - by intros.
  - intros i a. unfold read_attached. by rewrite HP.
  - split; [by rewrite HLP | by rewrite HLA].
Qed.


End PoolGeneration.

(** ** A whole frame: generation, arrangement, drawing *)

Section Frame.
Context `{PaintHeaders}.

Lemma PaintDrawStruct_total (g : bool) (rotation : Z) (s : paint_session) :
  pool_inv s →
  ∀ (k i : nat) (v : paint_struct) (fuel : nat),
    read_ps s (PaintEntryPtr i) = Some v →
    (length (PaintStructs s) - i ≤ k)%nat →
    (k + length (PaintStructs s) ≤ fuel)%nat →
    is_Some (PaintDrawStruct fuel g rotation s (PaintEntryPtr i)).
Proof.
  intros Hinv. induction k as [|k IH]; intros i v fuel Hv Hk Hfuel.
  - simpl in Hv. destruct (PaintStructs s !! i) as [e|] eqn:Hi; [|done].
    apply lookup_lt_Some in Hi. lia.
  - destruct fuel as [|fuel]; [lia|]. rewrite (PaintDrawStruct_own _ _ _ _ _ _ Hv).
    destruct (children v) as [c|] eqn:Hc.
    + destruct (pool_children _ Hinv i v c Hv Hc) as (j & -> & Hij & [w Hw]).
      destruct (IH j w fuel Hw) as [d Hd]; [lia | lia |]. rewrite Hd. by eexists.
    + unfold PaintAttachedPS. destruct (attached_ps v) as [a|] eqn:Ha.
      * destruct (pool_attached_ps _ Hinv i v a Hv Ha) as [w Hw].
        destruct (pool_attached _ Hinv a w Hw) as (l & Hl & Hll).
        rewrite (PaintAttachedPS_from_chain _ _ _ l) by (done || lia). by eexists.
      * destruct fuel; by eexists.
Qed.

Lemma erase_links_eq (v v' : paint_struct) :
  erase_links v' = erase_links v →
  ∃ n f, v' = set_next_quadrant_ps n (set_quadrant_flags f v).
Proof.
  intros He. exists (next_quadrant_ps v'), (quadrant_flags v'). revert He.
  destruct v, v'. unfold erase_links, set_next_quadrant_ps, set_quadrant_flags. simpl.
  intros [=]. by subst.
Qed.

Lemma links_only_read_attached (s s' : paint_session) (a : nat) :
  links_only s s' → read_attached s' a = read_attached s a.
Proof.
  intros He. apply (f_equal PaintStructs) in He. simpl in He.
  apply (f_equal (λ l, l !! a)) in He. rewrite !list_lookup_fmap in He. unfold read_attached.
  destruct (PaintStructs s' !! a) as [[]|], (PaintStructs s !! a) as [[]|]; simpl in *;
    congruence.
Qed.

Lemma PaintAttachedPS_from_links_only (s s' : paint_session) (ps : paint_struct) (viewFlags : Z)
    (n : option paint_struct_ptr) (f : Z) :
  links_only s s' →
  ∀ fuel o,
    PaintAttachedPS_from fuel s' (set_next_quadrant_ps n (set_quadrant_flags f ps)) viewFlags o
    = PaintAttachedPS_from fuel s ps viewFlags o.
Proof.
  intros He. induction fuel as [|fuel IH]; intros o; [by destruct o|].
  destruct o as [a|]; [|done]. simpl. rewrite (links_only_read_attached _ _ _ He).
  destruct (read_attached s a) as [att|]; [|done]. simpl. by rewrite IH.
Qed.

Lemma PaintDrawStruct_links_only (g : bool) (rotation : Z) (s s' : paint_session) :
  links_only s s' →
  ∀ fuel p, PaintDrawStruct fuel g rotation s' p = PaintDrawStruct fuel g rotation s p.
Proof.
  intros He.
  assert (DPI s' = DPI s) as HDPI by (by apply (f_equal DPI) in He).
  assert (ViewFlags s' = ViewFlags s) as HVF by (by apply (f_equal ViewFlags) in He).
  induction fuel as [|fuel IH]; intros p; [done|].
  pose proof (erase_session_read _ _ _ p He) as Hp.
  destruct (read_ps s' p) as [v'|] eqn:Hv', (read_ps s p) as [v|] eqn:Hv; simpl in Hp;
    try done.
  - apply (inj Some) in Hp. apply erase_links_eq in Hp as (n & f & ->).
    rewrite (PaintDrawStruct_own _ _ _ _ _ _ Hv'), (PaintDrawStruct_own _ _ _ _ _ _ Hv).
    unfold own_calls, PaintAttachedPS. rewrite HDPI, HVF. simpl.
    destruct (children v) as [c|];
      [rewrite IH | rewrite (PaintAttachedPS_from_links_only _ _ _ _ _ _ He)]; reflexivity.
  - simpl. by rewrite Hv', Hv.
Qed.

Lemma Forall2_choice {A B} (R : A → B → Prop) (l : list A) :
  (∀ a, a ∈ l → ∃ b, R a b) → ∃ k, Forall2 R l k.
Proof.
  induction l as [|a l IH]; intros Hl.
  - exists []. constructor.
  - destruct (Hl a) as [b Hb]; [left|]. destruct IH as [k Hk].
    { intros a' Ha'. apply Hl. by right. }
    exists (b :: k). by constructor.
Qed.

(** Arranging and drawing a session that satisfies the invariants of the
    generation phase. *)
Lemma arrange_draw_total (s1 : paint_session) (bs : list (list paint_struct_ptr))
    (g : bool) (rotation : Z) (fuel : nat) :
  session_inv s1 bs → pool_inv s1 →
  (Z.to_nat MAX_PAINT_QUADRANTS + 2 * length (concat bs)
   + 2 * length (PaintStructs s1) + 2 < fuel)%nat →
  ∃ s2 chain draws,
    PaintSessionArrange fuel s1 = Some (tt, s2)
    ∧ chain ≡ₚ concat bs
    ∧ Forall2 (λ p d, PaintDrawStruct fuel g rotation s1 p = Some d) chain draws
    ∧ PaintDrawStructs fuel g rotation s2 = Some (concat draws).
Proof.
  intros Hinv Hpool Hfuel.
  destruct (session_inv_arrange_ready s1 bs Hinv) as (occupied & Hready & Hconcat).
  destruct (PaintSessionArrange_spec s1 occupied fuel Hready) as (s2 & chain & Hrun & Hl & Hperm & Hlo);
    [rewrite Hconcat; lia|].
  rewrite Hconcat in Hperm.
  set (fuel0 := (2 * length (PaintStructs s1))%nat).
  assert (∀ p, p ∈ chain → ∃ d, PaintDrawStruct fuel0 g rotation s1 p = Some d) as Hdraw.
  { intros p Hp. rewrite Hperm in Hp. apply elem_of_concat_lookup in Hp as (q & b & Hq & Hp).
    destruct (inv_entries _ _ Hinv q b p Hq Hp) as (Hhead & v & Hv & _).
    destruct p as [|i]; [done|].
    assert (i < length (PaintStructs s1))%nat as Hi.
    { simpl in Hv. destruct (PaintStructs s1 !! i) as [e|] eqn:Hi; [|done].
      by apply lookup_lt_Some in Hi. }
    apply (PaintDrawStruct_total g rotation s1 Hpool (length (PaintStructs s1)) i v); [done | lia |].
    unfold fuel0. lia. }
  destruct (Forall2_choice _ _ Hdraw) as [draws Hdraws].
  assert (length chain = length (concat bs)) as Hlen by (by rewrite Hperm).
  exists s2, chain, draws. split; [done|]. split; [done|]. split.
  - eapply Forall2_impl; [exact Hdraws|]. intros p d Hd. simpl in Hd.
    eapply PaintDrawStruct_mono; [exact Hd|]. unfold fuel0. lia.
  - eapply (PaintDrawStructs_from_chain g rotation s2 fuel0 chain draws _ fuel).
    + destruct Hl as (_ & n & Hn & Hl). unfold PaintDrawStructs.
      unfold next_of in Hn. simpl in Hn. injection Hn as ->. exact Hl.
    + eapply Forall2_impl; [exact Hdraws|]. intros p d Hd. simpl in *.
      by rewrite (PaintDrawStruct_links_only g rotation s1 s2 Hlo).
    + unfold fuel0. lia.
Qed.

(** X15: a whole frame runs through and draws every primitive of the bucket
    table exactly once.  Whatever creation calls are made on a freshly
    acquired session, the generation phase returns; with fuel for more than
    [MAX_PAINT_QUADRANTS + 2 N + 2 P + 2] turns of any one loop, [N] the
    number of primitives in the buckets and [P] the number of pool entries,
    [PaintSessionArrange] returns and [PaintDrawStructs] returns on the
    arranged session; and the calls [PaintDrawStructs] makes are those of
    [PaintDrawStruct] for each primitive of a permutation of the bucket
    table in turn, which the arrangement has not changed. *)
Theorem frame_draws_every_primitive_once (calls : list paint_call) (s0 : paint_session)
    (g : bool) (rotation : Z) :
  session_fresh s0 →
  ∃ s1 bs,
    generate calls s0 = Some (tt, s1)
    ∧ session_inv s1 bs
    ∧ ∀ fuel : nat,
        (Z.to_nat MAX_PAINT_QUADRANTS + 2 * length (concat bs)
         + 2 * length (PaintStructs s1) + 2 < fuel)%nat →
        ∃ s2 chain draws,
          PaintSessionArrange fuel s1 = Some (tt, s2)
          ∧ chain ≡ₚ concat bs
          ∧ Forall2 (λ p d, PaintDrawStruct fuel g rotation s1 p = Some d) chain draws
          ∧ PaintDrawStructs fuel g rotation s2 = Some (concat draws).
Proof.
  intros Hfresh.
  destruct (generate_inv calls s0 _ (session_fresh_inv s0 Hfresh)) as (s1 & bs & Hgen & Hinv).
  pose proof (generate_pool_inv calls s0 s1 (session_fresh_pool_inv s0 Hfresh) Hgen) as Hpool.
  exists s1, bs. split; [done|]. split; [done|]. intros fuel Hfuel.
  by apply arrange_draw_total.
Qed.

End Frame.

(** ** The generation phase driver *)

Lemma int16_add_l (a b : Z) : int16 (int16 a + b) = int16 (a + b).
Proof.
  unfold int16. f_equal.
  replace ((a + 2 ^ 15) `mod` 2 ^ 16 - 2 ^ 15 + b + 2 ^ 15) with ((a + 2 ^ 15) `mod` 2 ^ 16 + b)
    by lia.
  rewrite Zplus_mod_idemp_l. f_equal. lia.
Qed.

Lemma int16_divide_32 (v : Z) : (32 | v) → (32 | int16 v).
Proof.
  intros [a ->]. unfold int16.
  rewrite (Z.mod_eq (a * 32 + 2 ^ 15) (2 ^ 16)) by lia.
  exists (a - 2 ^ 11 * ((a * 32 + 2 ^ 15) `div` 2 ^ 16)). lia.
Qed.

Lemma land_FFE0_divide_32 (v : Z) : (32 | Z.land v 0xFFE0).
Proof.
  apply Z.mod_divide; [lia|]. change 32 with (2 ^ 5). rewrite <- Z.land_ones by lia.
  rewrite <- Z.land_assoc. change (Z.land 0xFFE0 (Z.ones 5)) with 0. apply Z.land_0_r.
Qed.

Lemma uint8_rotation (rotation : Z) : 0 ≤ rotation ≤ 3 → uint8 rotation = rotation.
Proof. intros Hr. unfold uint8. apply Z.mod_small. lia. Qed.

Section GenerateProperties.
Variable tile_element_paint_setup : Z → Z → M unit.
Variable sprite_paint_setup : Z → Z → M unit.

Lemma bind_ext {A B} (m : M A) (k1 k2 : A → M B) (s : paint_session) :
  (∀ a s', k1 a s' = k2 a s') → (m ≫= k1) s = (m ≫= k2) s.
Proof. intros Hk. unfold mbind, M_bind. destruct (m s) as [[a s']|]; [apply Hk | done]. Qed.

Lemma generate_visit_next (rotation : Z) (x0 y0 : Z) (k : nat) :
  int16 (int16 (x0 + (generate_step rotation).1 * Z.of_nat k) + (generate_step rotation).1)
  = int16 (x0 + (generate_step rotation).1 * Z.of_nat (S k))
  ∧ int16 (int16 (y0 + (generate_step rotation).2 * Z.of_nat k) + (generate_step rotation).2)
    = int16 (y0 + (generate_step rotation).2 * Z.of_nat (S k)).
Proof. rewrite !int16_add_l. split; f_equal; lia. Qed.

Lemma PaintSessionGenerate_loop_0_visits (x0 y0 : Z) (n : nat) :
  ∀ (k : nat) (s : paint_session),
    PaintSessionGenerate_loop_0 tile_element_paint_setup sprite_paint_setup n
      {| loc_x := int16 (x0 + 32 * Z.of_nat k); loc_y := int16 (y0 + 32 * Z.of_nat k) |} s
    = run_paint_setup_calls tile_element_paint_setup sprite_paint_setup
        (flat_map (generate_visit 0 x0 y0) (seq k n)) s.
Proof.
  induction n as [|n IH]; intros k s; [done|].
  destruct (generate_visit_next 0 x0 y0 k) as [Hx Hy]. simpl in Hx, Hy.
  simpl. repeat (apply bind_ext; intros [] ?). rewrite <- IH. by rewrite Hx, Hy.
Qed.

Lemma PaintSessionGenerate_loop_1_visits (x0 y0 : Z) (n : nat) :
  ∀ (k : nat) (s : paint_session),
    PaintSessionGenerate_loop_1 tile_element_paint_setup sprite_paint_setup n
      {| loc_x := int16 (x0 + -32 * Z.of_nat k); loc_y := int16 (y0 + 32 * Z.of_nat k) |} s
    = run_paint_setup_calls tile_element_paint_setup sprite_paint_setup
        (flat_map (generate_visit 1 x0 y0) (seq k n)) s.
Proof.
  induction n as [|n IH]; intros k s; [done|].
  destruct (generate_visit_next 1 x0 y0 k) as [Hx Hy]. simpl in Hx, Hy.
  simpl. repeat (apply bind_ext; intros [] ?). rewrite <- IH. by rewrite <- Hx, Hy.
Qed.

Lemma PaintSessionGenerate_loop_2_visits (x0 y0 : Z) (n : nat) :
  ∀ (k : nat) (s : paint_session),
    PaintSessionGenerate_loop_2 tile_element_paint_setup sprite_paint_setup n
      {| loc_x := int16 (x0 + -32 * Z.of_nat k); loc_y := int16 (y0 + -32 * Z.of_nat k) |} s
    = run_paint_setup_calls tile_element_paint_setup sprite_paint_setup
        (flat_map (generate_visit 2 x0 y0) (seq k n)) s.
Proof.
  induction n as [|n IH]; intros k s; [done|].
  destruct (generate_visit_next 2 x0 y0 k) as [Hx Hy]. simpl in Hx, Hy.
  simpl. repeat (apply bind_ext; intros [] ?). rewrite <- IH. by rewrite <- Hx, <- Hy.
Qed.

Lemma PaintSessionGenerate_loop_3_visits (x0 y0 : Z) (n : nat) :
  ∀ (k : nat) (s : paint_session),
    PaintSessionGenerate_loop_3 tile_element_paint_setup sprite_paint_setup n
      {| loc_x := int16 (x0 + 32 * Z.of_nat k); loc_y := int16 (y0 + -32 * Z.of_nat k) |} s
    = run_paint_setup_calls tile_element_paint_setup sprite_paint_setup
        (flat_map (generate_visit 3 x0 y0) (seq k n)) s.
Proof.
  induction n as [|n IH]; intros k s; [done|].
  destruct (generate_visit_next 3 x0 y0 k) as [Hx Hy]. simpl in Hx, Hy.
  simpl. repeat (apply bind_ext; intros [] ?). rewrite <- IH. by rewrite Hx, <- Hy.
Qed.

Lemma generate_start_aligned (rotation : Z) (dpi : rct_drawpixelinfo) :
  (32 | loc_x (generate_start rotation dpi)) ∧ (32 | loc_y (generate_start rotation dpi)).
Proof.
  unfold generate_start. cbv zeta.
  destruct (match rotation with 0 => _ | _ => _ end) as [x y]. simpl.
  split; apply int16_divide_32, land_FFE0_divide_32.
Qed.

Lemma generate_visit_aligned (rotation : Z) (x0 y0 : Z) (k : nat) :
  (32 | x0) → (32 | y0) →
  Forall (λ c, (32 | (setup_call_coords c).1) ∧ (32 | (setup_call_coords c).2))
    (generate_visit rotation x0 y0 k).
Proof.
  intros Hx0 Hy0. unfold generate_visit. cbv zeta.
  set (dx := (generate_step rotation).1). set (dy := (generate_step rotation).2).
  assert ((32 | dx) ∧ (32 | dy)) as [Hdx Hdy].
  { unfold dx, dy, generate_step.
    repeat case_match; simpl; split; ((by exists 1) || (by exists (-1))). }
  assert (32 | int16 (x0 + dx * Z.of_nat k)) as Hx
    by (apply int16_divide_32, Z.divide_add_r; [done | by apply Z.divide_mul_l]).
  assert (32 | int16 (y0 + dy * Z.of_nat k)) as Hy
    by (apply int16_divide_32, Z.divide_add_r; [done | by apply Z.divide_mul_l]).
  assert (32 | 32) as H32 by (by exists 1).
  assert (∀ v, (32 | v) → (32 | v + 32) ∧ (32 | v - 32) ∧ (32 | int16 (v + 32))
                 ∧ (32 | int16 (v - 32))) as Hstep.
  { intros v Hv. split; [by apply Z.divide_add_r|]. split; [by apply Z.divide_sub_r|].
    split; apply int16_divide_32; [by apply Z.divide_add_r | by apply Z.divide_sub_r]. }
  destruct (Hstep _ Hx) as (? & ? & ? & ?). destruct (Hstep _ Hy) as (? & ? & ? & ?).
  repeat case_match; repeat constructor; simpl; done.
Qed.

Lemma length_flat_map_6 {A B} (f : A → list B) (l : list A) :
  (∀ a, length (f a) = 6%nat) → length (flat_map f l) = (6 * length l)%nat.
Proof.
  intros Hf. induction l as [|a l IH]; simpl; [done|]. rewrite length_app, Hf, IH. lia.
Qed.

Lemma PaintSessionGenerate_run_visits (current_rotation : Z) (s : paint_session) :
  0 ≤ current_rotation ≤ 3 →
  PaintSessionGenerate tile_element_paint_setup sprite_paint_setup current_rotation s
  = run_paint_setup_calls tile_element_paint_setup sprite_paint_setup
      (generate_visits current_rotation (DPI s)) (set_CurrentRotation current_rotation s).
Proof.
  intros Hr. unfold PaintSessionGenerate, generate_visits.
  unfold mbind at 1 2, M_bind at 1 2, get, modify.
  rewrite (uint8_rotation _ Hr). cbv zeta.
  set (n := Z.to_nat _).
  assert (∀ a, int16 a = int16 (int16 a + 32 * Z.of_nat 0)) as Hp
    by (intros a; rewrite int16_add_l; f_equal; lia).
  assert (∀ a, int16 a = int16 (int16 a + -32 * Z.of_nat 0)) as Hm
    by (intros a; rewrite int16_add_l; f_equal; lia).
  assert (current_rotation = 0 ∨ current_rotation = 1 ∨ current_rotation = 2
          ∨ current_rotation = 3) as [-> | [-> | [-> | ->]]] by lia.
  - rewrite <- (PaintSessionGenerate_loop_0_visits _ _ n 0). simpl. by rewrite <- !Hp.
  - rewrite <- (PaintSessionGenerate_loop_1_visits _ _ n 0). simpl. by rewrite <- Hp, <- Hm.
  - rewrite <- (PaintSessionGenerate_loop_2_visits _ _ n 0). simpl. by rewrite <- !Hm.
  - rewrite <- (PaintSessionGenerate_loop_3_visits _ _ n 0). simpl. by rewrite <- Hp, <- Hm.
Qed.

(** X16: what [PaintSessionGenerate] does under a rotation 0..3: it records
    the rotation in the session and then runs six calls into the painters
    for each of the [(dpi.height + 2128) >> 5] turns of its loop, those of
    [generate_visits]: in turn [k] the tile element painter is called at the
    start position moved by [k] steps of one tile along the column, and at
    the next tile of the column, and the sprite painter at these two, at the
    tile beside them and at the next position.  Every coordinate passed is
    a multiple of 32. *)
Theorem PaintSessionGenerate_visits (current_rotation : Z) (s : paint_session) :
  0 ≤ current_rotation ≤ 3 →
  PaintSessionGenerate tile_element_paint_setup sprite_paint_setup current_rotation s
  = run_paint_setup_calls tile_element_paint_setup sprite_paint_setup
      (generate_visits current_rotation (DPI s)) (set_CurrentRotation current_rotation s)
  ∧ length (generate_visits current_rotation (DPI s))
    = (6 * Z.to_nat (uint16 (Z.shiftr (dpi_height (DPI s) + 2128) 5)))%nat
  ∧ Forall (λ c, (32 | (setup_call_coords c).1) ∧ (32 | (setup_call_coords c).2))
      (generate_visits current_rotation (DPI s)).
Proof.
  intros Hr. split; [|split].
  - by apply PaintSessionGenerate_run_visits.
  - unfold generate_visits. cbv zeta. rewrite length_flat_map_6, length_seq; [done|].
    intros k. unfold generate_visit. by repeat case_match.
  - unfold generate_visits. cbv zeta. apply Forall_flat_map, Forall_forall. intros k _.
    destruct (generate_start_aligned current_rotation (DPI s)).
    by apply generate_visit_aligned.
Qed.

End GenerateProperties.

Section GenerateFrame.
Context `{PaintHeaders}.
Variable tile_element_paint_setup : Z → Z → M unit.
Variable sprite_paint_setup : Z → Z → M unit.

Lemma set_CurrentRotation_good (rotation : Z) (s : paint_session) :
  0 ≤ rotation ≤ 3 → session_good s → session_good (set_CurrentRotation rotation s).
Proof.
  intros Hr [[bs Hinv] Hpool]. split.
  - exists bs. destruct Hinv as [Hlen Hb Hnd He Hrange Hrot HLP HLA]. split; try done.
    intros q b Hq. destruct (Hb q b Hq) as (h & Hh & Hl). exists h. split; [done|].
    eapply lseg_ext; [|exact Hl]. done.
  - eapply pool_inv_same_pool; [exact Hpool | done | by right | by right].
Qed.

Lemma run_paint_setup_calls_good (l : list paint_setup_call) :
  painter_good tile_element_paint_setup → painter_good sprite_paint_setup →
  ∀ s, session_good s →
    ∃ s', run_paint_setup_calls tile_element_paint_setup sprite_paint_setup l s = Some (tt, s')
      ∧ session_good s'.
Proof.
  intros Htile Hsprite. induction l as [|c l IH]; intros s Hs; simpl.
  - by exists s.
  - unfold mbind, M_bind.
    destruct c as [x y|x y]; simpl;
      [destruct (Htile x y s Hs) as (s1 & -> & Hs1) | destruct (Hsprite x y s Hs) as (s1 & -> & Hs1)];
      by apply IH.
Qed.

(** X17: a frame driven by [PaintSessionGenerate] runs through: when the two
    painters return on every session the creation functions can leave, and
    leave such a session, then on a freshly acquired session
    [PaintSessionGenerate] returns under every rotation 0..3, and
    [PaintSessionArrange] and [PaintDrawStructs] return after it, drawing
    every primitive of the bucket table once. *)
Theorem PaintSessionGenerate_frame (current_rotation : Z) (s0 : paint_session)
    (g : bool) (rotation : Z) :
  painter_good tile_element_paint_setup → painter_good sprite_paint_setup →
  0 ≤ current_rotation ≤ 3 →
  session_fresh s0 →
  ∃ s1 bs,
    PaintSessionGenerate tile_element_paint_setup sprite_paint_setup current_rotation s0
    = Some (tt, s1)
    ∧ session_inv s1 bs
    ∧ (length (PaintStructs s1) ≤ MaxPaintEntries)%nat
    ∧ ∀ fuel : nat,
        (Z.to_nat MAX_PAINT_QUADRANTS + 2 * length (concat bs)
         + 2 * length (PaintStructs s1) + 2 < fuel)%nat →
        ∃ s2 chain draws,
          PaintSessionArrange fuel s1 = Some (tt, s2)
          ∧ chain ≡ₚ concat bs
          ∧ Forall2 (λ p d, PaintDrawStruct fuel g rotation s1 p = Some d) chain draws
          ∧ PaintDrawStructs fuel g rotation s2 = Some (concat draws).
Proof.
  intros Htile Hsprite Hr Hfresh.
  assert (session_good s0) as Hgood0.
  { split; [eexists; by apply session_fresh_inv | by apply session_fresh_pool_inv]. }
  destruct (run_paint_setup_calls_good (generate_visits current_rotation (DPI s0)) Htile Hsprite
              _ (set_CurrentRotation_good current_rotation s0 Hr Hgood0))
    as (s1 & Hrun & [[bs Hinv] Hpool]).
  exists s1, bs. split; [|split; [done|split; [apply (pool_capacity _ Hpool)|]]].
  - by rewrite PaintSessionGenerate_run_visits.
  - intros fuel Hfuel. by apply arrange_draw_total.
Qed.

End GenerateFrame.

(** ** Insertion into the bucket table *)

Section ParentProperties.
Context `{PaintHeaders}.

Lemma lseg_head (s : paint_session) (h : option paint_struct_ptr) (b : list paint_struct_ptr) :
  lseg s h b None → h = head b.
Proof. destruct b as [|a b]; simpl; [done | by intros [-> _]]. Qed.

(** X18: [PaintAddImageAsParent] returns on every session of the generation
    phase.  When it returns a primitive, that is a new slot of the pool; it
    is the "last primitive", it carries the index [q] of a bucket, it is the
    head of that bucket and its [next_quadrant_ps] is the former head: the
    bucket is the new primitive followed by what it held, and the other
    buckets are as before.  When it returns [nullptr] the pool and the
    bucket table are as before. *)
Theorem PaintAddImageAsParent_bucket (s : paint_session) (bs : list (list paint_struct_ptr))
    (image_id x_offset y_offset bound_box_length_x bound_box_length_y bound_box_length_z
     z_offset bound_box_offset_x bound_box_offset_y bound_box_offset_z : Z) :
  session_inv s bs →
  ∃ r s',
    PaintAddImageAsParent image_id x_offset y_offset bound_box_length_x bound_box_length_y
      bound_box_length_z z_offset bound_box_offset_x bound_box_offset_y bound_box_offset_z s
    = Some (r, s')
    ∧ match r with
      | None =>
          PaintStructs s' = PaintStructs s ∧ Quadrants s' = Quadrants s ∧ session_inv s' bs
      | Some p =>
          read_ps s p = None ∧ LastPS s' = Some p
          ∧ ∃ (q : nat) b v,
              bs !! q = Some b
              ∧ read_ps s' p = Some v
              ∧ quadrant_index v = Z.of_nat q
              ∧ next_quadrant_ps v = head b
              ∧ Quadrants s' !! q = Some (Some p)
              ∧ session_inv s' (<[q := p :: b]> bs)
      end.
Proof.
  intros Hinv. unfold PaintAddImageAsParent.
  unfold mbind at 1 2 3, M_bind at 1 2 3, modify, get.
  set (s1 := set_LastAttachedPS None (set_LastPS None s)).
  assert (session_extends s s1) as Hext1.
  { eapply session_extends_trans; [apply set_LastPS_extends | apply set_LastAttachedPS_extends]. }
  assert (session_inv s1 bs) as Hinv1.
  { eapply session_inv_extends; [done | done |]. split; by intros. }
  destruct (sub_9819_c s1 _ _ _ _) as [newPS|]; [|by exists None, s1].
  destruct (AllocateRootPaintEntry_spec newPS s1)
    as (p & s2 & Halloc & Hhead & Hfresh & Hp2 & HLP & HLA & Hext2).
  assert (session_inv s2 bs) as Hinv2.
  { eapply session_inv_extends; [done | done |]. split.
    - intros p' Hp'. rewrite HLP in Hp'. injection Hp' as <-. eauto.
    - intros i' Hi'. by rewrite HLA in Hi'. }
  destruct (PaintSessionAddPSToQuadrant_spec s2 p newPS Hp2)
    as (s3 & index & h & Hadd & Hindex & Hh & Hp3 & Hoth & Hatt & HQ & HB & HF & HC & HLP3 & HLA3).
  { exact (session_inv_Quadrants_length s2 bs Hinv2). }
  destruct (session_inv_insert s2 s3 bs p newPS index h) as (b & Hb & Hinv3); try done.
  { eapply session_inv_fresh_ptr; [exact Hinv1 | done]. }
  { split.
    - intros p' Hp'. rewrite HLP3, HLP in Hp'. injection Hp' as <-. eauto.
    - intros i' Hi'. by rewrite HLA3, HLA in Hi'. }
  unfold mbind, M_bind, mret, M_ret. rewrite Halloc, Hadd.
  exists (Some p), s3. split; [done|]. split; [by destruct p|]. split; [congruence|].
  exists (Z.to_nat index), b, (set_next_quadrant_ps h (set_quadrant_index index newPS)).
  split; [done|]. split; [done|]. split; [simpl; lia|]. split; [|split; [|done]].
  - simpl. destruct (inv_buckets _ _ Hinv2 _ _ Hb) as (h' & Hh' & Hl).
    assert (h' = h) as -> by congruence. by eapply lseg_head.
  - rewrite HQ. apply list_lookup_insert_eq. by eapply lookup_lt_Some.
Qed.

End ParentProperties.

(** ** The other overloads *)

Lemma int8_idemp (v : Z) : int8 (int8 v) = int8 v.
Proof.
  unfold int8. f_equal.
  replace ((v + 2 ^ 7) `mod` 2 ^ 8 - 2 ^ 7 + 2 ^ 7) with ((v + 2 ^ 7) `mod` 2 ^ 8) by lia.
  by rewrite Z.mod_mod by lia.
Qed.

Lemma int16_idemp (v : Z) : int16 (int16 v) = int16 v.
Proof.
  unfold int16. f_equal.
  replace ((v + 2 ^ 15) `mod` 2 ^ 16 - 2 ^ 15 + 2 ^ 15) with ((v + 2 ^ 15) `mod` 2 ^ 16) by lia.
  by rewrite Z.mod_mod by lia.
Qed.

Section OverloadProperties.
Context `{PaintHeaders}.

Lemma PaintAddImageAsParent_narrow (image_id xo yo lx ly lz zo ox oy oz : Z) :
  PaintAddImageAsParent image_id (int8 xo) (int8 yo) (int16 lx) (int16 ly) (int8 lz) (int16 zo)
    (int16 ox) (int16 oy) (int16 oz)
  = PaintAddImageAsParent image_id xo yo lx ly lz zo ox oy oz.
Proof. unfold PaintAddImageAsParent. by rewrite !int8_idemp, !int16_idemp. Qed.

(** X19: the overloads of [PaintAddImageAsParent] without a bounding box
    offset are the main overload with the offset (0, 0, 0).  The one on
    [CoordsXYZ] narrows what it is given: the x and y of the offset and the
    z of the bounding box size wrap around to 8 bits, the others to 16, so a
    bounding box 200 high is built as one of height -56. *)
Theorem PaintAddImageAsParent_overloads (image_id x_offset y_offset bound_box_length_x
    bound_box_length_y bound_box_length_z z_offset : Z) (offset boundBoxSize : CoordsXYZ) :
  PaintAddImageAsParent_short image_id x_offset y_offset bound_box_length_x bound_box_length_y
    bound_box_length_z z_offset
  = PaintAddImageAsParent image_id x_offset y_offset bound_box_length_x bound_box_length_y
      bound_box_length_z z_offset 0 0 0
  ∧ PaintAddImageAsParent_xyz image_id offset boundBoxSize
    = PaintAddImageAsParent_xyz image_id
        {| xyz_x := int8 (xyz_x offset); xyz_y := int8 (xyz_y offset);
           xyz_z := int16 (xyz_z offset) |}
        {| xyz_x := int16 (xyz_x boundBoxSize); xyz_y := int16 (xyz_y boundBoxSize);
           xyz_z := int8 (xyz_z boundBoxSize) |}
  ∧ PaintAddImageAsParent_xyz image_id {| xyz_x := 0; xyz_y := 0; xyz_z := 0 |}
      {| xyz_x := 32; xyz_y := 32; xyz_z := 200 |}
    = PaintAddImageAsParent_xyz image_id {| xyz_x := 0; xyz_y := 0; xyz_z := 0 |}
        {| xyz_x := 32; xyz_y := 32; xyz_z := -56 |}.
Proof.
  unfold PaintAddImageAsParent_short, PaintAddImageAsParent_xyz. simpl.
  split; [|split].
  - exact (PaintAddImageAsParent_narrow image_id x_offset y_offset bound_box_length_x
             bound_box_length_y bound_box_length_z z_offset 0 0 0).
  - symmetry.
    exact (PaintAddImageAsParent_narrow image_id (xyz_x offset) (xyz_y offset)
             (xyz_x boundBoxSize) (xyz_y boundBoxSize) (xyz_z boundBoxSize) (xyz_z offset)
             0 0 0).
  - reflexivity.
Qed.


End OverloadProperties.

(** ** The theorems above on the example sessions *)

Lemma example_session_fresh (H : PaintHeaders) (zoom_level : Z) :
  MAX_PAINT_QUADRANTS = 16 → session_fresh (example_session zoom_level).
Proof.
  intros HMAX. unfold session_fresh. rewrite HMAX. simpl. unfold UINT32_MAX.
  repeat split; lia.
Qed.

Lemma PaintAttachedPS_chain_witness :
  PaintAttachedPS (H := example_headers_8) 2 example_family (example_entry example_family 1) 0
  = Some (attached_call (H := example_headers_8) (example_entry example_family 1) 0
            <$> [(2%nat, example_attachment example_family 2);
                 (3%nat, example_attachment example_family 3)].*2).
Proof.
  apply (PaintAttachedPS_chain (H := example_headers_8) example_family
           (example_entry example_family 1) 0
           [(2%nat, example_attachment example_family 2);
            (3%nat, example_attachment example_family 3)] 2).
  - vm_compute. repeat split.
  - simpl. lia.
Defined.

Lemma PaintDrawStruct_children_witness :
  PaintDrawStruct (H := example_headers_8) 4 false 0 example_family (PaintEntryPtr 0)
  = Some (concat (own_calls (H := example_headers_8) false 0 example_family
                    <$> ([(PaintEntryPtr 0, example_entry example_family 0)]
                         ++ [(PaintEntryPtr 1, example_entry example_family 1)]).*2)
          ++ (attached_call (H := example_headers_8) (example_entry example_family 1)
                (ViewFlags example_family)
                <$> [(2%nat, example_attachment example_family 2);
                     (3%nat, example_attachment example_family 3)].*2)).
Proof.
  apply (PaintDrawStruct_children (H := example_headers_8) false 0 example_family
           [(PaintEntryPtr 0, example_entry example_family 0)]
           (PaintEntryPtr 1) (example_entry example_family 1)
           [(2%nat, example_attachment example_family 2);
            (3%nat, example_attachment example_family 3)] 4 (PaintEntryPtr 0)).
  - vm_compute. repeat split.
  - vm_compute. repeat split.
  - simpl. lia.
Defined.

Lemma PaintDrawStructs_chain_witness :
  PaintDrawStructs (H := example_headers) 5 false 0 example_arranged
  = Some (concat
            ((λ p, default [] (PaintDrawStruct (H := example_headers) 2 false 0 example_arranged p))
               <$> [PaintEntryPtr 0; PaintEntryPtr 2; PaintEntryPtr 1])).
Proof.
  apply (PaintDrawStructs_chain (H := example_headers) false 0 example_arranged 2 5
           [PaintEntryPtr 0; PaintEntryPtr 2; PaintEntryPtr 1]).
  - cbn [lseg]. repeat (split; [reflexivity|]; eexists; split; [vm_compute; reflexivity|]).
    reflexivity.
  - cbn [fmap list_fmap].
    constructor; [vm_compute; reflexivity|]. constructor; [vm_compute; reflexivity|].
    constructor; [vm_compute; reflexivity|]. constructor.
  - simpl. lia.
Defined.


Lemma PaintAttachToPreviousPS_prepends_witness :
  ∃ s' e,
    PaintAttachToPreviousPS (H := example_headers_8) 3 1 2 example_one = Some (true, s')
    ∧ att_image_id e = 3 ∧ att_x e = int16 1 ∧ att_y e = int16 2 ∧ att_flags e = 0
    ∧ read_ps s' (PaintEntryPtr 0)
      = Some (set_attached_ps (Some (length (PaintStructs example_one)))
                (example_entry example_one 0))
    ∧ attached_chain s' (Some (length (PaintStructs example_one)))
        ((length (PaintStructs example_one), e) :: [])
    ∧ LastAttachedPS s' = Some (length (PaintStructs example_one))
    ∧ LastPS s' = Some (PaintEntryPtr 0)
    ∧ Quadrants s' = Quadrants example_one
    ∧ (∀ q, q ≠ PaintEntryPtr 0 → read_ps s' q = read_ps example_one q).
Proof.
  apply (PaintAttachToPreviousPS_prepends (H := example_headers_8) example_one 3 1 2
           (PaintEntryPtr 0) (example_entry example_one 0) []).
  - vm_compute. reflexivity.
  - vm_compute. reflexivity.
  - vm_compute. reflexivity.
  - vm_compute. reflexivity.
Defined.

Lemma PaintAttachToPreviousAttach_appends_witness :
  ∃ s' e,
    PaintAttachToPreviousAttach (H := example_headers_8) 4 3 4 example_attached = Some (true, s')
    ∧ att_image_id e = 4 ∧ att_x e = int16 3 ∧ att_y e = int16 4 ∧ att_flags e = 0
    ∧ LastAttachedPS s' = Some (length (PaintStructs example_attached))
    ∧ LastPS s' = LastPS example_attached
    ∧ Quadrants s' = Quadrants example_attached
    ∧ (∀ p, read_ps s' p = read_ps example_attached p)
    ∧ (∀ l1 l2 o,
         attached_chain example_attached o
           (l1 ++ (1%nat, example_attachment example_attached 1) :: l2) →
         1%nat ∉ l1.*1 →
         attached_chain s' o
           (l1 ++ [(1%nat, set_att_next (Some (length (PaintStructs example_attached)))
                             (example_attachment example_attached 1));
                   (length (PaintStructs example_attached), e)]))
    ∧ (∀ l o, attached_chain example_attached o l → 1%nat ∉ l.*1 → attached_chain s' o l).
Proof.
  apply (PaintAttachToPreviousAttach_appends (H := example_headers_8) example_attached 4 3 4
           1%nat (example_attachment example_attached 1)).
  - vm_compute. reflexivity.
  - vm_compute. reflexivity.
  - vm_compute. reflexivity.
Defined.


Lemma frame_draws_every_primitive_once_witness :
  ∃ s1 bs,
    generate (H := example_headers_8) example_calls_family (example_session 0) = Some (tt, s1)
    ∧ session_inv (H := example_headers_8) s1 bs
    ∧ ∀ fuel : nat,
        (Z.to_nat 16 + 2 * length (concat bs) + 2 * length (PaintStructs s1) + 2 < fuel)%nat →
        ∃ s2 chain draws,
          PaintSessionArrange (H := example_headers_8) fuel s1 = Some (tt, s2)
          ∧ chain ≡ₚ concat bs
          ∧ Forall2 (λ p d, PaintDrawStruct (H := example_headers_8) fuel true 0 s1 p = Some d)
              chain draws
          ∧ PaintDrawStructs (H := example_headers_8) fuel true 0 s2 = Some (concat draws).
Proof.
  apply (frame_draws_every_primitive_once (H := example_headers_8) example_calls_family
           (example_session 0) true 0).
  by apply example_session_fresh.
Defined.

Lemma PaintSessionGenerate_visits_witness :
  PaintSessionGenerate example_tile_painter example_sprite_painter 1 (example_session 0)
  = run_paint_setup_calls example_tile_painter example_sprite_painter
      (generate_visits 1 (DPI (example_session 0))) (set_CurrentRotation 1 (example_session 0))
  ∧ length (generate_visits 1 (DPI (example_session 0)))
    = (6 * Z.to_nat (uint16 (Z.shiftr (dpi_height (DPI (example_session 0)) + 2128) 5)))%nat
  ∧ Forall (λ c, (32 | (setup_call_coords c).1) ∧ (32 | (setup_call_coords c).2))
      (generate_visits 1 (DPI (example_session 0))).
Proof.
  apply (PaintSessionGenerate_visits example_tile_painter example_sprite_painter 1
           (example_session 0)).
  lia.
Defined.

Lemma generate_painter_good `{PaintHeaders} (emit : Z → Z → list paint_call) :
  painter_good (λ x y, generate (emit x y)).
Proof.
  intros x y s [[bs Hinv] Hpool].
  destruct (generate_inv (emit x y) s bs Hinv) as (s' & bs' & Hgen & Hinv').
  exists s'. split; [done|]. split; [eauto|]. by eapply generate_pool_inv.
Qed.

Lemma PaintSessionGenerate_frame_witness :
  ∃ s1 bs,
    PaintSessionGenerate example_tile_painter example_sprite_painter 1 (example_session 0)
    = Some (tt, s1)
    ∧ session_inv (H := example_headers_8) s1 bs
    ∧ (length (PaintStructs s1) ≤ 8)%nat
    ∧ ∀ fuel : nat,
        (Z.to_nat 16 + 2 * length (concat bs) + 2 * length (PaintStructs s1) + 2 < fuel)%nat →
        ∃ s2 chain draws,
          PaintSessionArrange (H := example_headers_8) fuel s1 = Some (tt, s2)
          ∧ chain ≡ₚ concat bs
          ∧ Forall2 (λ p d, PaintDrawStruct (H := example_headers_8) fuel false 1 s1 p = Some d)
              chain draws
          ∧ PaintDrawStructs (H := example_headers_8) fuel false 1 s2 = Some (concat draws).
Proof.
  apply (PaintSessionGenerate_frame (H := example_headers_8) example_tile_painter
           example_sprite_painter 1 (example_session 0) false 1).
  - apply (generate_painter_good (H := example_headers_8)).
  - apply (generate_painter_good (H := example_headers_8)).
  - lia.
  - by apply example_session_fresh.
Defined.

Lemma PaintAddImageAsParent_bucket_witness :
  ∃ r s',
    PaintAddImageAsParent (H := example_headers) 1 0 0 6 6 5 0 0 0 0 (example_session 0)
    = Some (r, s')
    ∧ match r with
      | None =>
          PaintStructs s' = PaintStructs (example_session 0)
          ∧ Quadrants s' = Quadrants (example_session 0)
          ∧ session_inv (H := example_headers) s' (replicate 16 [])
      | Some p =>
          read_ps (example_session 0) p = None ∧ LastPS s' = Some p
          ∧ ∃ (q : nat) b v,
              replicate 16 [] !! q = Some b
              ∧ read_ps s' p = Some v
              ∧ quadrant_index v = Z.of_nat q
              ∧ next_quadrant_ps v = head b
              ∧ Quadrants s' !! q = Some (Some p)
              ∧ session_inv (H := example_headers) s' (<[q := p :: b]> (replicate 16 []))
      end.
Proof.
  apply (PaintAddImageAsParent_bucket (H := example_headers) (example_session 0)
           (replicate 16 []) 1 0 0 6 6 5 0 0 0 0).
  apply (session_fresh_inv (H := example_headers)). by apply example_session_fresh.
Defined.

